(** * QRIS / EMV TLV payload codec ([src/utils/qris.ts])

    A shallow embedding of the TLV parser ([parseEmv]), the TLV builder
    ([buildValue], [buildEmv]), the checksum ([crc16Ccitt]) and the dynamic
    payload transform ([generateDynamicQRISPayload]), followed by the
    properties the specification states about them.

    Conventions of the embedding.
    - A JavaScript string is a [string]; every [ascii] stands for one UTF-16
      code unit in the range 0..255.  The checksum is also defined on plain
      lists of code units ([crcOfCodes]).
    - The numbers the parser computes with (cursor, lengths) are integers or
      [NaN]: type [index].  The transaction amount is a binary floating-point
      value: type [float64].
    - A JavaScript object used as a map is an association list holding its own
      properties in insertion order ([EmvMap]); [Object.entries] is the
      function [entries], which enumerates array-index keys first.
    - [Array.prototype.sort] is a stable sort.  The comparison that
      [buildEmv] sorts with is [localeCompare] called without a locale, that
      is, the collation of the host: [buildEmvWith] takes it as a parameter,
      and [buildEmv] is the builder on a host with the root collation
      ([localeCompare]).
    - The [while] loop of [parseEmv] may run forever, so the parser takes fuel:
      [None] means that the fuel ran out, [Some m] that the call returned [m];
      [parsesTo payload m] says that the call returns [m] with enough fuel. *)

From Stdlib Require Import ZArith NArith Lia List Bool Ascii String.
From Stdlib Require Import Sorting.Sorted Sorting.Permutation.
Import ListNotations.

Set Warnings "-register-all".
Local Open Scope string_scope.
Local Open Scope Z_scope.

(** ** The JavaScript built-ins the codec calls *)

Module JS.

(** Integer-valued Number or NaN. *)
Inductive index : Type :=
  | NaN
  | Int (z : Z).

Definition add (a b : index) : index :=
  match a, b with
  | Int x, Int y => Int (x + y)
  | _, _ => NaN
  end.

(** [a < b]; every comparison with NaN is false. *)
Definition lt (a b : index) : bool :=
  match a, b with
  | Int x, Int y => x <? y
  | _, _ => false
  end.

Definition ge (a b : index) : bool :=
  match a, b with
  | Int x, Int y => y <=? x
  | _, _ => false
  end.

Definition le (a b : index) : bool :=
  match a, b with
  | Int x, Int y => x <=? y
  | _, _ => false
  end.

Definition strlen (s : string) : Z := Z.of_nat (String.length s).

Definition charCode (c : ascii) : Z := Z.of_N (N_of_ascii c).

(** ToIntegerOrInfinity: NaN becomes 0. *)
Definition toIntegerOrInfinity (n : index) : Z :=
  match n with
  | NaN => 0
  | Int z => z
  end.

(** Relative index of [String.prototype.slice]: negative counts from the end,
    everything is clamped to [0, len]. *)
Definition relativeIndex (len k : Z) : Z :=
  if k <? 0 then Z.max (len + k) 0 else Z.min k len.

(** [s.slice(start, end)]. *)
Definition slice (s : string) (start end_ : index) : string :=
  let len := strlen s in
  let from := relativeIndex len (toIntegerOrInfinity start) in
  let to := relativeIndex len (toIntegerOrInfinity end_) in
  if to <=? from then ""
  else substring (Z.to_nat from) (Z.to_nat (to - from)) s.

Definition inRange (lo hi : Z) (c : ascii) : bool :=
  (lo <=? charCode c) && (charCode c <=? hi).

Definition isDigit (c : ascii) : bool := inRange 48 57 c.
Definition isUpper (c : ascii) : bool := inRange 65 90 c.
Definition isLower (c : ascii) : bool := inRange 97 122 c.

(** Character class [[0-9A-Za-z]]. *)
Definition isAlnum (c : ascii) : bool := isDigit c || isUpper c || isLower c.

(** [/^[0-9A-Za-z]{2}$/.test(s)]. *)
Definition testTag (s : string) : bool :=
  match s with
  | String a (String b EmptyString) => isAlnum a && isAlnum b
  | _ => false
  end.

(** StrWhiteSpaceChar among the code units 0..255: TAB, LF, VT, FF, CR, SP
    and NBSP. *)
Definition isWhiteSpace (c : ascii) : bool :=
  let n := charCode c in
  (n =? 9) || (n =? 10) || (n =? 11) || (n =? 12) || (n =? 13)
  || (n =? 32) || (n =? 160).

Fixpoint trimStart (s : string) : string :=
  match s with
  | String c r => if isWhiteSpace c then trimStart r else s
  | EmptyString => s
  end.

(** Value of the longest prefix of decimal digits, [None] when it is empty. *)
Fixpoint digitsPrefix (acc : option Z) (s : string) : option Z :=
  match s with
  | String c r =>
      if isDigit c
      then digitsPrefix
             (Some (10 * match acc with Some a => a | None => 0 end
                    + (charCode c - 48))) r
      else acc
  | EmptyString => acc
  end.

(** [parseInt(s, 10)]: leading white space is skipped, one sign is accepted,
    then the longest digit prefix is read; no digit gives NaN.  The value is
    exact below 2^53; the codec only passes strings of at most 2 characters.
    [-0] is identified with [0]. *)
Definition parseInt (s : string) : index :=
  let t := trimStart s in
  let '(sign, body) :=
    match t with
    | String "-" r => (-1, r)
    | String "+" r => (1, r)
    | _ => (1, t)
    end in
  match digitsPrefix None body with
  | Some n => Int (sign * n)
  | None => NaN
  end.

(** Digit of [Number.prototype.toString(radix)]. *)
Definition digitChar (d : Z) : ascii :=
  ascii_of_N (Z.to_N (if d <? 10 then 48 + d else 87 + d)).

Fixpoint toDigits (fuel : nat) (radix n : Z) (acc : string) : string :=
  match fuel with
  | O => acc
  | S fuel' =>
      let acc' := String (digitChar (n mod radix)) acc in
      if n / radix =? 0 then acc' else toDigits fuel' radix (n / radix) acc'
  end.

(** [n.toString(radix)] for an integer [n >= 0] and [2 <= radix]. *)
Definition toStringRadix (radix n : Z) : string :=
  toDigits (S (Z.to_nat (Z.log2 n))) radix n "".

Fixpoint repeatChar (c : ascii) (n : nat) : string :=
  match n with
  | O => ""
  | S n' => String c (repeatChar c n')
  end.

(** [s.padStart(width, '0')]. *)
Definition padStart0 (width : nat) (s : string) : string :=
  repeatChar "0" (width - String.length s) ++ s.

(** [String.prototype.toUpperCase] on the ASCII letters; the codec applies it
    to the hexadecimal output of the checksum only. *)
Definition upperChar (c : ascii) : ascii :=
  if isLower c then ascii_of_N (Z.to_N (charCode c - 32)) else c.

Fixpoint toUpperCase (s : string) : string :=
  match s with
  | String c r => String (upperChar c) (toUpperCase r)
  | EmptyString => ""
  end.

(** [a.localeCompare(b)] as -1, 0 or 1 under one collation, the CLDR root
    collation (which the English and Indonesian locales share) on ASCII
    letters and digits: digits sort before letters, letters sort
    alphabetically regardless of case, and where two strings differ in case
    only, the first difference decides, lower case first.  This is one host
    among others: the source passes no locale, and under another default
    locale the letters are ordered differently (Danish puts [aa] after
    [ab]).  What is stated about the order of the fields is therefore stated
    for [buildEmvWith], which takes the comparison as a parameter.
    Characters other than ASCII letters and digits are ranked here by code
    unit, below the digits, which is not what the CLDR table does with them
    (it ignores control characters and has its own order of punctuation);
    the tags that [parseEmv] stores never contain any. *)
Definition primaryWeight (c : ascii) : Z :=
  if isDigit c then 256 + (charCode c - 48)
  else if isUpper c then 266 + (charCode c - 65)
  else if isLower c then 266 + (charCode c - 97)
  else charCode c.

Definition tertiaryWeight (c : ascii) : Z :=
  if isUpper c then 1 else 0.

Fixpoint compareBy (w : ascii -> Z) (a b : string) : Z :=
  match a, b with
  | EmptyString, EmptyString => 0
  | EmptyString, String _ _ => -1
  | String _ _, EmptyString => 1
  | String x a', String y b' =>
      if w x <? w y then -1
      else if w y <? w x then 1
      else compareBy w a' b'
  end.

Definition localeCompare (a b : string) : Z :=
  let p := compareBy primaryWeight a b in
  if p =? 0 then compareBy tertiaryWeight a b else p.

(** [Array.prototype.sort(cmp)]: a stable sort; [cmp x y <= 0] keeps [x]
    before [y]. *)
Fixpoint insertBy {A : Type} (cmp : A -> A -> Z) (x : A) (l : list A)
  : list A :=
  match l with
  | [] => [x]
  | y :: r => if cmp x y <=? 0 then x :: l else y :: insertBy cmp x r
  end.

Fixpoint sortBy {A : Type} (cmp : A -> A -> Z) (l : list A) : list A :=
  match l with
  | [] => []
  | x :: r => insertBy cmp x (sortBy cmp r)
  end.

(** An array index is the canonical decimal form of an integer in
    [0, 2^32 - 2]: no sign, no leading zero. *)
Definition arrayIndex (k : string) : option Z :=
  match k with
  | EmptyString => None
  | String c r =>
      if forallb isDigit (list_ascii_of_string k)
         && (negb (Ascii.eqb c "0") || String.eqb r "")
      then match digitsPrefix None k with
           | Some n => if n <=? 4294967294 then Some n else None
           | None => None
           end
      else None
  end.

Definition isArrayIndex (k : string) : bool :=
  match arrayIndex k with
  | Some _ => true
  | None => false
  end.

Definition indexOf (k : string) : Z :=
  match arrayIndex k with
  | Some n => n
  | None => 0
  end.

Section Objects.
Context {V : Type}.

(** The own properties of an object in insertion order. *)
Definition object := list (string * V).

(** [o[k]]; [None] is [undefined]. *)
Fixpoint get (o : object) (k : string) : option V :=
  match o with
  | [] => None
  | (k', v) :: r => if String.eqb k' k then Some v else get r k
  end.

(** [o[k] = v]: an existing property keeps its place, a new one is added
    last. *)
Fixpoint set (o : object) (k : string) (v : V) : object :=
  match o with
  | [] => [(k, v)]
  | (k', v') :: r =>
      if String.eqb k' k then (k', v) :: r else (k', v') :: set r k v
  end.

(** [Object.entries(o)]: array-index keys in ascending numeric order, then
    the other keys in insertion order. *)
Definition entries (o : object) : list (string * V) :=
  sortBy (fun a b => indexOf (fst a) - indexOf (fst b))
         (filter (fun e => isArrayIndex (fst e)) o)
  ++ filter (fun e => negb (isArrayIndex (fst e))) o.
End Objects.

Arguments object : clear implicits.

(** A Number in full: NaN, an infinity, or the finite value
    [(-1)^neg * m * 2^e] ([m = 0] gives the two zeros). *)
Inductive float64 : Type :=
  | FNaN
  | FInf (neg : bool)
  | Finite (neg : bool) (m : N) (e : Z).

(** The Number of an integer literal (exact below 2^53). *)
Definition ofInt (z : Z) : float64 := Finite (z <? 0) (Z.abs_N z) 0.

(** [10.5] is [21 / 2]. *)
Definition tenAndAHalf : float64 := Finite false 21 (-1).

(** Shortest decimal digits [s] (with [k] digits) and exponent [n] such that
    [s * 10^(n-k)] reads back as the binary64 value [x >= 10^21]; where
    several [s] fit, the closest to [x].  [x] is [M * 2^E] with
    [2^52 <= M < 2^53], and a decimal reads back as [x] when it lies between
    the midpoints to the neighbouring values (inclusive when [M] is even). *)
Definition fitsDigits (x k n : Z) : option Z :=
  let E := Z.log2 x - 52 in
  let M := x / 2 ^ E in
  let below := if M =? 2 ^ 52 then 2 ^ (E - 1) else 2 ^ E in
  let lo := 2 * x - below in
  let hi := 2 * x + 2 ^ E in
  let P := 10 ^ (n - k) in
  let inside (s : Z) :=
    (10 ^ (k - 1) <=? s) && (s <? 10 ^ k)
    && (if Z.even M then (lo <=? 2 * s * P) && (2 * s * P <=? hi)
        else (lo <? 2 * s * P) && (2 * s * P <? hi)) in
  let s0 := x / P in
  let near0 := x - s0 * P in
  let near1 := (s0 + 1) * P - x in
  if inside s0 && (negb (inside (s0 + 1)) || (near0 <=? near1)) then Some s0
  else if inside (s0 + 1) then Some (s0 + 1)
  else None.

Fixpoint shortestDigits (fuel : nat) (x k n : Z) : Z * Z * Z :=
  match fuel with
  | O => (x, n, n)
  | S fuel' =>
      match fitsDigits x k n, fitsDigits x k (n + 1) with
      | Some s, _ => (s, k, n)
      | None, Some s => (s, k, n + 1)
      | None, None => shortestDigits fuel' x (k + 1) n
      end
  end.

Definition decimalLength (x : Z) : Z := strlen (toStringRadix 10 x).

(** [Number::toString] of an integral value [x >= 10^21]: exponent form. *)
Definition toStringLarge (x : Z) : string :=
  let '(s, k, n) := shortestDigits 17 x 1 (decimalLength x) in
  let digits := toStringRadix 10 s in
  let expo := "e+" ++ toStringRadix 10 (n - 1) in
  match digits with
  | String d EmptyString => String d expo
  | String d r => String d ("." ++ r ++ expo)
  | EmptyString => expo
  end.

(** [x.toFixed(f)]: the integer [n] with [n / 10^f] closest to [|x|] (the
    larger one on a tie) written with [f] fractional digits; values from
    [10^21] on, NaN and the infinities are written as [String(x)] writes
    them. *)
Definition toFixed (x : float64) (f : nat) : string :=
  match x with
  | FNaN => "NaN"
  | FInf neg => if neg then "-Infinity" else "Infinity"
  | Finite neg m e =>
      let s := if neg && negb (Z.of_N m =? 0) then "-" else "" in
      let den := if e <? 0 then 2 ^ (- e) else 1 in
      let num := if e <? 0 then Z.of_N m else Z.of_N m * 2 ^ e in
      if 10 ^ 21 * den <=? num then s ++ toStringLarge (num / den)
      else
        let n := (2 * num * 10 ^ Z.of_nat f + den) / (2 * den) in
        let digits := padStart0 (S f) (toStringRadix 10 n) in
        let k := String.length digits in
        s ++ substring 0 (k - f) digits
          ++ (if Nat.eqb f 0 then "" else "." ++ substring (k - f) f digits)
  end.

(** [s.endsWith(suffix)] as the regular expression [/suffix$/] needs it. *)
Definition endsWith (s suffix : string) : bool :=
  let n := String.length s in
  let k := String.length suffix in
  Nat.leb k n && String.eqb (substring (n - k) k s) suffix.

(** [s.replace(/\.00$/, '')]. *)
Definition stripDot00 (s : string) : string :=
  if endsWith s ".00" then substring 0 (String.length s - 3) s else s.

End JS.

(** ** The codec *)

Module Qris.
Import JS.

(** [string | EmvMap]. *)
Inductive EmvNode : Type :=
  | Leaf (s : string)
  | Composite (m : list (string * EmvNode)).

(** [type EmvMap = Record<string, string | EmvMap>]. *)
Definition EmvMap : Type := object EmvNode.

(** [const padLen = (n) => n.toString().padStart(2, '0')]. *)
Definition padLen (n : Z) : string := padStart0 2 (toStringRadix 10 n).

(** The test of line 35: tag 62, or a tag whose decimal parse is in
    [26, 51]. *)
Definition isTemplateTag (tag : string) : bool :=
  String.eqb tag "62"
  || (ge (parseInt tag) (Int 26) && le (parseInt tag) (Int 51)).

(** The [while] loop of [parseEmv], from cursor [i] with the entries [map]
    read so far.  One unit of fuel is spent per iteration; the nested call
    [parseEmv(value)] runs on what is left. *)
Fixpoint parseEmvFrom (fuel : nat) (payload : string) (i : index)
    (map : EmvMap) : option EmvMap :=
  match fuel with
  | O => None
  | S fuel' =>
      if negb (lt i (Int (strlen payload))) then Some map
      else
        let tag := slice payload i (add i (Int 2)) in
        let i := add i (Int 2) in
        if negb (testTag tag) then Some map
        else
          let len := parseInt (slice payload i (add i (Int 2))) in
          let i := add i (Int 2) in
          let value := slice payload i (add i len) in
          let i := add i len in
          let stored :=
            if isTemplateTag tag
            then option_map Composite (parseEmvFrom fuel' value (Int 0) [])
            else Some (Leaf value) in
          match stored with
          | None => None
          | Some node =>
              let map := set map tag node in
              if String.eqb tag "63" then Some map
              else parseEmvFrom fuel' payload i map
          end
  end.

(** [parseEmv(payload)]. *)
Definition parseEmv (fuel : nat) (payload : string) : option EmvMap :=
  parseEmvFrom fuel payload (Int 0) [].

(** One field: [`${t}${padLen(vStr.length)}${vStr}`]. *)
Definition field (t vStr : string) : string :=
  t ++ padLen (strlen vStr) ++ vStr.

Definition fields (l : list (string * string)) : string :=
  fold_left (fun out e => out ++ field (fst e) (snd e)) l "".

(** [buildValue(val)].  The recursive calls are made on the entries of [val]
    as stored and the resulting strings are then put in the order of
    [Object.entries], which only looks at the keys; [buildValue_Composite]
    below restates the loop as the source has it. *)
Fixpoint buildValue (val : EmvNode) : string :=
  match val with
  | Leaf s => s
  | Composite m =>
      fields (entries (List.map (fun e => (fst e, buildValue (snd e))) m))
  end.

(** CRC16-CCITT, polynomial 0x1021, initial value 0xFFFF.  The operands stay
    below 2^25, so the 32-bit wrap of the JavaScript bit operators never
    applies. *)
Definition crcShift (crc : Z) : Z :=
  Z.land
    (if negb (Z.land crc 0x8000 =? 0)
     then Z.lxor (Z.shiftl crc 1) 0x1021
     else Z.shiftl crc 1)
    0xffff.

(** One character, given by its code unit: the XOR of line 76 and the eight
    shifts of lines 77 to 81. *)
Definition crcStep (crc : Z) (code : Z) : Z :=
  Nat.iter 8 crcShift (Z.lxor crc (Z.shiftl code 8)).

(** The register after a sequence of code units. *)
Definition crcOfCodes (codes : list Z) : Z :=
  fold_left crcStep codes 0xffff.

Definition crcValue (str : string) : Z :=
  crcOfCodes (List.map charCode (list_ascii_of_string str)).

(** [crc.toString(16).padStart(4, '0')]. *)
Definition formatCrc (crc : Z) : string :=
  padStart0 4 (toStringRadix 16 crc).

(** [crc16Ccitt(str)]. *)
Definition crc16Ccitt (str : string) : string :=
  formatCrc (crcValue str).

(** The entries [buildEmv] serializes: tag 63 dropped, the rest sorted with
    [localeCompare]. *)
Definition sortedEntries (map : EmvMap) : list (string * EmvNode) :=
  sortBy (fun a b => localeCompare (fst a) (fst b))
         (filter (fun e => negb (String.eqb (fst e) "63")) (entries map)).

Definition payloadNoCRC (map : EmvMap) : string :=
  fields (List.map (fun e => (fst e, buildValue (snd e))) (sortedEntries map)).

(** [buildEmv(map)]. *)
Definition buildEmv (map : EmvMap) : string :=
  let forCRC := payloadNoCRC map ++ "63" ++ padLen 4 in
  let crc := toUpperCase (crc16Ccitt forCRC) in
  payloadNoCRC map ++ "63" ++ padLen 4 ++ crc.

(** Lines 59 to 70 with the comparison of line 61 as a parameter.  The
    source calls [localeCompare] with no locale argument, so the comparison
    is the one of the host's default locale: [collate a b] stands for
    [a.localeCompare(b)] on the host.  [buildEmv] is [buildEmvWith] at
    [localeCompare]. *)
Definition sortedEntriesWith (collate : string -> string -> Z) (map : EmvMap)
  : list (string * EmvNode) :=
  sortBy (fun a b => collate (fst a) (fst b))
         (filter (fun e => negb (String.eqb (fst e) "63")) (entries map)).

Definition payloadNoCRCWith (collate : string -> string -> Z) (map : EmvMap)
  : string :=
  fields (List.map (fun e => (fst e, buildValue (snd e)))
                   (sortedEntriesWith collate map)).

Definition buildEmvWith (collate : string -> string -> Z) (map : EmvMap)
  : string :=
  let forCRC := payloadNoCRCWith collate map ++ "63" ++ padLen 4 in
  let crc := toUpperCase (crc16Ccitt forCRC) in
  payloadNoCRCWith collate map ++ "63" ++ padLen 4 ++ crc.

(** The tree that [generateDynamicQRISPayload] hands to [buildEmv]
    (lines 90 to 102).  [reference] is [None] when the argument is omitted;
    the empty string is falsy as well. *)
Definition dynamicTree (emv : EmvMap) (amount : float64)
    (reference : option string) : EmvMap :=
  let emv := set emv "01" (Leaf "12") in
  let amountStr := stripDot00 (toFixed amount 2) in
  let emv := set emv "54" (Leaf amountStr) in
  let addl :=
    match get emv "62" with
    | Some (Composite m) => m
    | _ => []
    end in
  let addl :=
    match reference with
    | Some r => if String.eqb r "" then addl else set addl "01" (Leaf r)
    | None => addl
    end in
  set emv "62" (Composite addl).

(** [generateDynamicQRISPayload(basePayload, amount, reference)]. *)
Definition generateDynamicQRISPayload (fuel : nat) (basePayload : string)
    (amount : float64) (reference : option string) : option string :=
  match parseEmv fuel basePayload with
  | None => None
  | Some emv => Some (buildEmv (dynamicTree emv amount reference))
  end.

End Qris.

Import JS Qris.

(** ** Predicates the properties are stated with *)

Module Props.

Definition keys {V : Type} (o : object V) : list string := List.map fst o.

(** No key occurs twice: the list stands for an object. *)
Fixpoint uniqueb (l : list string) : bool :=
  match l with
  | [] => true
  | k :: r => negb (existsb (String.eqb k) r) && uniqueb r
  end.

(** The data model at every level: a Composite under exactly the template
    tags, a Leaf under the others. *)
Fixpoint typedNode (tag : string) (v : EmvNode) : bool :=
  match v with
  | Leaf _ => negb (isTemplateTag tag)
  | Composite m =>
      isTemplateTag tag && forallb (fun e => typedNode (fst e) (snd e)) m
  end.

Definition typed (m : EmvMap) : bool :=
  forallb (fun e => typedNode (fst e) (snd e)) m.

(** A tree as the parser makes them, at every level: distinct keys, each key
    two letters or digits, a Composite under exactly the template tags. *)
Fixpoint wellFormedNode (tag : string) (v : EmvNode) : bool :=
  testTag tag
  && match v with
     | Leaf _ => negb (isTemplateTag tag)
     | Composite m =>
         isTemplateTag tag
         && uniqueb (List.map fst m)
         && forallb (fun e => wellFormedNode (fst e) (snd e)) m
     end.

Definition wellFormed (m : EmvMap) : bool :=
  uniqueb (keys m) && forallb (fun e => wellFormedNode (fst e) (snd e)) m.

(** What the two-digit length fields and the stop at tag 63 can carry: every
    serialized value has at most 99 characters, and no Composite holds a
    tag 63. *)
Fixpoint fitsNode (v : EmvNode) : bool :=
  (strlen (buildValue v) <=? 99)
  && match v with
     | Leaf _ => true
     | Composite m =>
         forallb (fun e => negb (String.eqb (fst e) "63") && fitsNode (snd e)) m
     end.

Definition fits (m : EmvMap) : bool :=
  forallb (fun e => fitsNode (snd e)) m.

Definition no63 (m : EmvMap) : bool :=
  forallb (fun e => negb (String.eqb (fst e) "63")) m.

(** Structural equality of two trees (lists without repeated keys): as many
    entries, and every key of the first holds a structurally equal value in
    the second, whatever the order of the keys. *)
Fixpoint nodeEqb (a b : EmvNode) : bool :=
  match a, b with
  | Leaf s, Leaf s' => String.eqb s s'
  | Composite m, Composite m' =>
      Nat.eqb (List.length m) (List.length m')
      && forallb (fun e => match get m' (fst e) with
                           | Some v' => nodeEqb (snd e) v'
                           | None => false
                           end) m
  | _, _ => false
  end.

Definition treeEqb (m m' : EmvMap) : bool :=
  nodeEqb (Composite m) (Composite m').

(** [x] comes before [y] in the list [l]. *)
Definition before {A : Type} (x y : A) (l : list A) : Prop :=
  exists l1 l2 l3 : list A, l = (l1 ++ x :: l2 ++ y :: l3)%list.

(** The keys in ascending byte-wise order, at every level. *)
Fixpoint ascending (l : list string) : bool :=
  match l with
  | k :: ((k' :: _) as r) => String.ltb k k' && ascending r
  | _ => true
  end.

Fixpoint sortedNode (v : EmvNode) : bool :=
  match v with
  | Leaf _ => true
  | Composite m =>
      ascending (List.map fst m) && forallb (fun e => sortedNode (snd e)) m
  end.

Definition sortedTree (m : EmvMap) : bool := sortedNode (Composite m).

(** [s] occurs in [out]. *)
Definition contains (out s : string) : Prop :=
  exists pre post, out = pre ++ s ++ post.

(** The additional data [generateDynamicQRISPayload] starts from: the
    Composite under tag 62 when there is one, else a new empty object. *)
Definition additionalData (emv : EmvMap) : EmvMap :=
  match get emv "62" with
  | Some (Composite m) => m
  | _ => []
  end.

(** A finite amount below [10^21] in absolute value, the range in which
    [toFixed] writes fixed-point digits. *)
Definition fixedPointRange (x : float64) : bool :=
  match x with
  | Finite _ m e =>
      if e <? 0 then Z.of_N m <? 10 ^ 21 * 2 ^ (- e)
      else Z.of_N m * 2 ^ e <? 10 ^ 21
  | _ => false
  end.

(** A static payload: format indicator, static initiation, one merchant
    account template, category, currency, country and a CRC field. *)
Definition samplePayload : string :=
  "000201" ++ "010211" ++ "2621" ++ "0010ID.CO.QRIS" ++ "0103936"
  ++ "52045812" ++ "5303360" ++ "5802ID" ++ "6304ABCD".

(** The trailer [buildEmv] computes for a tree. *)
Definition crcOf (map : EmvMap) : string :=
  toUpperCase (crc16Ccitt (payloadNoCRC map ++ "6304")).

(** The loop started at cursor [i] with the entries [map] returns [r]. *)
Definition parsesFrom (payload : string) (i : index) (map r : EmvMap) : Prop :=
  exists fuel, parseEmvFrom fuel payload i map = Some r.

(** [parseEmv(payload)] returns [r]. *)
Definition parsesTo (payload : string) (r : EmvMap) : Prop :=
  exists fuel, parseEmv fuel payload = Some r.

(** The fields of a list of entries, as [buildValue] and [buildEmv] write
    them. *)
Definition serialize (es : list (string * EmvNode)) : string :=
  fields (List.map (fun e => (fst e, buildValue (snd e))) es).

(** An entry whose field the parser can read: a two-character tag other
    than 63, a value of at most 99 characters, a Composite exactly under a
    template tag. *)
Definition readable (e : string * EmvNode) : Prop :=
  testTag (fst e) = true /\ fst e <> "63"
  /\ strlen (buildValue (snd e)) <= 99
  /\ isTemplateTag (fst e)
     = match snd e with Composite _ => true | Leaf _ => false end.

(** [e'] is what the parser stores when it reads the field of [e]. *)
Definition readsBack (e e' : string * EmvNode) : Prop :=
  fst e' = fst e
  /\ match snd e with
     | Leaf s => snd e' = Leaf s
     | Composite m =>
         exists m', snd e' = Composite m' /\ parsesTo (serialize (entries m)) m'
     end.

Definition sameEntry (e e' : string * EmvNode) : Prop :=
  fst e' = fst e /\ nodeEqb (snd e) (snd e') = true.

(** [map[k] = v] for every entry [(k, v)] of [es], in order. *)
Definition setAll (map : EmvMap) (es : list (string * EmvNode)) : EmvMap :=
  fold_left (fun m e => set m (fst e) (snd e)) es map.

(** The tags of the fields [buildEmv] writes before the CRC field, in the
    order in which it writes them. *)
Definition emittedTags (map : EmvMap) : list string :=
  List.map fst (sortedEntries map).

(** The same on a host whose comparison is [collate]. *)
Definition emittedTagsWith (collate : string -> string -> Z) (map : EmvMap)
  : list string :=
  List.map fst (sortedEntriesWith collate map).

(** What ECMAScript requires of every host's [localeCompare]: a consistent
    comparison.  Swapping the arguments swaps the sign, and [<= 0] is
    transitive; so the strings fall into classes of equal rank that are
    totally ordered. *)
Definition consistent (collate : string -> string -> Z) : Prop :=
  (forall a b, collate b a < 0 <-> 0 < collate a b)
  /\ (forall a b c, collate a b <= 0 -> collate b c <= 0 -> collate a c <= 0).

(** On the strings of [tags], the host's comparison ranks as the byte-wise
    comparison does. *)
Definition agreesWithBytes (collate : string -> string -> Z)
    (tags : list string) : Prop :=
  forall a b, In a tags -> In b tags ->
              (collate a b < 0 <-> String.ltb a b = true).

(** No two distinct strings of [tags] have equal rank. *)
Definition separates (collate : string -> string -> Z) (tags : list string)
  : Prop :=
  forall a b, In a tags -> In b tags -> collate a b = 0 -> a = b.

(** Digits and upper-case letters only. *)
Definition digitsAndCapitals (s : string) : bool :=
  forallb (fun c => isDigit c || isUpper c) (list_ascii_of_string s).

(** Decimal digits only. *)
Definition allDigits (s : string) : bool :=
  forallb isDigit (list_ascii_of_string s).

(** A digit or a letter [a] to [f]. *)
Definition isLowerHex (c : ascii) : bool := isDigit c || inRange 97 102 c.

Definition fourLowerHex (s : string) : bool :=
  Nat.eqb (String.length s) 4 && forallb isLowerHex (list_ascii_of_string s).

(** [f] holds on the [count] integers from [v] on. *)
Fixpoint holdsFrom (f : Z -> bool) (count : nat) (v : Z) : bool :=
  match count with
  | O => true
  | S count' => f v && holdsFrom f count' (v + 1)
  end.

(** The length [n] is written with two characters and read back as [n]. *)
Definition padLenReadsBack (n : Z) : bool :=
  Nat.eqb (String.length (padLen n)) 2
  && match parseInt (padLen n) with
     | Int z => z =? n
     | NaN => false
     end.

(** The register before a shift of [crcShift], from the register after
    it: the low bit tells whether the polynomial was applied. *)
Definition crcUnshift (v : Z) : Z :=
  if Z.testbit v 0
  then Z.lor (Z.shiftr (Z.lxor v 0x1021) 1) 0x8000
  else Z.shiftr v 1.

(** The number a string of hexadecimal digits stands for. *)
Definition hexValue (s : string) : Z :=
  fold_left (fun acc c => 16 * acc
                          + (if isDigit c then charCode c - 48
                             else charCode c - 87))
            (list_ascii_of_string s) 0.

(** The number a string of decimal digits stands for, read after the
    number [a]. *)
Fixpoint readDigits (a : Z) (s : string) : Z :=
  match s with
  | String c r => readDigits (10 * a + (charCode c - 48)) r
  | EmptyString => a
  end.

(** The character [-] occurs in [s]. *)
Definition hasMinus (s : string) : bool :=
  existsb (Ascii.eqb "-") (list_ascii_of_string s).

(** A digit or a letter [A] to [F]. *)
Definition isUpperHex (c : ascii) : bool := isDigit c || inRange 65 70 c.

Definition fourUpperHex (s : string) : bool :=
  Nat.eqb (String.length s) 4 && forallb isUpperHex (list_ascii_of_string s).

Definition not63 (e : string * EmvNode) : bool :=
  negb (String.eqb (fst e) "63").

(** The node the parser stores for the field of [v]: the entries of every
    Composite in the order in which [buildValue] writes them. *)
Fixpoint canon (v : EmvNode) : EmvNode :=
  match v with
  | Leaf s => Leaf s
  | Composite m =>
      Composite (entries (List.map (fun e => (fst e, canon (snd e))) m))
  end.

Definition canonEntries (es : list (string * EmvNode))
  : list (string * EmvNode) :=
  List.map (fun e => (fst e, canon (snd e))) es.

(** The tree the parser returns on [buildEmv t]: the entries other than 63
    in the order of the fields, then the CRC under 63. *)
Definition canonTree (t : EmvMap) : EmvMap :=
  (canonEntries (sortedEntries t) ++ [("63", Leaf (crcOf t))])%list.

(** Induction on a node with the hypothesis for every nested value. *)
Fixpoint EmvNode_deep_ind (P : EmvNode -> Prop)
    (HLeaf : forall s, P (Leaf s))
    (HComposite : forall m, Forall (fun e => P (snd e)) m -> P (Composite m))
    (v : EmvNode) : P v :=
  match v with
  | Leaf s => HLeaf s
  | Composite m =>
      HComposite m
        ((fix all (l : list (string * EmvNode))
            : Forall (fun e => P (snd e)) l :=
            match l with
            | [] => Forall_nil _
            | e :: r =>
                Forall_cons e (EmvNode_deep_ind P HLeaf HComposite (snd e))
                            (all r)
            end) m)
  end.

End Props.
Import Props.

(** ** Facts about strings and slices *)

Module StringFacts.

Lemma length_append (a b : string) :
  String.length (a ++ b) = (String.length a + String.length b)%nat.
Proof. induction a as [|c a IH]; simpl; [reflexivity | now rewrite IH]. Qed.

Lemma append_nil_r (a : string) : a ++ "" = a.
Proof. induction a as [|c a IH]; simpl; [reflexivity | now rewrite IH]. Qed.

Lemma append_assoc (a b c : string) : (a ++ b) ++ c = a ++ (b ++ c).
Proof. induction a as [|x a IH]; simpl; [reflexivity | now rewrite IH]. Qed.

Lemma length_zero_inv (s : string) : String.length s = 0%nat -> s = "".
Proof. destruct s; simpl; [reflexivity | discriminate]. Qed.

Lemma substring_zero (n : nat) (s : string) : substring n 0 s = "".
Proof.
  revert n; induction s as [|c s IH]; intros [|n]; simpl; auto.
Qed.

Lemma length_substring (n m : nat) (s : string) :
  String.length (substring n m s) = Nat.min m (String.length s - n).
Proof.
  revert n m; induction s as [|c s IH]; intros n m.
  - destruct n, m; reflexivity.
  - destruct n as [|n].
    + destruct m as [|m]; simpl; [reflexivity|].
      rewrite IH. now rewrite Nat.sub_0_r.
    + simpl. apply IH.
Qed.

Lemma substring_all (s : string) : substring 0 (String.length s) s = s.
Proof. induction s as [|c s IH]; simpl; [reflexivity | now rewrite IH]. Qed.

Lemma substring_prefix (a b : string) :
  substring 0 (String.length a) (a ++ b) = a.
Proof. induction a as [|c a IH]; simpl; [apply substring_zero | now rewrite IH]. Qed.

Lemma substring_skip (a b : string) (n m : nat) :
  substring (String.length a + n) m (a ++ b) = substring n m b.
Proof. induction a as [|c a IH]; simpl; auto. Qed.

Lemma substring_app_l (a b : string) (m : nat) :
  (m <= String.length a)%nat ->
  substring 0 m (a ++ b) = substring 0 m a.
Proof.
  revert m; induction a as [|c a IH]; intros m Hm; simpl in *.
  - assert (m = 0%nat) by lia; subst. now rewrite substring_zero.
  - destruct m as [|m]; [reflexivity|]. rewrite IH by lia. reflexivity.
Qed.

Lemma strlen_nonneg (s : string) : 0 <= strlen s.
Proof. unfold strlen; lia. Qed.

Lemma strlen_append (a b : string) : strlen (a ++ b) = strlen a + strlen b.
Proof. unfold strlen; rewrite length_append; lia. Qed.

Lemma strlen_String (c : ascii) (s : string) : strlen (String c s) = 1 + strlen s.
Proof. unfold strlen; simpl String.length; lia. Qed.

(** A slice between two positions inside the string. *)
Lemma slice_inside (s : string) (a b : Z) :
  0 <= a -> a <= b -> b <= strlen s ->
  slice s (Int a) (Int b) = substring (Z.to_nat a) (Z.to_nat (b - a)) s.
Proof.
  intros Ha Hab Hb. unfold slice, relativeIndex, toIntegerOrInfinity.
  destruct (a <? 0) eqn:E1; [lia|]. destruct (b <? 0) eqn:E2; [lia|].
  rewrite !Z.min_l by lia.
  destruct (b <=? a) eqn:E3; [|reflexivity].
  assert (b = a) by lia; subst. rewrite Z.sub_diag. simpl.
  now rewrite substring_zero.
Qed.

(** A slice that starts at or after the end is empty, whatever its end. *)
Lemma slice_past_end (s : string) (a : Z) (e : index) :
  strlen s <= a -> slice s (Int a) e = "".
Proof.
  intros Ha. pose proof (strlen_nonneg s) as Hs.
  unfold slice.
  assert (Hfrom : relativeIndex (strlen s) (toIntegerOrInfinity (Int a)) = strlen s).
  { unfold relativeIndex; cbn [toIntegerOrInfinity]. destruct (a <? 0) eqn:E1; lia. }
  assert (Hto : relativeIndex (strlen s) (toIntegerOrInfinity e) <= strlen s).
  { unfold relativeIndex. destruct (toIntegerOrInfinity e <? 0) eqn:E2; lia. }
  rewrite Hfrom.
  destruct (relativeIndex (strlen s) (toIntegerOrInfinity e) <=? strlen s) eqn:E;
    [reflexivity | lia].
Qed.

Lemma length_slice_le (s : string) (a b : Z) :
  0 <= a -> a <= b ->
  strlen (slice s (Int a) (Int b)) <= Z.max 0 (Z.min (b - a) (strlen s - a)).
Proof.
  intros Ha Hab. pose proof (strlen_nonneg s) as Hs.
  unfold slice, relativeIndex, toIntegerOrInfinity.
  destruct (a <? 0) eqn:E1; [lia|]. destruct (b <? 0) eqn:E2; [lia|].
  match goal with |- context [?x <=? ?y] => destruct (x <=? y) eqn:E end.
  - unfold strlen at 1; simpl; lia.
  - unfold strlen at 1. rewrite length_substring. unfold strlen in *. lia.
Qed.

End StringFacts.

(** ** Facts about objects *)

Module ObjectFacts.

Section GetSet.
Context {V : Type}.
Implicit Types (o : object V) (k : string) (v : V).

Lemma get_set_same o k v : get (set o k v) k = Some v.
Proof.
  induction o as [|[k' v'] o IH]; simpl.
  - now rewrite String.eqb_refl.
  - destruct (String.eqb k' k) eqn:E; simpl; rewrite E; auto.
Qed.

Lemma get_set_other o k k' v : k <> k' -> get (set o k v) k' = get o k'.
Proof.
  intros Hne. induction o as [|[k0 v0] o IH]; simpl.
  - apply String.eqb_neq in Hne. now rewrite Hne.
  - destruct (String.eqb k0 k) eqn:E; simpl.
    + apply String.eqb_eq in E; subst k0.
      apply String.eqb_neq in Hne. now rewrite Hne.
    + now rewrite IH.
Qed.

Lemma get_In o k v : get o k = Some v -> In (k, v) o.
Proof.
  induction o as [|[k' v'] o IH]; simpl; [discriminate|].
  destruct (String.eqb k' k) eqn:E; intros H.
  - apply String.eqb_eq in E. inversion H; subst. now left.
  - right; auto.
Qed.

Lemma existsb_eqb_In k (l : list string) :
  existsb (String.eqb k) l = true <-> In k l.
Proof.
  rewrite existsb_exists. split.
  - intros (x & Hx & E). apply String.eqb_eq in E. now subst.
  - intros H. exists k. split; [exact H | apply String.eqb_refl].
Qed.

Lemma uniqueb_NoDup (l : list string) : uniqueb l = true <-> NoDup l.
Proof.
  induction l as [|k l IH]; simpl.
  - split; [constructor | reflexivity].
  - rewrite andb_true_iff, negb_true_iff, IH. split.
    + intros [Hk Hl]. constructor; [|exact Hl].
      intros Hin. apply existsb_eqb_In in Hin. congruence.
    + intros H. inversion H as [|? ? Hk Hl]; subst. split; [|exact Hl].
      destruct (existsb (String.eqb k) l) eqn:E; [|reflexivity].
      apply existsb_eqb_In in E. contradiction.
Qed.

Lemma get_None o k : get o k = None <-> ~ In k (keys o).
Proof.
  induction o as [|[k' v'] o IH]; simpl.
  - tauto.
  - destruct (String.eqb k' k) eqn:E.
    + apply String.eqb_eq in E. split; [discriminate | intros H; tauto].
    + apply String.eqb_neq in E. rewrite IH. tauto.
Qed.

Lemma In_get o k v : NoDup (keys o) -> In (k, v) o -> get o k = Some v.
Proof.
  induction o as [|[k' v'] o IH]; simpl; intros Hnd Hin; [contradiction|].
  inversion Hnd as [|? ? Hk Hrest]; subst.
  destruct Hin as [Heq | Hin].
  - inversion Heq; subst. now rewrite String.eqb_refl.
  - destruct (String.eqb k' k) eqn:E; [|auto].
    apply String.eqb_eq in E; subst k'.
    exfalso. apply Hk. apply (in_map fst) in Hin. exact Hin.
Qed.

Lemma keys_set_present o k v : In k (keys o) -> keys (set o k v) = keys o.
Proof.
  induction o as [|[k' v'] o IH]; simpl; intros Hin; [contradiction|].
  destruct (String.eqb k' k) eqn:E; simpl; [reflexivity|].
  apply String.eqb_neq in E. destruct Hin as [->|Hin]; [congruence|].
  now rewrite IH.
Qed.

Lemma set_absent o k v : ~ In k (keys o) -> set o k v = (o ++ [(k, v)])%list.
Proof.
  induction o as [|[k' v'] o IH]; simpl; intros Hin; [reflexivity|].
  destruct (String.eqb k' k) eqn:E.
  - apply String.eqb_eq in E. tauto.
  - rewrite IH by tauto. reflexivity.
Qed.

Lemma NoDup_keys_set o k v : NoDup (keys o) -> NoDup (keys (set o k v)).
Proof.
  intros Hnd. destruct (in_dec string_dec k (keys o)) as [Hin|Hout].
  - now rewrite keys_set_present.
  - rewrite set_absent by exact Hout. unfold keys. rewrite map_app. simpl.
    apply Permutation_NoDup with (l := k :: List.map fst o).
    + apply Permutation_cons_append.
    + now constructor.
Qed.

Lemma In_set o k v e : In e (set o k v) -> e = (k, v) \/ In e o.
Proof.
  induction o as [|[k' v'] o IH]; simpl.
  - intros [H|[]]; auto.
  - destruct (String.eqb k' k) eqn:E; simpl.
    + apply String.eqb_eq in E; subst k'. intros [H|H]; auto.
    + intros [H|H]; auto. apply IH in H. tauto.
Qed.

Lemma forallb_set (P : string * V -> bool) o k v :
  forallb P o = true -> P (k, v) = true -> forallb P (set o k v) = true.
Proof.
  intros Ho Hkv. rewrite forallb_forall in *. intros e He.
  apply In_set in He. destruct He as [->|He]; auto.
Qed.
End GetSet.

End ObjectFacts.

(** ** Facts about sorting and the collation order *)

Module SortFacts.

Section Sorting.
Context {A : Type} (cmp : A -> A -> Z).

Lemma insertBy_perm (x : A) (l : list A) :
  Permutation (insertBy cmp x l) (x :: l).
Proof.
  induction l as [|y l IH]; simpl; [reflexivity|].
  destruct (cmp x y <=? 0); [reflexivity|].
  rewrite IH. apply perm_swap.
Qed.

Lemma sortBy_perm (l : list A) : Permutation (sortBy cmp l) l.
Proof.
  induction l as [|x l IH]; simpl; [reflexivity|].
  rewrite insertBy_perm. now constructor.
Qed.

Hypothesis cmp_total : forall x y, cmp x y <= 0 \/ cmp y x <= 0.
Hypothesis cmp_trans :
  forall x y z, cmp x y <= 0 -> cmp y z <= 0 -> cmp x z <= 0.

Lemma insertBy_sorted (x : A) (l : list A) :
  StronglySorted (fun a b => cmp a b <= 0) l ->
  StronglySorted (fun a b => cmp a b <= 0) (insertBy cmp x l).
Proof.
  induction 1 as [|y l Hl IH Hy]; simpl.
  - constructor; constructor.
  - destruct (cmp x y <=? 0) eqn:E.
    + apply Z.leb_le in E. constructor; [now constructor|].
      constructor; [exact E|].
      rewrite Forall_forall in *. intros z Hz. eauto.
    + apply Z.leb_gt in E. constructor; [exact IH|].
      rewrite Forall_forall in *. intros z Hz.
      apply (Permutation_in _ (insertBy_perm x l)) in Hz.
      destruct Hz as [<-|Hz]; [|auto].
      destruct (cmp_total x y); [lia | assumption].
Qed.

Lemma sortBy_sorted (l : list A) :
  StronglySorted (fun a b => cmp a b <= 0) (sortBy cmp l).
Proof.
  induction l as [|x l IH]; simpl; [constructor | now apply insertBy_sorted].
Qed.
End Sorting.

Section Before.
Context {A : Type}.

Lemma before_cons_head (x y : A) (l : list A) : In y l -> before x y (x :: l).
Proof.
  intros Hin. apply in_split in Hin. destruct Hin as (l2 & l3 & ->).
  now exists [], l2, l3.
Qed.

Lemma before_cons (x y z : A) (l : list A) : before x y l -> before x y (z :: l).
Proof. intros (l1 & l2 & l3 & ->). now exists (z :: l1), l2, l3. Qed.

Lemma before_In (x y : A) (l : list A) : before x y l -> In x l /\ In y l.
Proof.
  intros (l1 & l2 & l3 & ->). split.
  - apply in_or_app; right; now left.
  - apply in_or_app; right; right. apply in_or_app; right; now left.
Qed.

Lemma before_cons_inv (x y z : A) (l : list A) :
  before x y (z :: l) -> (x = z /\ In y l) \/ before x y l.
Proof.
  intros (l1 & l2 & l3 & H). destruct l1 as [|z' l1]; simpl in H.
  - inversion H; subst. left. split; [reflexivity|].
    apply in_or_app; right; now left.
  - inversion H; subst. right. now exists l1, l2, l3.
Qed.

(** Two distinct members of a list come in one order or the other. *)
Lemma before_total (x y : A) (l : list A) :
  In x l -> In y l -> x <> y -> before x y l \/ before y x l.
Proof.
  induction l as [|z l IH]; intros Hx Hy Hne; [contradiction|].
  destruct Hx as [->|Hx], Hy as [->|Hy].
  - congruence.
  - left. now apply before_cons_head.
  - right. now apply before_cons_head.
  - destruct (IH Hx Hy Hne); [left | right]; now apply before_cons.
Qed.

Lemma before_sorted (R : A -> A -> Prop) (x y : A) (l : list A) :
  StronglySorted R l -> before x y l -> R x y.
Proof.
  induction 1 as [|z l Hl IH Hz]; intros Hb.
  - destruct Hb as (l1 & l2 & l3 & H). destruct l1; discriminate.
  - apply before_cons_inv in Hb. destruct Hb as [[-> Hy]|Hb]; [|auto].
    rewrite Forall_forall in Hz. auto.
Qed.

Lemma before_perm_In (x y : A) (l l' : list A) :
  Permutation l l' -> before x y l -> In x l' /\ In y l'.
Proof.
  intros Hp Hb. apply before_In in Hb. destruct Hb.
  split; eapply Permutation_in; eauto.
Qed.
End Before.

(** *** [compareBy] is a total preorder *)

Section CompareBy.
Variable w : ascii -> Z.

Lemma compareBy_range (a b : string) :
  compareBy w a b = -1 \/ compareBy w a b = 0 \/ compareBy w a b = 1.
Proof.
  revert b; induction a as [|x a IH]; intros [|y b]; simpl; auto.
  destruct (w x <? w y); auto. destruct (w y <? w x); auto.
Qed.

Lemma compareBy_antisym (a b : string) :
  compareBy w b a = - compareBy w a b.
Proof.
  revert b; induction a as [|x a IH]; intros [|y b]; simpl; auto.
  destruct (w x <? w y) eqn:E1, (w y <? w x) eqn:E2; auto; lia.
Qed.

Lemma compareBy_eq_trans (a b c : string) :
  compareBy w a b = 0 -> compareBy w b c = compareBy w a c.
Proof.
  revert b c; induction a as [|x a IH]; intros [|y b] [|z c]; simpl;
    intros H; try discriminate; auto.
  destruct (w x <? w y) eqn:E1; [discriminate|].
  destruct (w y <? w x) eqn:E2; [discriminate|].
  replace (w x) with (w y) by lia. now rewrite (IH b c H).
Qed.

Lemma compareBy_lt_trans (a b c : string) :
  compareBy w a b = -1 -> compareBy w b c = -1 -> compareBy w a c = -1.
Proof.
  revert b c; induction a as [|x a IH]; intros [|y b] [|z c]; simpl;
    intros H1 H2; try discriminate; auto.
  destruct (w x <? w y) eqn:E1, (w y <? w z) eqn:E2.
  - assert (E : (w x <? w z) = true) by lia. now rewrite E.
  - destruct (w z <? w y) eqn:E3; [discriminate|].
    assert (E : (w x <? w z) = true) by lia. now rewrite E.
  - destruct (w y <? w x) eqn:E3; [discriminate|].
    assert (E : (w x <? w z) = true) by lia. now rewrite E.
  - destruct (w y <? w x) eqn:E3; [discriminate|].
    destruct (w z <? w y) eqn:E4; [discriminate|].
    assert (E : (w x <? w z) = false) by lia.
    assert (E' : (w z <? w x) = false) by lia.
    rewrite E, E'. eauto.
Qed.

Lemma compareBy_le_trans (a b c : string) :
  compareBy w a b <= 0 -> compareBy w b c <= 0 -> compareBy w a c <= 0.
Proof.
  intros H1 H2.
  destruct (compareBy_range a b) as [E1|[E1|E1]]; [| |lia];
    destruct (compareBy_range b c) as [E2|[E2|E2]]; try lia.
  - rewrite (compareBy_lt_trans _ _ _ E1 E2). lia.
  - pose proof (compareBy_antisym b c) as Ha. rewrite E2 in Ha.
    pose proof (compareBy_eq_trans c b a Ha) as Hb.
    pose proof (compareBy_antisym a c). pose proof (compareBy_antisym a b).
    lia.
  - rewrite <- (compareBy_eq_trans _ _ c E1). lia.
  - rewrite <- (compareBy_eq_trans _ _ c E1). lia.
Qed.

(** With an injective weight, equal rank means equal strings. *)
Lemma compareBy_eq_inv (a b : string) :
  (forall x y, w x = w y -> x = y) -> compareBy w a b = 0 -> a = b.
Proof.
  intros Hinj. revert b; induction a as [|x a IH]; intros [|y b]; simpl;
    try discriminate; auto.
  destruct (w x <? w y) eqn:E1; [discriminate|].
  destruct (w y <? w x) eqn:E2; [discriminate|]. intros H.
  f_equal; [apply Hinj; lia | now apply IH].
Qed.
End CompareBy.

End SortFacts.

(** ** The checksum *)

Module CrcFacts.

Lemma crcShift_range (crc : Z) : 0 <= crcShift crc < 65536.
Proof.
  unfold crcShift.
  change 0xffff with (Z.ones 16). rewrite Z.land_ones by lia.
  change (2 ^ 16) with 65536. apply Z.mod_pos_bound. lia.
Qed.

Lemma crcStep_range (crc code : Z) : 0 <= crcStep crc code < 65536.
Proof. unfold crcStep. cbn [Nat.iter]. apply crcShift_range. Qed.

Lemma crcOfCodes_range (codes : list Z) : 0 <= crcOfCodes codes < 65536.
Proof.
  unfold crcOfCodes.
  assert (H : forall l acc, 0 <= acc < 65536 -> 0 <= fold_left crcStep l acc < 65536).
  { induction l as [|c l IH]; intros acc Hacc; simpl; [exact Hacc|].
    apply IH, crcStep_range. }
  apply H. lia.
Qed.

Lemma holdsFrom_spec (f : Z -> bool) (count : nat) :
  forall v, holdsFrom f count v = true ->
  forall k, v <= k < v + Z.of_nat count -> f k = true.
Proof.
  induction count as [|count IH]; intros v H k Hk; [lia|].
  simpl in H. apply andb_prop in H. destruct H as [Hv Hrest].
  destruct (Z.eq_dec k v) as [->|Hne]; [exact Hv|].
  apply (IH (v + 1) Hrest). lia.
Qed.

(** Every 16-bit value prints as four lower-case hexadecimal digits. *)
Lemma hex4_all :
  holdsFrom (fun v => fourLowerHex (formatCrc v)) (Z.to_nat 65536) 0 = true.
Proof. vm_compute. reflexivity. Qed.

Lemma hex4 (v : Z) : 0 <= v < 65536 -> fourLowerHex (formatCrc v) = true.
Proof.
  intros Hv.
  apply (holdsFrom_spec _ _ _ hex4_all v).
  rewrite Z2Nat.id; lia.
Qed.

Lemma crc16Ccitt_length (str : string) : String.length (crc16Ccitt str) = 4%nat.
Proof.
  pose proof (hex4 _ (crcOfCodes_range
                        (List.map charCode (list_ascii_of_string str)))) as H.
  unfold fourLowerHex in H.
  apply andb_prop in H. destruct H as [H _]. now apply Nat.eqb_eq in H.
Qed.

Lemma toUpperCase_length (s : string) :
  String.length (toUpperCase s) = String.length s.
Proof. induction s as [|c s IH]; simpl; [reflexivity | now rewrite IH]. Qed.

(** C5.  The checksum of ["123456789"] is the CRC-16/CCITT-FALSE check value
    0x29B1, written ["29b1"]; and the checksum of every string is written
    with exactly four characters, each a digit or a lower-case letter [a]
    to [f].  The same holds for every sequence of code units, also those
    above 255. *)
Theorem crc16Ccitt_check_value_and_format :
  crc16Ccitt "123456789" = "29b1"
  /\ (forall str : string,
        String.length (crc16Ccitt str) = 4%nat
        /\ forallb isLowerHex (list_ascii_of_string (crc16Ccitt str)) = true)
  /\ (forall codes : list Z,
        fourLowerHex (formatCrc (crcOfCodes codes)) = true).
Proof.
  split; [vm_compute; reflexivity|]. split.
  - intros str. split; [apply crc16Ccitt_length|].
    pose proof (hex4 _ (crcOfCodes_range
                          (List.map charCode (list_ascii_of_string str)))) as H.
    unfold fourLowerHex in H. apply andb_prop in H. exact (proj2 H).
  - intros codes. apply hex4, crcOfCodes_range.
Qed.

End CrcFacts.

(** ** The parser *)

Module ParserFacts.
Import StringFacts.

Lemma parseEmvFrom_S (fuel : nat) (payload : string) (i : index) (map : EmvMap) :
  parseEmvFrom (S fuel) payload i map =
  if negb (lt i (Int (strlen payload))) then Some map
  else
    let tag := slice payload i (add i (Int 2)) in
    let i := add i (Int 2) in
    if negb (testTag tag) then Some map
    else
      let len := parseInt (slice payload i (add i (Int 2))) in
      let i := add i (Int 2) in
      let value := slice payload i (add i len) in
      let i := add i len in
      let stored :=
        if isTemplateTag tag
        then option_map Composite (parseEmvFrom fuel value (Int 0) [])
        else Some (Leaf value) in
      match stored with
      | None => None
      | Some node =>
          let map := set map tag node in
          if String.eqb tag "63" then Some map
          else parseEmvFrom fuel payload i map
      end.
Proof. reflexivity. Qed.

(** On ["00-4"] the length field reads as [-4]: the value is empty and the
    cursor returns to 0, so every iteration starts where the previous one
    did. *)
Lemma parseEmvFrom_minus4 (fuel : nat) :
  forall map, parseEmvFrom fuel "00-4" (Int 0) map = None.
Proof.
  induction fuel as [|fuel IH]; intros map; [reflexivity|].
  change (parseEmvFrom (S fuel) "00-4" (Int 0) map)
    with (parseEmvFrom fuel "00-4" (Int 0) (set map "00" (Leaf ""))).
  apply IH.
Qed.

(** C8.  [parseEmv] is not total: on the payload ["00-4"] the loop never
    ends, so no amount of fuel lets the call return. *)
Theorem parseEmv_diverges_on_negative_length :
  forall fuel : nat, parseEmv fuel "00-4" = None.
Proof. intros fuel. apply parseEmvFrom_minus4. Qed.

Import ObjectFacts.

Lemma wellFormed_set (map : EmvMap) (tag : string) (node : EmvNode) :
  wellFormed map = true -> wellFormedNode tag node = true ->
  wellFormed (set map tag node) = true.
Proof.
  unfold wellFormed. rewrite !andb_true_iff. intros [Hu Hall] Hnode. split.
  - apply uniqueb_NoDup, NoDup_keys_set, uniqueb_NoDup, Hu.
  - now apply forallb_set.
Qed.

(** Whatever the parser returns is well formed at every level. *)
Lemma parseEmvFrom_wellFormed (fuel : nat) :
  forall payload i map m,
    wellFormed map = true ->
    parseEmvFrom fuel payload i map = Some m -> wellFormed m = true.
Proof.
  induction fuel as [|fuel IH]; intros payload i map m Hmap; [discriminate|].
  rewrite parseEmvFrom_S. cbv zeta.
  destruct (negb (lt i (Int (strlen payload)))); [congruence|].
  destruct (testTag (slice payload i (add i (Int 2)))) eqn:Htag;
    cbn [negb]; [|congruence].
  set (tag := slice payload i (add i (Int 2))) in *.
  set (len := parseInt _).
  set (value := slice payload _ _).
  destruct (isTemplateTag tag) eqn:Htpl.
  - destruct (parseEmvFrom fuel value (Int 0) []) as [sub|] eqn:Hsub;
      cbn [option_map]; [|discriminate].
    assert (Hnode : wellFormedNode tag (Composite sub) = true).
    { apply (IH value (Int 0) [] sub (eq_refl true)) in Hsub.
      unfold wellFormed in Hsub.
      cbn [wellFormedNode]. rewrite Htag, Htpl. exact Hsub. }
    destruct (String.eqb tag "63").
    + intros H; inversion H; subst. now apply wellFormed_set.
    + apply IH. now apply wellFormed_set.
  - assert (Hnode : wellFormedNode tag (Leaf value) = true).
    { cbn [wellFormedNode]. now rewrite Htag, Htpl. }
    destruct (String.eqb tag "63").
    + intros H; inversion H; subst. now apply wellFormed_set.
    + apply IH. now apply wellFormed_set.
Qed.

Lemma parseEmv_wellFormed (fuel : nat) (payload : string) (m : EmvMap) :
  parseEmv fuel payload = Some m -> wellFormed m = true.
Proof. apply parseEmvFrom_wellFormed. reflexivity. Qed.

Lemma wellFormedNode_typedNode (v : EmvNode) :
  forall tag, wellFormedNode tag v = true -> typedNode tag v = true.
Proof.
  induction v as [s|m IH] using EmvNode_deep_ind; intros tag H;
    cbn [wellFormedNode typedNode] in *.
  - apply andb_prop in H. tauto.
  - rewrite !andb_true_iff in H. destruct H as (_ & (Htpl & _) & Hall).
    rewrite Htpl. cbn [andb].
    rewrite forallb_forall in *. rewrite Forall_forall in IH.
    intros e He. apply IH; auto.
Qed.

(** C7.  In every tree that [parseEmv] returns, the value stored under tag 62
    or under a tag whose decimal parse lies in 26..51 is a Composite and the
    value under any other tag is a Leaf; the same holds inside every nested
    Composite ([typed]). *)
Theorem parseEmv_template_tags_hold_composites (fuel : nat) (payload : string)
    (m : EmvMap) :
  parseEmv fuel payload = Some m ->
  typed m = true
  /\ forall tag v, get m tag = Some v ->
       if isTemplateTag tag then exists sub, v = Composite sub
       else exists s, v = Leaf s.
Proof.
  intros Hparse. apply parseEmv_wellFormed in Hparse.
  unfold wellFormed in Hparse. apply andb_prop in Hparse.
  destruct Hparse as [_ Hall].
  assert (Htyped : typed m = true).
  { unfold typed. rewrite forallb_forall in *. intros e He.
    apply wellFormedNode_typedNode; auto. }
  split; [exact Htyped|].
  intros tag v Hget. apply get_In in Hget.
  unfold typed in Htyped. rewrite forallb_forall in Htyped.
  specialize (Htyped _ Hget). cbn [fst snd] in Htyped.
  destruct v as [s|sub]; cbn [typedNode] in Htyped.
  - apply negb_true_iff in Htyped. rewrite Htyped. now exists s.
  - apply andb_prop in Htyped. destruct Htyped as [-> _]. now exists sub.
Qed.

Lemma parseEmv_template_tags_hold_composites_witness :
  let m := [("00", Leaf "01"); ("62", Composite []);
            ("26", Composite [("ab", Leaf "")])] in
  typed m = true
  /\ forall tag v, get m tag = Some v ->
       if isTemplateTag tag then exists sub, v = Composite sub
       else exists s, v = Leaf s.
Proof.
  apply (parseEmv_template_tags_hold_composites 5 "0002016203---2603abc").
  reflexivity.
Defined.

(** The loop ends as soon as the cursor is not below the length. *)
Lemma parseEmvFrom_done (fuel : nat) (payload : string) (i : index) (map : EmvMap) :
  lt i (Int (strlen payload)) = false ->
  parseEmvFrom (S fuel) payload i map = Some map.
Proof. intros H. rewrite parseEmvFrom_S, H. reflexivity. Qed.

Lemma parseEmvFrom_empty (fuel : nat) (map : EmvMap) :
  parseEmvFrom (S fuel) "" (Int 0) map = Some map.
Proof. reflexivity. Qed.

Lemma parseInt_one_char (c : ascii) :
  parseInt (String c "") = NaN
  \/ exists d, 0 <= d <= 9 /\ parseInt (String c "") = Int d.
Proof.
  destruct (isDigit c) eqn:Hd.
  - right. exists (charCode c - 48).
    assert (Hr : 48 <= charCode c <= 57).
    { unfold isDigit, inRange in Hd. apply andb_prop in Hd. lia. }
    split; [lia|].
    destruct c as [[] [] [] [] [] [] [] []]; vm_compute in Hd; try discriminate;
      reflexivity.
  - left.
    destruct c as [[] [] [] [] [] [] [] []]; vm_compute in Hd; try discriminate;
      reflexivity.
Qed.

Lemma parseInt_short (s : string) :
  strlen s <= 1 ->
  parseInt s = NaN \/ exists d, 0 <= d <= 9 /\ parseInt s = Int d.
Proof.
  destruct s as [|c [|c' s]]; intros H.
  - left; reflexivity.
  - apply parseInt_one_char.
  - rewrite !strlen_String in H. pose proof (strlen_nonneg s). lia.
Qed.

(** With two or three characters left, the length field has at most one
    character and the value is empty. *)
Lemma parseEmvFrom_short_suffix (fuel : nat) (payload : string) (i : Z)
    (map : EmvMap) :
  0 <= i -> 2 <= strlen payload - i <= 3 ->
  parseEmvFrom (S (S fuel)) payload (Int i) map =
  let tag := slice payload (Int i) (Int (i + 2)) in
  if testTag tag
  then Some (set map tag (if isTemplateTag tag then Composite [] else Leaf ""))
  else Some map.
Proof.
  intros Hi Hrem. rewrite parseEmvFrom_S.
  assert (Hlt : lt (Int i) (Int (strlen payload)) = true)
    by (apply Z.ltb_lt; lia).
  rewrite Hlt. cbn [negb add]. cbv zeta.
  destruct (testTag (slice payload (Int i) (Int (i + 2)))) eqn:Htag;
    [|reflexivity].
  cbn [negb].
  assert (Hval : forall e, slice payload (Int (i + 2 + 2)) e = "")
    by (intros e; apply slice_past_end; lia).
  rewrite Hval.
  assert (Hend : lt (add (Int (i + 2 + 2))
                        (parseInt (slice payload (Int (i + 2)) (Int (i + 2 + 2)))))
                    (Int (strlen payload)) = false).
  { destruct (parseInt_short (slice payload (Int (i + 2)) (Int (i + 2 + 2))))
      as [-> | (d & Hd & ->)].
    - pose proof (length_slice_le payload (i + 2) (i + 2 + 2)). lia.
    - reflexivity.
    - apply Z.ltb_ge. lia. }
  destruct (isTemplateTag (slice payload (Int i) (Int (i + 2)))).
  - rewrite parseEmvFrom_empty. cbn [option_map].
    destruct (String.eqb _ "63"); [reflexivity|].
    now apply parseEmvFrom_done.
  - destruct (String.eqb _ "63"); [reflexivity|].
    now apply parseEmvFrom_done.
Qed.

(** C6, as the code has it.  The loop runs while the cursor is below the
    length of the payload, not while four characters remain: it stops when
    the cursor has reached the length, and when the next two characters do
    not match the tag pattern.  When two or three characters remain and the
    first two match the tag pattern, the loop body runs once more and stores
    that tag with an empty value (an empty Composite for a template tag);
    when they do not match, the loop stops and stores nothing. *)
Theorem parseEmvFrom_loop_guard (fuel : nat) (payload : string) (i : Z)
    (map : EmvMap) :
  0 <= i ->
  (strlen payload <= i ->
   parseEmvFrom (S fuel) payload (Int i) map = Some map)
  /\ (testTag (slice payload (Int i) (Int (i + 2))) = false ->
      parseEmvFrom (S fuel) payload (Int i) map = Some map)
  /\ (2 <= strlen payload - i <= 3 ->
      parseEmvFrom (S (S fuel)) payload (Int i) map =
      let tag := slice payload (Int i) (Int (i + 2)) in
      if testTag tag
      then Some (set map tag
                   (if isTemplateTag tag then Composite [] else Leaf ""))
      else Some map).
Proof.
  intros Hi. split; [|split].
  - intros Hend. apply parseEmvFrom_done. apply Z.ltb_ge. exact Hend.
  - intros Htag. rewrite parseEmvFrom_S. cbn [add]. cbv zeta.
    rewrite Htag. now destruct (negb (lt (Int i) (Int (strlen payload)))).
  - intros Hrem. now apply parseEmvFrom_short_suffix.
Qed.

Lemma parseEmvFrom_loop_guard_witness :
  parseEmvFrom 2 "0002015A" (Int 6) [("00", Leaf "01")]
  = Some [("00", Leaf "01"); ("5A", Leaf "")].
Proof.
  apply (proj2 (proj2 (parseEmvFrom_loop_guard 0 "0002015A" 6
                         [("00", Leaf "01")] ltac:(lia))));
    unfold strlen; simpl; lia.
Defined.

(** The parser does read a suffix of two or of three characters: it stores
    the tag ["5A"] found there. *)
Lemma parseEmv_reads_short_suffix :
  parseEmv 3 "0002015A" = Some [("00", Leaf "01"); ("5A", Leaf "")]
  /\ parseEmv 3 "0002015A7" = Some [("00", Leaf "01"); ("5A", Leaf "")]
  /\ parseEmvFrom 2 "0002015A" (Int 6) [("00", Leaf "01")]
     <> Some [("00", Leaf "01")].
Proof. repeat split; try reflexivity. vm_compute. discriminate. Qed.

End ParserFacts.

(** ** The builder *)

Module BuilderFacts.
Import StringFacts ObjectFacts SortFacts.

Lemma charCode_range (c : ascii) : 0 <= charCode c < 256.
Proof.
  unfold charCode. pose proof (N_ascii_bounded c) as H. lia.
Qed.

Lemma charCode_inj (x y : ascii) : charCode x = charCode y -> x = y.
Proof.
  unfold charCode. intros H.
  rewrite <- (ascii_N_embedding x), <- (ascii_N_embedding y).
  f_equal. lia.
Qed.

Ltac split_ranges :=
  unfold primaryWeight, tertiaryWeight, isDigit, isUpper, isLower, inRange in *;
  repeat match goal with
         | |- context [?a <=? ?b] => destruct (Z.leb_spec a b)
         | H : context [?a <=? ?b] |- _ => destruct (Z.leb_spec a b)
         end;
  cbn [andb orb negb] in *.

(** The classes of characters the collation distinguishes. *)
Lemma weight_cases (c : ascii) :
  (48 <= charCode c <= 57 /\ primaryWeight c = 256 + (charCode c - 48)
   /\ tertiaryWeight c = 0 /\ isDigit c || isUpper c = true)
  \/ (65 <= charCode c <= 90 /\ primaryWeight c = 266 + (charCode c - 65)
      /\ tertiaryWeight c = 1 /\ isDigit c || isUpper c = true)
  \/ (97 <= charCode c <= 122 /\ primaryWeight c = 266 + (charCode c - 97)
      /\ tertiaryWeight c = 0 /\ isDigit c || isUpper c = false)
  \/ (0 <= charCode c < 256 /\ primaryWeight c = charCode c
      /\ tertiaryWeight c = 0 /\ isDigit c || isUpper c = false).
Proof.
  pose proof (charCode_range c).
  split_ranges; try lia; auto 10.
Qed.

(** The two weights together identify the character. *)
Lemma weights_inj (x y : ascii) :
  primaryWeight x = primaryWeight y -> tertiaryWeight x = tertiaryWeight y ->
  x = y.
Proof.
  intros Hp Ht. apply charCode_inj.
  destruct (weight_cases x) as [Hx|[Hx|[Hx|Hx]]],
           (weight_cases y) as [Hy|[Hy|[Hy|Hy]]]; lia.
Qed.

Lemma compareBy_refl (w : ascii -> Z) (a : string) : compareBy w a a = 0.
Proof.
  induction a as [|x a IH]; simpl; [reflexivity|].
  now rewrite Z.ltb_irrefl.
Qed.

Lemma localeCompare_range (a b : string) :
  localeCompare a b = -1 \/ localeCompare a b = 0 \/ localeCompare a b = 1.
Proof.
  unfold localeCompare.
  destruct (compareBy_range primaryWeight a b) as [E|[E|E]]; rewrite E; simpl;
    auto. apply compareBy_range.
Qed.

Lemma localeCompare_antisym (a b : string) :
  localeCompare b a = - localeCompare a b.
Proof.
  unfold localeCompare. rewrite (compareBy_antisym primaryWeight a b).
  destruct (compareBy_range primaryWeight a b) as [E|[E|E]]; rewrite E; simpl;
    auto. apply compareBy_antisym.
Qed.

Lemma localeCompare_total (a b : string) :
  localeCompare a b <= 0 \/ localeCompare b a <= 0.
Proof. rewrite (localeCompare_antisym a b). lia. Qed.

Lemma localeCompare_trans (a b c : string) :
  localeCompare a b <= 0 -> localeCompare b c <= 0 -> localeCompare a c <= 0.
Proof.
  unfold localeCompare. intros H1 H2.
  destruct (compareBy_range primaryWeight a b) as [E1|[E1|E1]];
    rewrite E1 in H1; simpl in H1; [| |lia];
    destruct (compareBy_range primaryWeight b c) as [E2|[E2|E2]];
    rewrite E2 in H2; simpl in H2; try lia.
  - rewrite (compareBy_lt_trans _ _ _ _ E1 E2). simpl. lia.
  - assert (E : compareBy primaryWeight a c = -1).
    { pose proof (compareBy_antisym primaryWeight b c) as Ha. rewrite E2 in Ha.
      pose proof (compareBy_eq_trans primaryWeight c b a Ha) as Hb.
      pose proof (compareBy_antisym primaryWeight a c).
      pose proof (compareBy_antisym primaryWeight a b). lia. }
    rewrite E. simpl. lia.
  - rewrite <- (compareBy_eq_trans _ _ _ c E1), E2. simpl. lia.
  - rewrite <- (compareBy_eq_trans _ _ _ c E1), E2. simpl.
    now apply (compareBy_le_trans _ a b c).
Qed.

Lemma localeCompare_eq_inv (a b : string) : localeCompare a b = 0 -> a = b.
Proof.
  unfold localeCompare.
  destruct (compareBy primaryWeight a b =? 0) eqn:E; [|lia].
  apply Z.eqb_eq in E. revert b E.
  induction a as [|x a IH]; intros [|y b]; simpl; try discriminate; auto.
  destruct (primaryWeight x <? primaryWeight y) eqn:P1; [discriminate|].
  destruct (primaryWeight y <? primaryWeight x) eqn:P2; [discriminate|].
  destruct (tertiaryWeight x <? tertiaryWeight y) eqn:T1; [discriminate|].
  destruct (tertiaryWeight y <? tertiaryWeight x) eqn:T2; [discriminate|].
  intros Hp Ht. f_equal; [apply weights_inj; lia | now apply IH].
Qed.

(** On digits and upper-case letters the collation order is the byte-wise
    order. *)
Lemma compareBy_primary_bytewise (a b : string) :
  digitsAndCapitals a = true -> digitsAndCapitals b = true ->
  compareBy primaryWeight a b
  = match String.compare a b with Lt => -1 | Eq => 0 | Gt => 1 end.
Proof.
  unfold digitsAndCapitals.
  revert b; induction a as [|x a IH]; intros [|y b]; simpl; auto.
  rewrite !andb_true_iff. intros [Hx Ha] [Hy Hb].
  specialize (IH b Ha Hb).
  unfold Ascii.compare.
  pose proof (charCode_range x) as Rx. pose proof (charCode_range y) as Ry.
  destruct (N.compare_spec (N_of_ascii x) (N_of_ascii y)) as [E|E|E].
  - assert (x = y) by (apply charCode_inj; unfold charCode; lia). subst y.
    rewrite Z.ltb_irrefl. exact IH.
  - assert (C : charCode x < charCode y) by (unfold charCode; lia).
    assert (L : (primaryWeight x <? primaryWeight y) = true).
    { apply Z.ltb_lt.
      destruct (weight_cases x) as [Hx'|[Hx'|[Hx'|Hx']]],
               (weight_cases y) as [Hy'|[Hy'|[Hy'|Hy']]];
        try lia; destruct Hx' as (_ & _ & _ & Hx'), Hy' as (_ & _ & _ & Hy');
        congruence. }
    now rewrite L.
  - assert (C : charCode y < charCode x) by (unfold charCode; lia).
    assert (L' : (primaryWeight y <? primaryWeight x) = true).
    { apply Z.ltb_lt.
      destruct (weight_cases x) as [Hx'|[Hx'|[Hx'|Hx']]],
               (weight_cases y) as [Hy'|[Hy'|[Hy'|Hy']]];
        try lia; destruct Hx' as (_ & _ & _ & Hx'), Hy' as (_ & _ & _ & Hy');
        congruence. }
    assert (L : (primaryWeight x <? primaryWeight y) = false) by lia.
    now rewrite L, L'.
Qed.

Lemma localeCompare_bytewise (a b : string) :
  digitsAndCapitals a = true -> digitsAndCapitals b = true ->
  (localeCompare a b < 0 <-> String.ltb a b = true).
Proof.
  intros Ha Hb. unfold localeCompare, String.ltb.
  rewrite (compareBy_primary_bytewise a b Ha Hb).
  destruct (String.compare a b) eqn:E; simpl.
  - apply String.compare_eq_iff in E. subst b. rewrite compareBy_refl.
    split; [lia | discriminate].
  - split; [reflexivity | lia].
  - split; [lia | discriminate].
Qed.

(** *** The order of the fields *)

Lemma filter_split_perm {A : Type} (f : A -> bool) (l : list A) :
  Permutation (filter f l ++ filter (fun x => negb (f x)) l) l.
Proof.
  induction l as [|x l IH]; simpl; [reflexivity|].
  destruct (f x); simpl.
  - now constructor.
  - rewrite <- Permutation_middle. now constructor.
Qed.

Lemma filter_perm {A : Type} (f : A -> bool) (l l' : list A) :
  Permutation l l' -> Permutation (filter f l) (filter f l').
Proof.
  induction 1 as [|x l l' _ IH|x y l|l l' l'' _ IH1 _ IH2]; simpl.
  - reflexivity.
  - destruct (f x); [now constructor | exact IH].
  - destruct (f x), (f y); try reflexivity. apply perm_swap.
  - now transitivity (filter f l').
Qed.

Lemma entries_perm {V : Type} (o : object V) : Permutation (entries o) o.
Proof.
  unfold entries. rewrite sortBy_perm. apply filter_split_perm.
Qed.

Lemma sortedEntries_perm (map : EmvMap) :
  Permutation (sortedEntries map)
              (filter (fun e => negb (String.eqb (fst e) "63")) map).
Proof.
  unfold sortedEntries. rewrite sortBy_perm. apply filter_perm, entries_perm.
Qed.

Lemma StronglySorted_map {A B : Type} (f : A -> B) (R : B -> B -> Prop)
    (l : list A) :
  StronglySorted (fun x y => R (f x) (f y)) l -> StronglySorted R (List.map f l).
Proof.
  induction 1 as [|x l Hl IH Hx]; simpl; constructor; auto.
  rewrite Forall_forall in *. intros y Hy. apply in_map_iff in Hy.
  destruct Hy as (z & <- & Hz). auto.
Qed.

Lemma emittedTags_sorted (map : EmvMap) :
  StronglySorted (fun a b => localeCompare a b <= 0) (emittedTags map).
Proof.
  unfold emittedTags, sortedEntries. apply StronglySorted_map.
  apply (sortBy_sorted (fun a b : string * EmvNode => localeCompare (fst a) (fst b))).
  - intros x y. apply localeCompare_total.
  - intros x y z. apply localeCompare_trans.
Qed.

Lemma In_emittedTags (map : EmvMap) (a : string) :
  In a (emittedTags map) <-> In a (keys map) /\ a <> "63".
Proof.
  unfold emittedTags, keys. rewrite !in_map_iff. split.
  - intros ([k v] & <- & Hin).
    apply (Permutation_in _ (sortedEntries_perm map)) in Hin.
    apply filter_In in Hin. destruct Hin as [Hin Hne]. cbn [fst] in *. split.
    + now exists (k, v).
    + apply negb_true_iff, String.eqb_neq in Hne. exact Hne.
  - intros (([k v] & <- & Hin) & Hne). exists (k, v). split; [reflexivity|].
    apply (Permutation_in _ (Permutation_sym (sortedEntries_perm map))).
    apply filter_In. split; [exact Hin|]. cbn [fst] in *.
    now apply negb_true_iff, String.eqb_neq.
Qed.

Lemma fold_fields (l : list (string * string)) (acc : string) :
  fold_left (fun out e => out ++ field (fst e) (snd e)) l acc = acc ++ fields l.
Proof.
  unfold fields. revert acc; induction l as [|e l IH]; intros acc; simpl.
  - now rewrite append_nil_r.
  - rewrite IH, (IH (field (fst e) (snd e))). now rewrite append_assoc.
Qed.

Lemma fields_cons (e : string * string) (l : list (string * string)) :
  fields (e :: l) = field (fst e) (snd e) ++ fields l.
Proof. unfold fields at 1. simpl. apply fold_fields. Qed.

Lemma fields_concat (l : list (string * string)) :
  fields l = String.concat "" (List.map (fun e => field (fst e) (snd e)) l).
Proof.
  induction l as [|e l IH]; [reflexivity|].
  rewrite fields_cons, IH. destruct l as [|e' l]; simpl.
  - apply append_nil_r.
  - reflexivity.
Qed.

(** *** [buildValue] as the source writes it *)

Section EntriesMap.
Context {V W : Type} (f : V -> W).

Let g (e : string * V) : string * W := (fst e, f (snd e)).

Lemma filter_map_keys (p : string -> bool) (o : object V) :
  filter (fun e => p (fst e)) (List.map g o)
  = List.map g (filter (fun e => p (fst e)) o).
Proof.
  induction o as [|e o IH]; simpl; [reflexivity|].
  destruct (p (fst e)); simpl; now rewrite IH.
Qed.

Lemma insertBy_map_keys (c : string -> string -> Z) (e : string * V)
    (o : object V) :
  insertBy (fun a b => c (fst a) (fst b)) (g e) (List.map g o)
  = List.map g (insertBy (fun a b => c (fst a) (fst b)) e o).
Proof.
  induction o as [|e' o IH]; simpl; [reflexivity|].
  destruct (c (fst e) (fst e') <=? 0); simpl; [reflexivity | now rewrite IH].
Qed.

Lemma sortBy_map_keys (c : string -> string -> Z) (o : object V) :
  sortBy (fun a b => c (fst a) (fst b)) (List.map g o)
  = List.map g (sortBy (fun a b => c (fst a) (fst b)) o).
Proof.
  induction o as [|e o IH]; simpl; [reflexivity|].
  now rewrite IH, insertBy_map_keys.
Qed.

(** [Object.entries] looks at the keys only. *)
Lemma entries_map (o : object V) :
  entries (List.map g o) = List.map g (entries o).
Proof.
  unfold entries. rewrite map_app.
  rewrite (filter_map_keys isArrayIndex).
  rewrite (filter_map_keys (fun k => negb (isArrayIndex k))).
  now rewrite (sortBy_map_keys (fun a b => indexOf a - indexOf b)).
Qed.
End EntriesMap.

(** The loop of [buildValue]: the entries of [val] in the order of
    [Object.entries], each written as one field, with nothing after them. *)
Lemma buildValue_Composite (val : EmvMap) :
  buildValue (Composite val)
  = fields (List.map (fun e => (fst e, buildValue (snd e))) (entries val)).
Proof. cbn [buildValue]. now rewrite (entries_map buildValue). Qed.

(** C3.  [buildValue] writes the sub-tags of a Composite in the order of
    [Object.entries], not in lexicographic order.  A static payload whose
    field 62 holds the sub-tag 07 gets the reference added after it, so the
    dynamic payload carries the sub-tags in the order 07, 01; and an
    array-index key such as 10 is written before 05 although it was inserted
    after it. *)
Theorem buildValue_does_not_sort_sub_tags :
  parseEmv 4 "62070703A01" = Some [("62", Composite [("07", Leaf "A01")])]
  /\ generateDynamicQRISPayload 4 "62070703A01" (ofInt 15000) (Some "ORD-001")
     = Some ("010212" ++ "540515000" ++ "6218" ++ "0703A01" ++ "0107ORD-001"
             ++ "63043001")
  /\ buildValue (Composite [("07", Leaf "A01"); ("01", Leaf "ORD-001")])
     = "0703A01" ++ "0107ORD-001"
  /\ buildValue (Composite [("05", Leaf "A"); ("10", Leaf "B")])
     = "1001B" ++ "0501A".
Proof. repeat split; reflexivity. Qed.

(** On a host with the root collation, the tags ["a0"] and ["B0"] are
    written in the order a0, B0, although ["B0"] precedes ["a0"]
    byte-wise. *)
Lemma buildEmv_order_is_not_bytewise :
  let map := [("B0", Leaf "y"); ("a0", Leaf "x")] in
  parseEmv 3 "B001ya001x" = Some map
  /\ buildEmv map = "a001xB001y6304096D"
  /\ emittedTags map = ["a0"; "B0"]
  /\ before "a0" "B0" (emittedTags map)
  /\ String.ltb "a0" "B0" = false
  /\ String.ltb "B0" "a0" = true.
Proof.
  repeat split; try reflexivity.
  exists [], [], []. reflexivity.
Qed.

End BuilderFacts.

(** ** Reading back what the builder wrote *)

Module RoundTrip.
Import StringFacts ObjectFacts SortFacts CrcFacts ParserFacts BuilderFacts.

(** More fuel never changes a result. *)
Lemma parseEmvFrom_fuel_mono (fuel : nat) :
  forall fuel' payload i map r,
    (fuel <= fuel')%nat ->
    parseEmvFrom fuel payload i map = Some r ->
    parseEmvFrom fuel' payload i map = Some r.
Proof.
  induction fuel as [|fuel IH]; intros fuel' payload i map r Hle;
    [discriminate|].
  destruct fuel' as [|fuel']; [lia|].
  rewrite !parseEmvFrom_S. cbv zeta.
  destruct (negb (lt i (Int (strlen payload)))); [auto|].
  destruct (negb (testTag _)); [auto|].
  destruct (isTemplateTag _).
  - destruct (parseEmvFrom fuel _ (Int 0) []) as [sub|] eqn:Hsub;
      cbn [option_map]; [|discriminate].
    rewrite (IH fuel' _ _ _ _ ltac:(lia) Hsub). cbn [option_map].
    destruct (String.eqb _ "63"); [auto|]. apply IH. lia.
  - destruct (String.eqb _ "63"); [auto|]. apply IH. lia.
Qed.

Lemma slice_mid (a b c : string) (i j : Z) :
  i = strlen a -> j = i + strlen b ->
  slice (a ++ b ++ c) (Int i) (Int j) = b.
Proof.
  intros -> ->. pose proof (strlen_nonneg a). pose proof (strlen_nonneg b).
  pose proof (strlen_nonneg c).
  rewrite slice_inside by (rewrite ?strlen_append; lia).
  replace (strlen a + strlen b - strlen a) with (strlen b) by lia.
  unfold strlen. rewrite !Nat2Z.id.
  replace (String.length a) with (String.length a + 0)%nat by lia.
  rewrite substring_skip. apply substring_prefix.
Qed.

Lemma padLen_all : holdsFrom padLenReadsBack 100 0 = true.
Proof. vm_compute. reflexivity. Qed.

(** A length of at most 99 is written with two digits and read back as
    itself. *)
Lemma padLen_spec (n : Z) :
  0 <= n <= 99 -> strlen (padLen n) = 2 /\ parseInt (padLen n) = Int n.
Proof.
  intros Hn. pose proof (holdsFrom_spec _ _ _ padLen_all n ltac:(lia)) as H.
  unfold padLenReadsBack in H. apply andb_prop in H. destruct H as [H1 H2].
  apply Nat.eqb_eq in H1. split; [unfold strlen; lia|].
  destruct (parseInt (padLen n)); [discriminate|].
  apply Z.eqb_eq in H2. now subst.
Qed.

Lemma testTag_strlen (tag : string) : testTag tag = true -> strlen tag = 2.
Proof.
  destruct tag as [|a [|b [|c r]]]; simpl; try discriminate. reflexivity.
Qed.

Lemma strlen_field (tag vStr : string) :
  testTag tag = true -> 0 <= strlen vStr <= 99 ->
  strlen (field tag vStr) = 4 + strlen vStr.
Proof.
  intros Htag Hn. unfold field. rewrite !strlen_append.
  rewrite (testTag_strlen _ Htag). destruct (padLen_spec _ Hn) as [-> _]. lia.
Qed.

(** One iteration of the loop on a field the builder wrote. *)
Lemma parseEmvFrom_field (fuel : nat) (pre tag vStr suf : string) (map : EmvMap) :
  testTag tag = true -> strlen vStr <= 99 ->
  parseEmvFrom (S fuel) (pre ++ field tag vStr ++ suf) (Int (strlen pre)) map =
  match (if isTemplateTag tag
         then option_map Composite (parseEmvFrom fuel vStr (Int 0) [])
         else Some (Leaf vStr)) with
  | None => None
  | Some node =>
      if String.eqb tag "63" then Some (set map tag node)
      else parseEmvFrom fuel (pre ++ field tag vStr ++ suf)
             (Int (strlen pre + strlen (field tag vStr))) (set map tag node)
  end.
Proof.
  intros Htag Hlen. pose proof (strlen_nonneg vStr) as Hv.
  pose proof (strlen_nonneg pre) as Hp. pose proof (strlen_nonneg suf) as Hs.
  assert (Hn : 0 <= strlen vStr <= 99) by lia.
  pose proof (testTag_strlen _ Htag) as Ht.
  destruct (padLen_spec _ Hn) as [Hpl Hpi].
  pose proof (strlen_field _ _ Htag Hn) as Hf.
  set (payload := pre ++ field tag vStr ++ suf).
  assert (E1 : slice payload (Int (strlen pre)) (Int (strlen pre + 2)) = tag).
  { unfold payload, field. rewrite !append_assoc.
    apply slice_mid; [reflexivity | lia]. }
  assert (E2 : slice payload (Int (strlen pre + 2)) (Int (strlen pre + 2 + 2))
               = padLen (strlen vStr)).
  { unfold payload, field. rewrite !append_assoc.
    rewrite <- (append_assoc pre tag).
    apply slice_mid; [rewrite strlen_append; lia | lia]. }
  assert (E3 : slice payload (Int (strlen pre + 2 + 2))
                     (Int (strlen pre + 2 + 2 + strlen vStr)) = vStr).
  { unfold payload, field. rewrite !append_assoc.
    rewrite <- (append_assoc tag), <- (append_assoc pre).
    apply slice_mid; [rewrite !strlen_append; lia | lia]. }
  rewrite parseEmvFrom_S. cbv zeta. cbn [add].
  assert (Hlt : lt (Int (strlen pre)) (Int (strlen payload)) = true).
  { apply Z.ltb_lt. unfold payload. rewrite !strlen_append. lia. }
  rewrite Hlt, E1, Htag. cbn [negb]. rewrite E2, Hpi. cbn [add]. rewrite E3.
  replace (strlen pre + 2 + 2 + strlen vStr)
    with (strlen pre + strlen (field tag vStr)) by lia.
  reflexivity.
Qed.

Lemma parsesFrom_done (payload : string) (i : index) (map : EmvMap) :
  lt i (Int (strlen payload)) = false -> parsesFrom payload i map map.
Proof. intros H. exists 1%nat. now apply parseEmvFrom_done. Qed.

(** Reading one field, then the rest. *)
Lemma parsesFrom_field (pre suf : string) (e e' : string * EmvNode)
    (map r : EmvMap) :
  readable e -> readsBack e e' ->
  parsesFrom (pre ++ field (fst e) (buildValue (snd e)) ++ suf)
             (Int (strlen pre + strlen (field (fst e) (buildValue (snd e)))))
             (set map (fst e') (snd e')) r ->
  parsesFrom (pre ++ field (fst e) (buildValue (snd e)) ++ suf)
             (Int (strlen pre)) map r.
Proof.
  destruct e as [tag v], e' as [tag' v']. unfold readable, readsBack.
  cbn [fst snd].
  intros (Htag & H63 & Hlen & Htpl) (-> & Hread) (fuel1 & Hrest).
  apply String.eqb_neq in H63.
  destruct v as [s|m].
  - subst v'. exists (S fuel1). cbn [buildValue] in *.
    rewrite parseEmvFrom_field by assumption. now rewrite Htpl, H63.
  - destruct Hread as (m' & -> & fuel2 & Hsub).
    unfold serialize in Hsub. rewrite <- buildValue_Composite in Hsub.
    unfold parseEmv in Hsub.
    exists (S (Nat.max fuel1 fuel2)).
    rewrite parseEmvFrom_field by assumption. rewrite Htpl.
    rewrite (parseEmvFrom_fuel_mono fuel2 (Nat.max fuel1 fuel2) _ _ _ _
               ltac:(lia) Hsub).
    cbn [option_map]. rewrite H63.
    apply (parseEmvFrom_fuel_mono fuel1); [lia | exact Hrest].
Qed.

Lemma serialize_cons (e : string * EmvNode) (es : list (string * EmvNode)) :
  serialize (e :: es) = field (fst e) (buildValue (snd e)) ++ serialize es.
Proof. unfold serialize. cbn [List.map]. now rewrite fields_cons. Qed.

(** Reading the fields of a list of entries one after the other. *)
Lemma parsesFrom_fields (es es' : list (string * EmvNode)) :
  Forall readable es -> Forall2 readsBack es es' ->
  forall pre suf map r,
    parsesFrom (pre ++ serialize es ++ suf)
               (Int (strlen pre + strlen (serialize es))) (setAll map es') r ->
    parsesFrom (pre ++ serialize es ++ suf) (Int (strlen pre)) map r.
Proof.
  intros Hok Hread. revert Hok.
  induction Hread as [|e e' es es' He Hes IH]; intros Hok pre suf map r.
  - cbn. now rewrite Z.add_0_r.
  - inversion Hok as [|? ? Hok1 Hok2]; subst.
    rewrite serialize_cons. cbn [setAll fold_left]. fold (setAll (set map (fst e') (snd e')) es').
    set (f := field (fst e) (buildValue (snd e))).
    intros Hrest. rewrite append_assoc.
    apply (parsesFrom_field pre (serialize es ++ suf) e e' map r Hok1 He).
    fold f. specialize (IH Hok2 (pre ++ f) suf (set map (fst e') (snd e')) r).
    rewrite !strlen_append in *. rewrite !append_assoc in *.
    apply IH. rewrite <- Z.add_assoc. exact Hrest.
Qed.

(** Storing entries with fresh, distinct keys appends them. *)
Lemma setAll_fresh (es map : EmvMap) :
  NoDup (keys map ++ keys es) -> setAll map es = (map ++ es)%list.
Proof.
  revert map; induction es as [|[k v] es IH]; intros map Hnd; cbn.
  - now rewrite app_nil_r.
  - fold (setAll (set map k v) es).
    assert (Hk : ~ In k (keys map)).
    { intros Hin. apply NoDup_app_remove_r in Hnd as Hm.
      cbn in Hnd. apply NoDup_remove_2 in Hnd. apply Hnd.
      apply in_or_app. now left. }
    rewrite set_absent by exact Hk.
    rewrite IH.
    + now rewrite <- app_assoc.
    + unfold keys in *. rewrite map_app, <- app_assoc. exact Hnd.
Qed.

Lemma Forall_exists_Forall2 {A B : Type} (R : A -> B -> Prop) (l : list A) :
  Forall (fun a => exists b, R a b) l -> exists l', Forall2 R l l'.
Proof.
  induction 1 as [|a l (b & Hb) _ (l' & IH)].
  - exists []. constructor.
  - exists (b :: l'). now constructor.
Qed.

Lemma Forall2_keys (es es' : list (string * EmvNode)) :
  Forall2 sameEntry es es' -> keys es' = keys es.
Proof.
  unfold keys.
  induction 1 as [|e e' es es' [He _] _ IH]; cbn [List.map]; [reflexivity|].
  now rewrite He, IH.
Qed.

Lemma Forall2_In_l {A B : Type} (R : A -> B -> Prop) (l : list A) (l' : list B)
    (a : A) :
  Forall2 R l l' -> In a l -> exists b, In b l' /\ R a b.
Proof.
  induction 1 as [|x y l l' Hxy _ IH]; intros Hin; [contradiction|].
  destruct Hin as [->|Hin].
  - exists y. split; [now left | exact Hxy].
  - destruct (IH Hin) as (b & Hb & Hab). exists b. split; [now right | exact Hab].
Qed.

Lemma Forall2_and {A B : Type} (R S : A -> B -> Prop) (l : list A) (l' : list B) :
  Forall2 (fun a b => R a b /\ S a b) l l' -> Forall2 R l l' /\ Forall2 S l l'.
Proof. induction 1 as [|a b l l' [Hr Hs] _ [IHr IHs]]; split; now constructor. Qed.

(** Two trees are structurally equal when they have as many entries and
    every entry of the first has a structurally equal value in the second. *)
Lemma treeEqb_intro (m m' : EmvMap) :
  List.length m = List.length m' ->
  (forall e, In e m ->
     exists v', get m' (fst e) = Some v' /\ nodeEqb (snd e) v' = true) ->
  treeEqb m m' = true.
Proof.
  intros Hlen Hall. unfold treeEqb. cbn [nodeEqb].
  rewrite Hlen, Nat.eqb_refl. cbn [andb].
  apply forallb_forall. intros e He.
  destruct (Hall e He) as (v' & -> & Hv). exact Hv.
Qed.

(** What a permutation of the entries of [m] reads back as is structurally
    equal to [m]. *)
Lemma treeEqb_of_sameEntry (m es es' : EmvMap) :
  NoDup (keys m) -> Permutation es m -> Forall2 sameEntry es es' ->
  treeEqb m es' = true.
Proof.
  intros Hnd Hperm Hsame.
  pose proof (Forall2_keys _ _ Hsame) as Hkeys.
  assert (Hnd' : NoDup (keys es')).
  { rewrite Hkeys. apply (Permutation_NoDup (l := keys m)); [|exact Hnd].
    unfold keys. apply Permutation_map. now symmetry. }
  apply treeEqb_intro.
  - rewrite <- (Forall2_length Hsame). symmetry. now apply Permutation_length.
  - intros e He.
    apply (Permutation_in _ (Permutation_sym Hperm)) in He.
    destruct (Forall2_In_l _ _ _ _ Hsame He) as ([k' v'] & Hin & Hk & Hv).
    cbn [fst snd] in *. subst k'. exists v'. split; [|exact Hv].
    now apply In_get.
Qed.

Lemma readable_of (k : string) (v : EmvNode) :
  wellFormedNode k v = true -> fitsNode v = true -> k <> "63" ->
  readable (k, v).
Proof.
  intros Hwf Hfit H63. unfold readable. cbn [fst snd].
  destruct v as [s|m]; cbn [wellFormedNode fitsNode] in *;
    rewrite !andb_true_iff in *.
  - destruct Hwf as [Htag Htpl], Hfit as [Hlen _].
    apply negb_true_iff in Htpl. apply Z.leb_le in Hlen. auto.
  - destruct Hwf as (Htag & (Htpl & _) & _), Hfit as [Hlen _].
    apply Z.leb_le in Hlen. auto.
Qed.

Lemma NoDup_keys_filter {V : Type} (p : string * V -> bool) (o : object V) :
  NoDup (keys o) -> NoDup (keys (filter p o)).
Proof.
  unfold keys. induction o as [|e o IH]; cbn; intros Hnd; [constructor|].
  inversion Hnd as [|? ? Hk Hrest]; subst.
  destruct (p e); cbn; [|auto]. constructor; [|auto].
  intros Hin. apply Hk. apply in_map_iff in Hin.
  destruct Hin as (e' & He' & Hin). apply filter_In in Hin.
  apply in_map_iff. exists e'. tauto.
Qed.

(** The fields of a permutation [es] of well-formed, fitting entries [m],
    read from the start of a payload that continues with [suf]. *)
Lemma entries_read_back (m es : EmvMap) (suf : string) :
  NoDup (keys m) -> Permutation es m ->
  Forall readable m ->
  Forall (fun e => exists e', readsBack e e' /\ sameEntry e e') m ->
  exists es',
    treeEqb m es' = true
    /\ keys es' = keys es
    /\ forall r,
         parsesFrom (serialize es ++ suf) (Int (strlen (serialize es))) es' r ->
         parsesFrom (serialize es ++ suf) (Int 0) [] r.
Proof.
  intros Hnd Hperm Hok Hread.
  assert (Hok' : Forall readable es).
  { rewrite Forall_forall in *. intros e He.
    apply Hok. now apply (Permutation_in _ Hperm). }
  assert (Hread' : Forall (fun e => exists e', readsBack e e' /\ sameEntry e e') es).
  { rewrite Forall_forall in *. intros e He.
    apply Hread. now apply (Permutation_in _ Hperm). }
  apply Forall_exists_Forall2 in Hread'. destruct Hread' as (es' & H2).
  apply Forall2_and in H2. destruct H2 as [Hrb Hsame].
  exists es'. split; [now apply (treeEqb_of_sameEntry m es es')|].
  split; [now apply Forall2_keys|].
  intros r Hrest.
  pose proof (parsesFrom_fields es es' Hok' Hrb "" suf [] r) as H.
  cbn [append] in H. change (strlen "") with 0 in H. cbn [Z.add] in H.
  apply H. rewrite setAll_fresh; [exact Hrest|].
  cbn [keys List.map app]. fold (keys es').
  rewrite (Forall2_keys _ _ Hsame).
  apply (Permutation_NoDup (l := keys m)); [|exact Hnd].
  unfold keys. apply Permutation_map. now symmetry.
Qed.

(** A well-formed, fitting node reads back as a structurally equal node. *)
Lemma node_reads_back (v : EmvNode) :
  forall tag,
    wellFormedNode tag v = true -> fitsNode v = true ->
    exists v', readsBack (tag, v) (tag, v') /\ nodeEqb v v' = true.
Proof.
  induction v as [s|m IH] using EmvNode_deep_ind; intros tag Hwf Hfit.
  - exists (Leaf s). split; [now split|]. cbn. apply String.eqb_refl.
  - cbn [wellFormedNode fitsNode] in Hwf, Hfit.
    repeat rewrite andb_true_iff in Hwf. rewrite andb_true_iff in Hfit.
    destruct Hwf as (Htag & (Htpl & Huniq) & Hwf), Hfit as [Hlen Hfit].
    apply uniqueb_NoDup in Huniq.
    rewrite forallb_forall in Hwf, Hfit. rewrite Forall_forall in IH.
    assert (Hok : Forall readable m).
    { apply Forall_forall. intros [k v] He.
      specialize (Hfit _ He). specialize (Hwf _ He). cbn [fst snd] in *.
      apply andb_prop in Hfit. destruct Hfit as [H63 Hfit].
      apply negb_true_iff, String.eqb_neq in H63.
      now apply readable_of. }
    assert (Hread : Forall (fun e => exists e', readsBack e e' /\ sameEntry e e') m).
    { apply Forall_forall. intros [k v] He.
      specialize (Hfit _ He). apply andb_prop in Hfit.
      destruct (IH _ He k (Hwf _ He) (proj2 Hfit)) as (v' & Hrb & Heq).
      exists (k, v'). split; [exact Hrb | now split]. }
    destruct (entries_read_back m (entries m) "" Huniq (entries_perm m) Hok Hread)
      as (es' & Heq & _ & Hparse).
    exists (Composite es'). split; [|exact Heq].
    split; [reflexivity|]. cbn [snd]. exists es'. split; [reflexivity|].
    rewrite append_nil_r in Hparse. apply Hparse.
    apply parsesFrom_done. apply Z.ltb_irrefl.
Qed.

Lemma buildEmv_unfold (map : EmvMap) :
  buildEmv map = serialize (sortedEntries map) ++ field "63" (crcOf map).
Proof.
  unfold buildEmv, crcOf, field, payloadNoCRC, serialize.
  assert (Hlen : strlen (toUpperCase
                   (crc16Ccitt (fields (List.map (fun e => (fst e, buildValue (snd e)))
                                          (sortedEntries map)) ++ "6304"))) = 4).
  { unfold strlen. now rewrite toUpperCase_length, crc16Ccitt_length. }
  cbv zeta. rewrite Hlen. reflexivity.
Qed.

Lemma crcOf_length (map : EmvMap) : strlen (crcOf map) = 4.
Proof. unfold crcOf, strlen. now rewrite toUpperCase_length, crc16Ccitt_length. Qed.

Lemma parsesFrom_deterministic (payload : string) (i : index) (map r r' : EmvMap) :
  parsesFrom payload i map r -> parsesFrom payload i map r' -> r = r'.
Proof.
  intros (f1 & H1) (f2 & H2).
  apply (parseEmvFrom_fuel_mono f1 (Nat.max f1 f2)) in H1; [|lia].
  apply (parseEmvFrom_fuel_mono f2 (Nat.max f1 f2)) in H2; [|lia].
  congruence.
Qed.

(** What [parseEmv] returns on the output of [buildEmv] for a well-formed,
    fitting tree: the entries other than 63, and the CRC under 63. *)
Lemma buildEmv_reads_back (t : EmvMap) :
  wellFormed t = true -> fits t = true ->
  exists m',
    parsesTo (buildEmv t) m'
    /\ treeEqb (filter (fun e => negb (String.eqb (fst e) "63")) t
                ++ [("63", Leaf (crcOf t))])%list m' = true.
Proof.
  unfold wellFormed, fits. rewrite andb_true_iff.
  intros [Huniq Hwf] Hfit. apply uniqueb_NoDup in Huniq.
  rewrite forallb_forall in Hwf, Hfit.
  set (t0 := filter (fun e => negb (String.eqb (fst e) "63")) t).
  assert (Hnd : NoDup (keys t0)) by now apply NoDup_keys_filter.
  assert (Hin0 : forall e, In e t0 -> In e t /\ fst e <> "63").
  { intros e He. apply filter_In in He. destruct He as [He H63].
    apply negb_true_iff, String.eqb_neq in H63. auto. }
  assert (Hok : Forall readable t0).
  { apply Forall_forall. intros [k v] He. destruct (Hin0 _ He) as [Hin H63].
    apply readable_of; [exact (Hwf _ Hin) | exact (Hfit _ Hin) | exact H63]. }
  assert (Hread : Forall (fun e => exists e', readsBack e e' /\ sameEntry e e') t0).
  { apply Forall_forall. intros [k v] He. destruct (Hin0 _ He) as [Hin _].
    destruct (node_reads_back v k (Hwf _ Hin) (Hfit _ Hin)) as (v' & Hrb & Heq).
    exists (k, v'). split; [exact Hrb | now split]. }
  destruct (entries_read_back t0 (sortedEntries t) (field "63" (crcOf t))
              Hnd (sortedEntries_perm t) Hok Hread)
    as (es' & Heq & Hkeys & Hparse).
  assert (H63 : ~ In "63" (keys es')).
  { rewrite Hkeys. change (keys (sortedEntries t)) with (emittedTags t).
    rewrite In_emittedTags. tauto. }
  exists (es' ++ [("63", Leaf (crcOf t))])%list. split.
  - rewrite buildEmv_unfold. apply Hparse. exists 1%nat.
    pose proof (parseEmvFrom_field 0 (serialize (sortedEntries t)) "63"
                  (crcOf t) "" es' eq_refl) as Hstep.
    rewrite append_nil_r in Hstep. rewrite Hstep.
    + cbn. now rewrite set_absent.
    + rewrite crcOf_length. lia.
  - unfold treeEqb in *. cbn [nodeEqb] in *.
    rewrite andb_true_iff in *. destruct Heq as [Hlen Hall].
    apply Nat.eqb_eq in Hlen. split.
    + apply Nat.eqb_eq. rewrite !length_app. cbn. lia.
    + rewrite forallb_app. rewrite andb_true_iff. split.
      * rewrite forallb_forall in *. intros e He. specialize (Hall e He).
        destruct (get es' (fst e)) as [v'|] eqn:Hget; [|discriminate].
        assert (Hg : get (es' ++ [("63", Leaf (crcOf t))])%list (fst e) = Some v').
        { apply In_get.
          - unfold keys. rewrite map_app. cbn.
            apply (Permutation_NoDup (l := "63" :: List.map fst es')).
            + apply Permutation_cons_append.
            + constructor; [exact H63|].
              change (NoDup (keys es')). rewrite Hkeys.
              apply (Permutation_NoDup (l := keys t0)); [|exact Hnd].
              unfold keys. apply Permutation_map. symmetry.
              apply sortedEntries_perm.
          - apply in_or_app. left. now apply get_In. }
        now rewrite Hg.
      * cbn [forallb fst snd].
        assert (Hg : get (es' ++ [("63", Leaf (crcOf t))])%list "63"
                     = Some (Leaf (crcOf t))).
        { rewrite <- (set_absent es' "63" (Leaf (crcOf t)) H63).
          apply get_set_same. }
        rewrite Hg. cbn. now rewrite String.eqb_refl.
Qed.

Lemma filter_all {A : Type} (p : A -> bool) (l : list A) :
  forallb p l = true -> filter p l = l.
Proof.
  induction l as [|x l IH]; cbn; [reflexivity|].
  rewrite andb_true_iff. intros [-> Hl]. now rewrite IH.
Qed.

Lemma no63_not_in (t : EmvMap) : no63 t = true -> ~ In "63" (keys t).
Proof.
  unfold no63, keys. rewrite forallb_forall. intros H Hin.
  apply in_map_iff in Hin. destruct Hin as (e & He & Hin).
  specialize (H _ Hin). rewrite He in H. discriminate.
Qed.

(** C2, as the code has it.  For a tree in canonical order without tag 63
    that is well formed and fits the two-digit length fields,
    [parseEmv(buildEmv(t))] returns, and what it returns is structurally
    equal to [t] with the recomputed CRC stored under tag 63: the parser
    stores the CRC field before it stops. *)
Theorem parse_build_returns_tree_with_crc (t : EmvMap) :
  wellFormed t = true -> fits t = true ->
  no63 t = true -> sortedTree t = true ->
  exists m',
    parsesTo (buildEmv t) m'
    /\ treeEqb (set t "63" (Leaf (crcOf t))) m' = true.
Proof.
  intros Hwf Hfit H63 _.
  destruct (buildEmv_reads_back t Hwf Hfit) as (m' & Hparse & Heq).
  exists m'. split; [exact Hparse|].
  rewrite (filter_all _ t H63) in Heq.
  rewrite set_absent by now apply no63_not_in. exact Heq.
Qed.

Lemma parse_build_returns_tree_with_crc_witness :
  let t := [("00", Leaf "01");
            ("26", Composite [("00", Leaf "ID.CO.QRIS"); ("01", Leaf "936")]);
            ("52", Leaf "5812")] in
  exists m',
    parsesTo (buildEmv t) m'
    /\ treeEqb (set t "63" (Leaf (crcOf t))) m' = true.
Proof.
  apply (parse_build_returns_tree_with_crc
           [("00", Leaf "01");
            ("26", Composite [("00", Leaf "ID.CO.QRIS"); ("01", Leaf "936")]);
            ("52", Leaf "5812")]); reflexivity.
Defined.

(** The tree with the single entry 00 is in canonical order and has no tag
    63, yet what [parseEmv] returns on its serialization has a second entry,
    the CRC under tag 63, and is not structurally equal to it. *)
Lemma parse_build_adds_crc_entry :
  let t := [("00", Leaf "01")] in
  sortedTree t = true /\ no63 t = true
  /\ buildEmv t = "0002016304AAE6"
  /\ parseEmv 2 (buildEmv t) = Some [("00", Leaf "01"); ("63", Leaf "AAE6")]
  /\ forall m', parsesTo (buildEmv t) m' -> treeEqb t m' = false.
Proof.
  cbv zeta. repeat split; try reflexivity.
  intros m' Hparse.
  assert (H : parsesTo (buildEmv [("00", Leaf "01")])
                       [("00", Leaf "01"); ("63", Leaf "AAE6")])
    by (exists 2%nat; reflexivity).
  rewrite (parsesFrom_deterministic _ _ _ _ _ Hparse H). reflexivity.
Qed.

(** Why the tree has to fit and to be well formed: a value of 100 characters
    gets the three-character length ["100"], which is read back as the
    length 10; and a Leaf under the template tag 62 is read back as a
    Composite. *)
Lemma unfit_trees_do_not_read_back :
  parseEmv 3 (buildEmv [("00", Leaf (repeatChar "A" 100))])
  = Some [("00", Leaf ("0" ++ repeatChar "A" 9)); ("AA", Leaf "")]
  /\ parseEmv 3 (buildEmv [("62", Leaf "ab")])
     = Some [("62", Composite [("ab", Leaf "")]); ("63", Leaf "D1EA")].
Proof. split; vm_compute; reflexivity. Qed.

End RoundTrip.

(** ** The dynamic payload *)

Module DynamicFacts.
Import StringFacts ObjectFacts SortFacts CrcFacts ParserFacts BuilderFacts.
Import RoundTrip.

Lemma serialize_app (l1 l2 : list (string * EmvNode)) :
  serialize (l1 ++ l2) = serialize l1 ++ serialize l2.
Proof.
  induction l1 as [|e l1 IH]; [reflexivity|].
  cbn [app]. rewrite !serialize_cons, IH. now rewrite append_assoc.
Qed.

(** Every entry with a tag other than 63 has its field in the output. *)
Lemma buildEmv_contains_field (t : EmvMap) (k : string) (v : EmvNode) :
  get t k = Some v -> k <> "63" ->
  contains (buildEmv t) (field k (buildValue v)).
Proof.
  intros Hget H63. apply get_In in Hget.
  assert (Hin : In (k, v) (sortedEntries t)).
  { apply (Permutation_in _ (Permutation_sym (sortedEntries_perm t))).
    apply filter_In. split; [exact Hget|]. cbn [fst].
    now apply negb_true_iff, String.eqb_neq. }
  apply in_split in Hin. destruct Hin as (l1 & l2 & Hsplit).
  rewrite buildEmv_unfold, Hsplit, serialize_app, serialize_cons.
  exists (serialize l1), (serialize l2 ++ field "63" (crcOf t)).
  cbn [fst snd]. now rewrite !append_assoc.
Qed.

(** The output ends with the checksum of everything before it. *)
Lemma buildEmv_crc (t : EmvMap) :
  exists body crc,
    buildEmv t = body ++ crc
    /\ String.length crc = 4%nat
    /\ (exists b, body = b ++ "6304")
    /\ toUpperCase (crc16Ccitt body) = crc.
Proof.
  exists (payloadNoCRC t ++ "6304"), (crcOf t). repeat split.
  - unfold buildEmv, crcOf. cbv zeta. now rewrite !append_assoc.
  - pose proof (crcOf_length t) as H. unfold strlen in H. lia.
  - now exists (payloadNoCRC t).
Qed.

Section Tree.
Variables (emv : EmvMap) (amount : float64) (reference : option string).

Let tree : EmvMap := dynamicTree emv amount reference.

Let addl : EmvMap :=
match reference with
| Some r => if String.eqb r "" then additionalData emv
            else set (additionalData emv) "01" (Leaf r)
| None => additionalData emv
end.

Lemma dynamicTree_unfold :
tree = set (set (set emv "01" (Leaf "12"))
                "54" (Leaf (stripDot00 (toFixed amount 2))))
           "62" (Composite addl).
Proof.
unfold tree, addl, dynamicTree, additionalData. cbv zeta.
rewrite !get_set_other by discriminate. reflexivity.
Qed.

Lemma dynamicTree_01 : get tree "01" = Some (Leaf "12").
Proof.
rewrite dynamicTree_unfold, !get_set_other by discriminate.
apply get_set_same.
Qed.

Lemma dynamicTree_54 :
get tree "54" = Some (Leaf (stripDot00 (toFixed amount 2))).
Proof.
rewrite dynamicTree_unfold, get_set_other by discriminate.
apply get_set_same.
Qed.

Lemma dynamicTree_62 : get tree "62" = Some (Composite addl).
Proof. rewrite dynamicTree_unfold. apply get_set_same. Qed.

Lemma additionalData_wellFormed :
wellFormed emv = true -> wellFormed (additionalData emv) = true.
Proof.
unfold additionalData. intros Hwf.
destruct (get emv "62") as [[s|m]|] eqn:Hget; try reflexivity.
apply get_In in Hget. unfold wellFormed in Hwf.
apply andb_prop in Hwf. destruct Hwf as [_ Hall].
rewrite forallb_forall in Hall. specialize (Hall _ Hget).
cbn [fst snd wellFormedNode] in Hall.
repeat rewrite andb_true_iff in Hall. unfold wellFormed, keys.
rewrite andb_true_iff. tauto.
Qed.

Lemma dynamicTree_wellFormed :
wellFormed emv = true -> wellFormed tree = true.
Proof.
intros Hwf. rewrite dynamicTree_unfold.
assert (Haddl : wellFormed addl = true).
{ unfold addl. pose proof (additionalData_wellFormed Hwf) as H.
  destruct reference as [r|]; [|exact H].
  destruct (String.eqb r ""); [exact H|].
  now apply wellFormed_set. }
repeat apply wellFormed_set; try exact Hwf; try reflexivity.
cbn [wellFormedNode]. unfold wellFormed, keys in Haddl.
apply andb_prop in Haddl. destruct Haddl as [H1 H2]. now rewrite H1, H2.
Qed.
End Tree.

Lemma treeEqb_get (m m' : EmvMap) (k : string) (v : EmvNode) :
  treeEqb m m' = true -> In (k, v) m ->
  exists v', get m' k = Some v' /\ nodeEqb v v' = true.
Proof.
  unfold treeEqb. cbn [nodeEqb]. rewrite andb_true_iff. intros [_ Hall] Hin.
  rewrite forallb_forall in Hall. specialize (Hall _ Hin). cbn [fst snd] in Hall.
  destruct (get m' k) as [v'|]; [|discriminate]. now exists v'.
Qed.

Lemma nodeEqb_Leaf (s : string) (v' : EmvNode) :
  nodeEqb (Leaf s) v' = true -> v' = Leaf s.
Proof.
  destruct v' as [s'|m']; cbn; [|discriminate].
  intros H. apply String.eqb_eq in H. now subst.
Qed.

Lemma nodeEqb_Composite (m : EmvMap) (v' : EmvNode) :
  nodeEqb (Composite m) v' = true ->
  exists m', v' = Composite m' /\ treeEqb m m' = true.
Proof.
  destruct v' as [s'|m']; [discriminate|]. intros H. now exists m'.
Qed.

(** What the parser returns on a dynamic payload whose tree fits the length
    fields: tag 01, tag 54 and the additional data as the transform set
    them. *)
Lemma dynamicTree_reads_back (emv : EmvMap) (amount : float64)
    (reference : option string) :
  wellFormed emv = true ->
  fits (dynamicTree emv amount reference) = true ->
  exists m',
    parsesTo (buildEmv (dynamicTree emv amount reference)) m'
    /\ get m' "01" = Some (Leaf "12")
    /\ get m' "54" = Some (Leaf (stripDot00 (toFixed amount 2)))
    /\ exists addl sub,
         get (dynamicTree emv amount reference) "62" = Some (Composite addl)
         /\ get m' "62" = Some (Composite sub)
         /\ treeEqb addl sub = true.
Proof.
  intros Hwf Hfit.
  pose proof (dynamicTree_wellFormed emv amount reference Hwf) as Hwf'.
  destruct (buildEmv_reads_back _ Hwf' Hfit) as (m' & Hparse & Heq).
  exists m'. split; [exact Hparse|].
  assert (Hread : forall k v,
             get (dynamicTree emv amount reference) k = Some v -> k <> "63" ->
             exists v', get m' k = Some v' /\ nodeEqb v v' = true).
  { intros k v Hget H63. apply (treeEqb_get _ _ k v Heq).
    apply in_or_app. left. apply filter_In. split; [now apply get_In|].
    cbn [fst]. now apply negb_true_iff, String.eqb_neq. }
  split; [|split].
  - destruct (Hread _ _ (dynamicTree_01 emv amount reference))
      as (v' & Hget & Hv); [discriminate|].
    apply nodeEqb_Leaf in Hv. now subst.
  - destruct (Hread _ _ (dynamicTree_54 emv amount reference))
      as (v' & Hget & Hv); [discriminate|].
    apply nodeEqb_Leaf in Hv. now subst.
  - pose proof (dynamicTree_62 emv amount reference) as H62. cbv zeta in H62.
    destruct (Hread _ _ H62) as (v' & Hget & Hv); [discriminate|].
    apply nodeEqb_Composite in Hv. destruct Hv as (sub & -> & Hsub).
    eexists _, sub. split; [exact H62|]. split; [exact Hget | exact Hsub].
Qed.

Lemma generateDynamicQRISPayload_unfold (fuel : nat) (basePayload : string)
    (emv : EmvMap) (amount : float64) (reference : option string) :
  parseEmv fuel basePayload = Some emv ->
  generateDynamicQRISPayload fuel basePayload amount reference
  = Some (buildEmv (dynamicTree emv amount reference)).
Proof. intros H. unfold generateDynamicQRISPayload. now rewrite H. Qed.

(** C1, as the code has it.  When [parseEmv] returns on the base payload and
    the updated tree fits the length fields (every serialized value has at
    most 99 characters and no Composite holds a tag 63), the payload made for
    the amount 15000 and the reference ["ORD-001"] parses to a tree with
    ["12"] under 01, ["15000"] under 54 and a Composite under 62 whose
    sub-tag 01 is ["ORD-001"]; and the payload ends with four characters that
    are the upper-cased [crc16Ccitt] of everything before them, which ends
    with ["6304"]. *)
Theorem dynamic_payload_reads_back (fuel : nat) (basePayload : string)
    (emv : EmvMap) :
  parseEmv fuel basePayload = Some emv ->
  fits (dynamicTree emv (ofInt 15000) (Some "ORD-001")) = true ->
  exists out,
    generateDynamicQRISPayload fuel basePayload (ofInt 15000) (Some "ORD-001")
    = Some out
    /\ (exists m' sub,
          parsesTo out m'
          /\ get m' "01" = Some (Leaf "12")
          /\ get m' "54" = Some (Leaf "15000")
          /\ get m' "62" = Some (Composite sub)
          /\ get sub "01" = Some (Leaf "ORD-001"))
    /\ (exists body crc,
          out = body ++ crc
          /\ String.length crc = 4%nat
          /\ (exists b, body = b ++ "6304")
          /\ toUpperCase (crc16Ccitt body) = crc).
Proof.
  intros Hparse Hfit.
  exists (buildEmv (dynamicTree emv (ofInt 15000) (Some "ORD-001"))).
  split; [now apply generateDynamicQRISPayload_unfold|].
  split; [|apply buildEmv_crc].
  pose proof (parseEmv_wellFormed _ _ _ Hparse) as Hwf.
  destruct (dynamicTree_reads_back emv _ _ Hwf Hfit)
    as (m' & Hm' & H01 & H54 & addl & sub & Haddl & H62 & Heq).
  exists m', sub. repeat split; try assumption.
  rewrite dynamicTree_62 in Haddl. cbv zeta in Haddl.
  inversion Haddl as [Ha]. clear Haddl.
  change (String.eqb "ORD-001" "") with false in Ha. cbv iota in Ha.
  assert (Hin : In ("01", Leaf "ORD-001") addl).
  { rewrite <- Ha. apply get_In, get_set_same. }
  destruct (treeEqb_get _ _ _ _ Heq Hin) as (v' & Hget & Hv).
  apply nodeEqb_Leaf in Hv. now subst.
Qed.

Lemma dynamic_payload_reads_back_witness :
  exists out,
    generateDynamicQRISPayload 9 samplePayload (ofInt 15000) (Some "ORD-001")
    = Some out
    /\ (exists m' sub,
          parsesTo out m'
          /\ get m' "01" = Some (Leaf "12")
          /\ get m' "54" = Some (Leaf "15000")
          /\ get m' "62" = Some (Composite sub)
          /\ get sub "01" = Some (Leaf "ORD-001"))
    /\ (exists body crc,
          out = body ++ crc
          /\ String.length crc = 4%nat
          /\ (exists b, body = b ++ "6304")
          /\ toUpperCase (crc16Ccitt body) = crc).
Proof.
  apply (dynamic_payload_reads_back 9 samplePayload
           [("00", Leaf "01"); ("01", Leaf "11");
            ("26", Composite [("00", Leaf "ID.CO.QRIS"); ("01", Leaf "936")]);
            ("52", Leaf "5812"); ("53", Leaf "360"); ("58", Leaf "ID");
            ("63", Leaf "ABCD")]); reflexivity.
Defined.

(** A base payload whose field 62 holds a sub-tag 63: the reference is
    written after that sub-tag, where the parser has already stopped, so the
    dynamic payload parses to a tree whose tag 62 has no sub-tag 01.  And on
    the base payload ["00-4"] the transform never returns. *)
Lemma dynamic_payload_loses_reference :
  let out := "010212" ++ "540515000" ++ "6217" ++ "6302AB" ++ "0107ORD-001"
             ++ "63049393" in
  generateDynamicQRISPayload 3 "62066302AB" (ofInt 15000) (Some "ORD-001")
  = Some out
  /\ parseEmv 5 out
     = Some [("01", Leaf "12"); ("54", Leaf "15000");
             ("62", Composite [("63", Leaf "AB")]); ("63", Leaf "9393")]
  /\ (forall m' sub,
        parsesTo out m' -> get m' "62" = Some (Composite sub) ->
        get sub "01" = None)
  /\ (forall fuel,
        generateDynamicQRISPayload fuel "00-4" (ofInt 15000) (Some "ORD-001")
        = None).
Proof.
  cbv zeta. split; [reflexivity|]. split; [reflexivity|]. split.
  - intros m' sub Hparse H62.
    assert (H : parsesTo ("010212" ++ "540515000" ++ "6217" ++ "6302AB"
                          ++ "0107ORD-001" ++ "63049393")
                  [("01", Leaf "12"); ("54", Leaf "15000");
                   ("62", Composite [("63", Leaf "AB")]); ("63", Leaf "9393")])
      by (exists 5%nat; reflexivity).
    rewrite (parsesFrom_deterministic _ _ _ _ _ Hparse H) in H62.
    cbn in H62. inversion H62. reflexivity.
  - intros fuel. unfold generateDynamicQRISPayload, parseEmv.
    now rewrite parseEmvFrom_minus4.
Qed.

Lemma length_repeatChar (c : ascii) (n : nat) :
  String.length (repeatChar c n) = n.
Proof. induction n as [|n IH]; simpl; [reflexivity | now rewrite IH]. Qed.

Lemma length_padStart0 (w : nat) (s : string) :
  (w <= String.length (padStart0 w s))%nat.
Proof.
  unfold padStart0. rewrite length_append, length_repeatChar. lia.
Qed.

Lemma digitChar_isDigit (d : Z) : 0 <= d < 10 -> isDigit (digitChar d) = true.
Proof.
  intros Hd.
  assert (H : holdsFrom (fun d => isDigit (digitChar d)) 10 0 = true)
    by (vm_compute; reflexivity).
  apply (holdsFrom_spec _ _ _ H d). lia.
Qed.

Lemma toDigits_allDigits (fuel : nat) :
  forall n acc,
    allDigits acc = true -> allDigits (toDigits fuel 10 n acc) = true.
Proof.
  induction fuel as [|fuel IH]; intros n acc Hacc; cbn [toDigits]; [exact Hacc|].
  assert (Hstep : allDigits (String (digitChar (n mod 10)) acc) = true).
  { unfold allDigits in *. cbn [list_ascii_of_string forallb].
    rewrite Hacc, digitChar_isDigit; [reflexivity|].
    apply Z.mod_pos_bound. lia. }
  destruct (n / 10 =? 0); [exact Hstep | now apply IH].
Qed.

Lemma allDigits_append (a b : string) :
  allDigits (a ++ b) = allDigits a && allDigits b.
Proof.
  unfold allDigits. induction a as [|c a IH]; cbn; [reflexivity|].
  now rewrite IH, andb_assoc.
Qed.

Lemma allDigits_repeat0 (n : nat) : allDigits (repeatChar "0" n) = true.
Proof. induction n as [|n IH]; [reflexivity|]. exact IH. Qed.

Lemma allDigits_substring (s : string) :
  allDigits s = true -> forall n m, allDigits (substring n m s) = true.
Proof.
  unfold allDigits. induction s as [|c s IH]; intros Hs n m.
  - destruct n, m; reflexivity.
  - cbn in Hs. apply andb_prop in Hs. destruct Hs as [Hc Hs].
    destruct n as [|n]; cbn [substring].
    + destruct m as [|m]; [reflexivity|]. cbn. now rewrite Hc, (IH Hs 0%nat m).
    + now apply IH.
Qed.

(** In the fixed-point range [toFixed(2)] ends with a point and two
    digits. *)
Lemma toFixed_two_digits (x : float64) :
  fixedPointRange x = true ->
  exists whole frac,
    toFixed x 2 = whole ++ "." ++ frac
    /\ String.length frac = 2%nat /\ allDigits frac = true.
Proof.
  destruct x as [| |neg m e]; try discriminate. cbn [fixedPointRange toFixed].
  intros Hrange. cbv zeta.
  assert (Hbig : (10 ^ 21 * (if e <? 0 then 2 ^ (- e) else 1)
                  <=? (if e <? 0 then Z.of_N m else Z.of_N m * 2 ^ e)) = false).
  { destruct (e <? 0); apply Z.leb_gt; apply Z.ltb_lt in Hrange; lia. }
  rewrite Hbig.
  match goal with |- context [padStart0 3 ?d] => set (digits := padStart0 3 d) end.
  pose proof (length_padStart0 3 (toStringRadix 10
                ((2 * (if e <? 0 then Z.of_N m else Z.of_N m * 2 ^ e)
                  * 10 ^ Z.of_nat 2 + (if e <? 0 then 2 ^ (- e) else 1))
                 / (2 * (if e <? 0 then 2 ^ (- e) else 1))))) as Hk.
  fold digits in Hk. cbn [Nat.eqb].
  assert (Hdigits : allDigits digits = true).
  { unfold digits, padStart0. rewrite allDigits_append, allDigits_repeat0.
    unfold toStringRadix. now apply toDigits_allDigits. }
  exists ((if neg && negb (Z.of_N m =? 0) then "-" else "")
          ++ substring 0 (String.length digits - 2) digits),
         (substring (String.length digits - 2) 2 digits).
  split; [now rewrite append_assoc|]. split.
  - rewrite length_substring. lia.
  - now apply allDigits_substring.
Qed.

(** Only the two fractional digits [00] are removed, with their point. *)
Lemma stripDot00_spec (whole frac : string) :
  String.length frac = 2%nat ->
  stripDot00 (whole ++ "." ++ frac)
  = if String.eqb frac "00" then whole else whole ++ "." ++ frac.
Proof.
  intros Hfrac. unfold stripDot00, endsWith.
  rewrite length_append. cbn [String.length append]. rewrite Hfrac.
  replace (String.length whole + 3 - 3)%nat with (String.length whole + 0)%nat
    by lia.
  assert (Hle : Nat.leb 3 (String.length whole + 3) = true)
    by (apply Nat.leb_le; lia).
  rewrite Hle. cbn [andb].
  rewrite substring_skip.
  assert (Hsub : substring 0 3 (String "." frac) = String "." frac).
  { replace 3%nat with (String.length (String "." frac)) at 1
      by (cbn; now rewrite Hfrac).
    apply substring_all. }
  rewrite Hsub. cbn [String.eqb]. rewrite Ascii.eqb_refl.
  destruct (String.eqb frac "00"); [|reflexivity].
  rewrite Nat.add_0_r. apply substring_prefix.
Qed.

(** C9.  The amount is written with two fractional digits and only a final
    [.00] is removed: 10.5 gives ["10.50"] and 15000 gives ["15000"]; in
    general a finite amount below [10^21] is written as a whole part, a point
    and two digits, and the point and the digits are dropped exactly when
    the digits are [00].  The string so made is what the transform stores
    under tag 54 and writes as the field 54 of the payload, and what the
    parser reads back under tag 54 when the updated tree fits the length
    fields. *)
Theorem dynamic_amount_two_fraction_digits (fuel : nat) (basePayload : string)
    (emv : EmvMap) (amount : float64) (reference : option string) :
  parseEmv fuel basePayload = Some emv ->
  let amountStr := stripDot00 (toFixed amount 2) in
  let tree := dynamicTree emv amount reference in
  (toFixed tenAndAHalf 2 = "10.50"
   /\ stripDot00 (toFixed tenAndAHalf 2) = "10.50"
   /\ toFixed (ofInt 15000) 2 = "15000.00"
   /\ stripDot00 (toFixed (ofInt 15000) 2) = "15000")
  /\ (fixedPointRange amount = true ->
      exists whole frac,
        toFixed amount 2 = whole ++ "." ++ frac
        /\ String.length frac = 2%nat /\ allDigits frac = true
        /\ amountStr = if String.eqb frac "00" then whole
                       else whole ++ "." ++ frac)
  /\ generateDynamicQRISPayload fuel basePayload amount reference
     = Some (buildEmv tree)
  /\ get tree "54" = Some (Leaf amountStr)
  /\ contains (buildEmv tree) (field "54" amountStr)
  /\ (fits tree = true ->
      exists m', parsesTo (buildEmv tree) m'
                 /\ get m' "54" = Some (Leaf amountStr)).
Proof.
  intros Hparse amountStr tree.
  split; [repeat split; reflexivity|].
  split.
  { intros Hrange.
    destruct (toFixed_two_digits amount Hrange)
      as (whole & frac & Hfix & Hlen & Hdig).
    exists whole, frac. split; [exact Hfix|]. split; [exact Hlen|].
    split; [exact Hdig|].
    unfold amountStr. rewrite Hfix. now apply stripDot00_spec. }
  split; [now apply generateDynamicQRISPayload_unfold|].
  split; [apply dynamicTree_54|].
  split.
  - apply (buildEmv_contains_field tree "54" (Leaf amountStr));
      [apply dynamicTree_54 | discriminate].
  - intros Hfit. pose proof (parseEmv_wellFormed _ _ _ Hparse) as Hwf.
    destruct (dynamicTree_reads_back emv amount reference Hwf Hfit)
      as (m' & Hm' & _ & H54 & _).
    now exists m'.
Qed.

Lemma dynamic_amount_two_fraction_digits_witness :
  exists out,
    generateDynamicQRISPayload 9 samplePayload tenAndAHalf None = Some out
    /\ contains out "540510.50"
    /\ exists m', parsesTo out m' /\ get m' "54" = Some (Leaf "10.50").
Proof.
  destruct (dynamic_amount_two_fraction_digits 9 samplePayload
              [("00", Leaf "01"); ("01", Leaf "11");
               ("26", Composite [("00", Leaf "ID.CO.QRIS"); ("01", Leaf "936")]);
               ("52", Leaf "5812"); ("53", Leaf "360"); ("58", Leaf "ID");
               ("63", Leaf "ABCD")] tenAndAHalf None eq_refl)
    as (_ & _ & Hout & _ & Hfield & Hread).
  eexists. split; [exact Hout|]. split; [exact Hfield|].
  apply Hread. reflexivity.
Defined.

(** C10, as the code has it.  Whenever [parseEmv] returns on the base
    payload, whatever the amount, the transform returns a payload, the tree
    that is serialized holds a Composite under tag 62 and the payload carries
    its field.  Without a reference, that Composite is the one the base
    payload had under 62, or an empty one when the base had none (or a
    Leaf), and the payload then contains ["6200"].  With a reference, every
    sub-entry of the base's Composite other than 01 is kept. *)
Theorem dynamic_payload_forces_composite_62 (fuel : nat) (basePayload : string)
    (emv : EmvMap) (amount : float64) (reference : option string) :
  parseEmv fuel basePayload = Some emv ->
  exists out addl,
    generateDynamicQRISPayload fuel basePayload amount reference = Some out
    /\ out = buildEmv (dynamicTree emv amount reference)
    /\ get (dynamicTree emv amount reference) "62" = Some (Composite addl)
    /\ contains out (field "62" (buildValue (Composite addl)))
    /\ (reference = None ->
        match get emv "62" with
        | Some (Composite sub) => addl = sub
        | _ => addl = [] /\ contains out "6200"
        end)
    /\ (forall sub k v,
          get emv "62" = Some (Composite sub) -> get sub k = Some v ->
          k <> "01" -> get addl k = Some v).
Proof.
  intros Hparse.
  pose proof (dynamicTree_62 emv amount reference) as H62. cbv zeta in H62.
  eexists (buildEmv (dynamicTree emv amount reference)), _.
  split; [unfold generateDynamicQRISPayload; now rewrite Hparse|].
  split; [reflexivity|].
  split; [exact H62|].
  assert (Hfield : forall addl,
             get (dynamicTree emv amount reference) "62" = Some (Composite addl) ->
             contains (buildEmv (dynamicTree emv amount reference))
                      (field "62" (buildValue (Composite addl)))).
  { intros addl Hget. apply (buildEmv_contains_field _ "62" _ Hget).
    discriminate. }
  split; [now apply Hfield|]. split.
  - intros ->. unfold additionalData.
    destruct (get emv "62") as [[s|sub]|] eqn:Hget; try reflexivity;
      (split; [reflexivity|]);
      apply (Hfield []); rewrite H62; unfold additionalData; now rewrite Hget.
  - intros sub k v Hget Hk Hne. unfold additionalData. rewrite Hget.
    destruct reference as [r|]; [|exact Hk].
    destruct (String.eqb r ""); [exact Hk|].
    rewrite get_set_other; [exact Hk | congruence].
Qed.

Lemma dynamic_payload_forces_composite_62_witness :
  let base := "000201" ++ "52045812" ++ "5802ID" in
  let emv := [("00", Leaf "01"); ("52", Leaf "5812"); ("58", Leaf "ID")] in
  parseEmv 4 base = Some emv
  /\ exists out addl,
       generateDynamicQRISPayload 4 base tenAndAHalf None = Some out
       /\ out = buildEmv (dynamicTree emv tenAndAHalf None)
       /\ get (dynamicTree emv tenAndAHalf None) "62" = Some (Composite addl)
       /\ contains out (field "62" (buildValue (Composite addl)))
       /\ (@None string = None ->
           match get emv "62" with
           | Some (Composite sub) => addl = sub
           | _ => addl = [] /\ contains out "6200"
           end)
       /\ (forall sub k v,
             get emv "62" = Some (Composite sub) -> get sub k = Some v ->
             k <> "01" -> get addl k = Some v).
Proof.
  split; [reflexivity|].
  apply (dynamic_payload_forces_composite_62
           4 ("000201" ++ "52045812" ++ "5802ID")
           [("00", Leaf "01"); ("52", Leaf "5812"); ("58", Leaf "ID")]
           tenAndAHalf None).
  reflexivity.
Defined.

(** Not for every base payload: on ["00-4"] the parser never returns, so
    the transform has no output at all, whatever the amount and the
    reference. *)
Lemma dynamic_payload_has_no_output_on_negative_length :
  (forall fuel : nat, parseEmv fuel "00-4" = None)
  /\ (forall (fuel : nat) (amount : float64) (reference : option string),
        generateDynamicQRISPayload fuel "00-4" amount reference = None).
Proof.
  assert (H : forall fuel : nat, parseEmv fuel "00-4" = None)
    by (intros fuel; apply parseEmvFrom_minus4).
  split; [exact H|].
  intros fuel amount reference. unfold generateDynamicQRISPayload.
  now rewrite H.
Qed.

(** Why the updated tree has to fit the length fields: a field 26 of 99
    characters that ends with a truncated sub-field is rebuilt with 101
    characters and the length ["101"]; the parser reads the length 10, lands
    inside the value, meets the characters ["6300"] there and stops.  The
    tree it returns has neither tag 54 nor tag 62. *)
Lemma dynamic_payload_overflows_length_field :
  let base := "2699" ++ "0093" ++ "AAAAA" ++ "6300" ++ repeatChar "A" 84
              ++ "ab" in
  let out := "010212" ++ "26101" ++ "0093" ++ "AAAAA" ++ "6300"
             ++ repeatChar "A" 84 ++ "ab00" ++ "540515000" ++ "6211"
             ++ "0107ORD-001" ++ "630488A9" in
  generateDynamicQRISPayload 4 base (ofInt 15000) (Some "ORD-001") = Some out
  /\ parseEmv 4 out
     = Some [("01", Leaf "12"); ("26", Composite [("10", Leaf "3AAAAA")]);
             ("63", Leaf "")].
Proof. split; vm_compute; reflexivity. Qed.

End DynamicFacts.

(** ** The canonical tree of a payload *)

Module Canonical.
Import StringFacts ObjectFacts SortFacts CrcFacts ParserFacts BuilderFacts.
Import RoundTrip DynamicFacts.

Lemma canon_Composite (m : EmvMap) :
  canon (Composite m) = Composite (canonEntries (entries m)).
Proof. cbn [canon]. unfold canonEntries. now rewrite (entries_map canon). Qed.

Lemma keys_canonEntries (es : EmvMap) : keys (canonEntries es) = keys es.
Proof.
  unfold keys, canonEntries. rewrite map_map. reflexivity.
Qed.

Lemma Forall2_map_r {A B : Type} (R : A -> B -> Prop) (g : A -> B) (l : list A) :
  Forall (fun a => R a (g a)) l -> Forall2 R l (List.map g l).
Proof. induction 1; cbn; constructor; auto. Qed.

(** Reading the fields of a permutation [es] of the entries [m], when every
    entry reads back as its canonical form. *)
Lemma canonEntries_read_back (m es : EmvMap) (suf : string) (r : EmvMap) :
  NoDup (keys m) -> Permutation es m ->
  Forall readable m ->
  Forall (fun e => readsBack e (fst e, canon (snd e))) m ->
  parsesFrom (serialize es ++ suf) (Int (strlen (serialize es)))
             (canonEntries es) r ->
  parsesFrom (serialize es ++ suf) (Int 0) [] r.
Proof.
  intros Hnd Hperm Hok Hread Hrest.
  assert (Hok' : Forall readable es).
  { rewrite Forall_forall in *. intros e He.
    apply Hok. now apply (Permutation_in _ Hperm). }
  assert (Hread' : Forall2 readsBack es (canonEntries es)).
  { apply Forall2_map_r. rewrite Forall_forall in *. intros e He.
    apply Hread. now apply (Permutation_in _ Hperm). }
  pose proof (parsesFrom_fields es (canonEntries es) Hok' Hread' "" suf [] r) as H.
  cbn [append] in H. change (strlen "") with 0 in H. cbn [Z.add] in H.
  apply H. rewrite setAll_fresh; [exact Hrest|].
  cbn [keys List.map app]. fold (keys (canonEntries es)).
  rewrite keys_canonEntries.
  apply (Permutation_NoDup (l := keys m)); [|exact Hnd].
  unfold keys. apply Permutation_map. now symmetry.
Qed.

(** The field of a well-formed, fitting node reads back as its canonical
    form. *)
Lemma canon_reads_back (v : EmvNode) :
  forall tag,
    wellFormedNode tag v = true -> fitsNode v = true ->
    readsBack (tag, v) (tag, canon v).
Proof.
  induction v as [s|m IH] using EmvNode_deep_ind; intros tag Hwf Hfit.
  - now split.
  - cbn [wellFormedNode fitsNode] in Hwf, Hfit.
    repeat rewrite andb_true_iff in Hwf. rewrite andb_true_iff in Hfit.
    destruct Hwf as (Htag & (Htpl & Huniq) & Hwf), Hfit as [Hlen Hfit].
    apply uniqueb_NoDup in Huniq.
    rewrite forallb_forall in Hwf, Hfit. rewrite Forall_forall in IH.
    assert (Hok : Forall readable m).
    { apply Forall_forall. intros [k v] He.
      specialize (Hfit _ He). specialize (Hwf _ He). cbn [fst snd] in *.
      apply andb_prop in Hfit. destruct Hfit as [H63 Hfit].
      apply negb_true_iff, String.eqb_neq in H63.
      now apply readable_of. }
    assert (Hread : Forall (fun e => readsBack e (fst e, canon (snd e))) m).
    { apply Forall_forall. intros [k v] He.
      specialize (Hfit _ He). apply andb_prop in Hfit.
      exact (IH _ He k (Hwf _ He) (proj2 Hfit)). }
    split; [reflexivity|]. cbn [snd].
    exists (canonEntries (entries m)). split; [apply canon_Composite|].
    pose proof (canonEntries_read_back m (entries m) "" (canonEntries (entries m))
                  Huniq (entries_perm m) Hok Hread) as H.
    rewrite append_nil_r in H. apply H.
    apply parsesFrom_done. apply Z.ltb_irrefl.
Qed.

Lemma wellFormed_fits_entries (t : EmvMap) :
  wellFormed t = true -> fits t = true ->
  let t0 := filter (fun e => negb (String.eqb (fst e) "63")) t in
  NoDup (keys t0) /\ Forall readable t0
  /\ Forall (fun e => readsBack e (fst e, canon (snd e))) t0.
Proof.
  intros Hwf0 Hfit t0. unfold wellFormed, fits in *.
  apply andb_prop in Hwf0. destruct Hwf0 as [Huniq Hwf].
  apply uniqueb_NoDup in Huniq.
  rewrite forallb_forall in Hwf, Hfit.
  assert (Hin0 : forall e, In e t0 -> In e t /\ fst e <> "63").
  { intros e He. apply filter_In in He. destruct He as [He H63].
    apply negb_true_iff, String.eqb_neq in H63. auto. }
  split; [now apply NoDup_keys_filter|]. split.
  - apply Forall_forall. intros [k v] He. destruct (Hin0 _ He) as [Hin H63].
    apply readable_of; [exact (Hwf _ Hin) | exact (Hfit _ Hin) | exact H63].
  - apply Forall_forall. intros [k v] He. destruct (Hin0 _ He) as [Hin _].
    exact (canon_reads_back v k (Hwf _ Hin) (Hfit _ Hin)).
Qed.

Lemma canonTree_read_back (t : EmvMap) (trailing : string) :
  wellFormed t = true -> fits t = true ->
  parsesTo (buildEmv t ++ trailing) (canonTree t).
Proof.
  intros Hwf Hfit.
  destruct (wellFormed_fits_entries t Hwf Hfit) as (Hnd & Hok & Hread).
  rewrite buildEmv_unfold, append_assoc.
  apply (canonEntries_read_back _ (sortedEntries t) _ _ Hnd
           (sortedEntries_perm t) Hok Hread).
  exists 1%nat.
  rewrite (parseEmvFrom_field 0 (serialize (sortedEntries t)) "63" (crcOf t)
             trailing (canonEntries (sortedEntries t)) eq_refl).
  - cbn. rewrite set_absent; [reflexivity|].
    rewrite keys_canonEntries. change (keys (sortedEntries t)) with (emittedTags t).
    rewrite In_emittedTags. tauto.
  - rewrite crcOf_length. lia.
Qed.

(** X1.  On the output of [buildEmv] for a well-formed, fitting tree,
    followed by any further characters, [parseEmv] returns exactly the
    canonical tree: the entries other than 63 in the order of the fields,
    nested entries in the order [buildValue] wrote them, then the CRC under
    tag 63.  Whatever follows the CRC field is not read. *)
Theorem parseEmv_of_buildEmv_is_canonTree (t : EmvMap) (trailing : string) :
  wellFormed t = true -> fits t = true ->
  parsesTo (buildEmv t ++ trailing) (canonTree t).
Proof. apply canonTree_read_back. Qed.

Lemma parseEmv_of_buildEmv_is_canonTree_witness :
  parsesTo
    (buildEmv [("52", Leaf "5812");
               ("26", Composite [("01", Leaf "936"); ("10", Leaf "X")]);
               ("00", Leaf "01")] ++ " noise")
    [("00", Leaf "01");
     ("26", Composite [("10", Leaf "X"); ("01", Leaf "936")]);
     ("52", Leaf "5812"); ("63", Leaf "5991")].
Proof.
  apply (parseEmv_of_buildEmv_is_canonTree
           [("52", Leaf "5812");
            ("26", Composite [("01", Leaf "936"); ("10", Leaf "X")]);
            ("00", Leaf "01")] " noise"); reflexivity.
Defined.

(** *** The canonical tree serializes as the tree itself *)

Lemma sortBy_sorted_id {A : Type} (cmp : A -> A -> Z) (l : list A) :
  StronglySorted (fun a b => cmp a b <= 0) l -> sortBy cmp l = l.
Proof.
  induction 1 as [|x l Hl IH Hx]; cbn [sortBy]; [reflexivity|].
  rewrite IH. destruct l as [|y r]; [reflexivity|]. cbn [insertBy].
  inversion Hx as [|? ? Hxy _]; subst.
  apply Z.leb_le in Hxy. now rewrite Hxy.
Qed.

Lemma filter_none {A : Type} (p : A -> bool) (l : list A) :
  (forall x, In x l -> p x = false) -> filter p l = [].
Proof.
  induction l as [|x l IH]; intros H; cbn; [reflexivity|].
  rewrite (H x (or_introl eq_refl)). apply IH. intros y Hy. apply H. now right.
Qed.

Lemma filter_every {A : Type} (p : A -> bool) (l : list A) :
  (forall x, In x l -> p x = true) -> filter p l = l.
Proof.
  intros H. apply filter_all. now apply forallb_forall.
Qed.

(** [Object.entries] of a list that is already in that order is the list. *)
Lemma entries_idempotent {V : Type} (o : object V) :
  entries (entries o) = entries o.
Proof.
  unfold entries at 1.
  set (A := sortBy (fun a b : string * V => indexOf (fst a) - indexOf (fst b))
                   (filter (fun e => isArrayIndex (fst e)) o)).
  set (B := filter (fun e : string * V => negb (isArrayIndex (fst e))) o).
  change (entries o) with (A ++ B)%list.
  assert (HA : forall e, In e A -> isArrayIndex (fst e) = true).
  { intros e He. unfold A in He.
    apply (Permutation_in _ (sortBy_perm _ _)) in He.
    apply filter_In in He. tauto. }
  assert (HB : forall e, In e B -> isArrayIndex (fst e) = false).
  { intros e He. unfold B in He. apply filter_In in He.
    now apply negb_true_iff. }
  rewrite !filter_app.
  rewrite (filter_every _ A HA), (filter_none _ B HB), app_nil_r.
  rewrite (filter_none _ A), (filter_every _ B); cbn [app].
  - f_equal. apply sortBy_sorted_id. unfold A. apply sortBy_sorted; intros; lia.
  - intros e He. now rewrite (HB e He).
  - intros e He. now rewrite (HA e He).
Qed.

Lemma serialize_ext (es : EmvMap) (g : EmvNode -> EmvNode) :
  Forall (fun e => buildValue (g (snd e)) = buildValue (snd e)) es ->
  serialize (List.map (fun e => (fst e, g (snd e))) es) = serialize es.
Proof.
  unfold serialize. intros H. rewrite map_map. f_equal. cbn [fst snd].
  induction H as [|e es He _ IH]; cbn [List.map]; [reflexivity|].
  now rewrite He, IH.
Qed.

(** The canonical form of a node has the same serialization. *)
Lemma buildValue_canon (v : EmvNode) : buildValue (canon v) = buildValue v.
Proof.
  induction v as [s|m IH] using EmvNode_deep_ind; [reflexivity|].
  rewrite canon_Composite, !buildValue_Composite.
  unfold canonEntries. rewrite (entries_map canon), entries_idempotent.
  apply (serialize_ext (entries m) canon).
  rewrite Forall_forall in *. intros e He. apply IH.
  now apply (Permutation_in _ (entries_perm m)).
Qed.

Lemma serialize_canonEntries (es : EmvMap) :
  serialize (canonEntries es) = serialize es.
Proof.
  apply (serialize_ext es canon). apply Forall_forall. intros e _.
  apply buildValue_canon.
Qed.

(** Two sorted lists with the same members are equal, when no two distinct
    members are ranked both ways. *)
Lemma sorted_perm_unique {A : Type} (R : A -> A -> Prop) (l : list A) :
  forall l',
    Permutation l l' -> StronglySorted R l -> StronglySorted R l' ->
    (forall a b, In a l -> In b l -> R a b -> R b a -> a = b) ->
    l = l'.
Proof.
  induction l as [|x l IH]; intros l' Hp Hs Hs' Ha.
  - apply Permutation_nil in Hp. now subst.
  - destruct l' as [|y l'].
    + symmetry in Hp. apply Permutation_nil in Hp. discriminate.
    + inversion Hs as [|? ? Hsl Hx]; subst.
      inversion Hs' as [|? ? Hsl' Hy]; subst.
      rewrite Forall_forall in Hx, Hy.
      assert (Hxy : x = y).
      { assert (Hx' : In x (y :: l')) by (apply (Permutation_in _ Hp); now left).
        assert (Hy' : In y (x :: l))
          by (apply (Permutation_in _ (Permutation_sym Hp)); now left).
        destruct Hx' as [->|Hx']; [reflexivity|].
        destruct Hy' as [->|Hy']; [reflexivity|].
        apply Ha; [now left | now right | auto | auto]. }
      subst y. f_equal. apply IH; auto.
      * now apply Permutation_cons_inv in Hp.
      * intros a b Hina Hinb. apply Ha; now right.
Qed.

Lemma NoDup_keys_In_eq {V : Type} (o : object V) (a b : string * V) :
  NoDup (keys o) -> In a o -> In b o -> fst a = fst b -> a = b.
Proof.
  intros Hnd Ha Hb Hk. destruct a as [k v], b as [k' v']. cbn in Hk. subst k'.
  pose proof (In_get o k v Hnd Ha) as H1.
  pose proof (In_get o k v' Hnd Hb) as H2. congruence.
Qed.

Lemma sortedEntries_sorted (t : EmvMap) :
  StronglySorted (fun a b => localeCompare (fst a) (fst b) <= 0)
                 (sortedEntries t).
Proof.
  unfold sortedEntries.
  apply (sortBy_sorted (fun a b : string * EmvNode => localeCompare (fst a) (fst b))).
  - intros x y. apply localeCompare_total.
  - intros x y z. apply localeCompare_trans.
Qed.

(** What [buildEmv] serializes is determined by the entries other than 63,
    whatever their order in the object. *)
Lemma sortedEntries_unique (t : EmvMap) (l : list (string * EmvNode)) :
  NoDup (keys l) ->
  Permutation l (filter (fun e => negb (String.eqb (fst e) "63")) t) ->
  StronglySorted (fun a b => localeCompare (fst a) (fst b) <= 0) l ->
  sortedEntries t = l.
Proof.
  intros Hnd Hperm Hsorted. symmetry.
  apply (sorted_perm_unique
           (fun a b : string * EmvNode => localeCompare (fst a) (fst b) <= 0)
           l (sortedEntries t)); auto.
  - rewrite Hperm. symmetry. apply sortedEntries_perm.
  - apply sortedEntries_sorted.
  - intros a b Ha Hb Hab Hba. apply (NoDup_keys_In_eq l); auto.
    apply localeCompare_eq_inv.
    rewrite (localeCompare_antisym (fst a) (fst b)) in Hba. lia.
Qed.

Lemma filter_app_63 (es : EmvMap) (crc : EmvNode) :
  ~ In "63" (keys es) ->
  filter (fun e => negb (String.eqb (fst e) "63")) (es ++ [("63", crc)]) = es.
Proof.
  intros H. rewrite filter_app. cbn. rewrite app_nil_r.
  apply filter_every. intros e He. apply negb_true_iff, String.eqb_neq.
  intros Heq. apply H. rewrite <- Heq. unfold keys. now apply in_map.
Qed.

Lemma sortedEntries_canonTree (t : EmvMap) :
  NoDup (keys t) ->
  sortedEntries (canonTree t) = canonEntries (sortedEntries t).
Proof.
  intros Hnd.
  assert (H63 : ~ In "63" (keys (canonEntries (sortedEntries t)))).
  { rewrite keys_canonEntries. change (keys (sortedEntries t)) with (emittedTags t).
    rewrite In_emittedTags. tauto. }
  apply sortedEntries_unique.
  - rewrite keys_canonEntries.
    apply (Permutation_NoDup
             (l := keys (filter (fun e => negb (String.eqb (fst e) "63")) t))).
    + unfold keys. apply Permutation_map. symmetry. apply sortedEntries_perm.
    + now apply NoDup_keys_filter.
  - unfold canonTree. now rewrite filter_app_63.
  - unfold canonEntries. apply StronglySorted_map. cbn [fst].
    apply sortedEntries_sorted.
Qed.

Lemma buildEmv_canonTree (t : EmvMap) :
  NoDup (keys t) -> buildEmv (canonTree t) = buildEmv t.
Proof.
  intros Hnd.
  assert (Hbody : payloadNoCRC (canonTree t) = payloadNoCRC t).
  { change (serialize (sortedEntries (canonTree t)) = serialize (sortedEntries t)).
    now rewrite sortedEntries_canonTree, serialize_canonEntries. }
  unfold buildEmv. cbv zeta. now rewrite Hbody.
Qed.

(** X2.  Parsing the output of [buildEmv] and building again reproduces the
    payload, checksum included: for a well-formed, fitting tree [t], every
    tree that [parseEmv] returns on [buildEmv t] is serialized by [buildEmv]
    to [buildEmv t]. *)
Theorem buildEmv_parseEmv_buildEmv (t m' : EmvMap) :
  wellFormed t = true -> fits t = true ->
  parsesTo (buildEmv t) m' ->
  buildEmv m' = buildEmv t.
Proof.
  intros Hwf Hfit Hparse.
  pose proof (canonTree_read_back t "" Hwf Hfit) as Hcanon.
  rewrite append_nil_r in Hcanon.
  rewrite (parsesFrom_deterministic _ _ _ _ _ Hparse Hcanon).
  apply buildEmv_canonTree.
  unfold wellFormed in Hwf. apply andb_prop in Hwf.
  now apply uniqueb_NoDup.
Qed.

Lemma buildEmv_parseEmv_buildEmv_witness :
  buildEmv [("00", Leaf "01");
            ("26", Composite [("10", Leaf "X"); ("01", Leaf "936")]);
            ("52", Leaf "5812"); ("63", Leaf "5991")]
  = buildEmv [("52", Leaf "5812");
              ("26", Composite [("01", Leaf "936"); ("10", Leaf "X")]);
              ("00", Leaf "01")].
Proof.
  apply (buildEmv_parseEmv_buildEmv
           [("52", Leaf "5812");
            ("26", Composite [("01", Leaf "936"); ("10", Leaf "X")]);
            ("00", Leaf "01")]); try reflexivity.
  exists 5%nat. reflexivity.
Defined.

(** X4.  [buildEmv] writes one field for each entry of the tree other than
    63, none twice and none left out, and ends the payload with ["6304"] and
    four characters, each a digit or a letter [A] to [F], that are the
    upper-cased [crc16Ccitt] of everything before them. *)
Theorem buildEmv_fields_and_trailer (t : EmvMap) :
  exists crc,
    buildEmv t = serialize (sortedEntries t) ++ "6304" ++ crc
    /\ Permutation (sortedEntries t) (filter not63 t)
    /\ fourUpperHex crc = true
    /\ crc = toUpperCase (crc16Ccitt (serialize (sortedEntries t) ++ "6304")).
Proof.
  exists (crcOf t). split; [|split; [|split]].
  - unfold buildEmv, crcOf. cbv zeta. reflexivity.
  - apply sortedEntries_perm.
  - unfold crcOf, crc16Ccitt.
    assert (H : holdsFrom (fun v => fourUpperHex (toUpperCase (formatCrc v)))
                          (Z.to_nat 65536) 0 = true)
      by (vm_compute; reflexivity).
    apply (holdsFrom_spec _ _ _ H).
    rewrite Z2Nat.id by lia. apply crcOfCodes_range.
  - reflexivity.
Qed.

End Canonical.

(** ** The dynamic payload, continued *)

Module DynamicMore.
Import StringFacts ObjectFacts SortFacts CrcFacts ParserFacts BuilderFacts.
Import RoundTrip DynamicFacts Canonical.

Lemma set_same {V : Type} (o : object V) (k : string) (v : V) :
  get o k = Some v -> set o k v = o.
Proof.
  induction o as [|[k' v'] o IH]; cbn; [discriminate|].
  destruct (String.eqb k' k) eqn:E; intros H.
  - now inversion H.
  - now rewrite IH.
Qed.

Lemma NoDup_keys_canonTree (t : EmvMap) :
  NoDup (keys t) -> NoDup (keys (canonTree t)).
Proof.
  intros Hnd. unfold canonTree, keys. rewrite map_app. cbn [List.map fst].
  apply (Permutation_NoDup (l := "63" :: List.map fst (canonEntries (sortedEntries t)))).
  - apply Permutation_cons_append.
  - change (List.map fst (canonEntries (sortedEntries t)))
      with (keys (canonEntries (sortedEntries t))).
    rewrite keys_canonEntries. change (keys (sortedEntries t)) with (emittedTags t).
    constructor.
    + rewrite In_emittedTags. tauto.
    + apply (Permutation_NoDup (l := keys (filter not63 t))).
      * unfold keys, emittedTags. apply Permutation_map. symmetry.
        apply sortedEntries_perm.
      * now apply NoDup_keys_filter.
Qed.

(** What the canonical tree holds under a tag other than 63. *)
Lemma get_canonTree (t : EmvMap) (k : string) (v : EmvNode) :
  NoDup (keys t) -> get t k = Some v -> k <> "63" ->
  get (canonTree t) k = Some (canon v).
Proof.
  intros Hnd Hget H63. apply In_get; [now apply NoDup_keys_canonTree|].
  unfold canonTree. apply in_or_app. left.
  unfold canonEntries. apply in_map_iff. exists (k, v). split; [reflexivity|].
  apply (Permutation_in _ (Permutation_sym (sortedEntries_perm t))).
  apply filter_In. split; [now apply get_In|].
  cbn [fst]. now apply negb_true_iff, String.eqb_neq.
Qed.

Lemma get_canonEntries_entries (m : EmvMap) (k : string) (v : EmvNode) :
  NoDup (keys m) -> get m k = Some v ->
  get (canonEntries (entries m)) k = Some (canon v).
Proof.
  intros Hnd Hget. apply In_get.
  - rewrite keys_canonEntries.
    apply (Permutation_NoDup (l := keys m)); [|exact Hnd].
    unfold keys. apply Permutation_map. symmetry. apply entries_perm.
  - unfold canonEntries. apply in_map_iff. exists (k, v). split; [reflexivity|].
    apply (Permutation_in _ (Permutation_sym (entries_perm m))).
    now apply get_In.
Qed.

(** The transform leaves the canonical tree of its own output as it is. *)
Lemma dynamicTree_canonTree (emv : EmvMap) (amount : float64)
    (reference : option string) :
  wellFormed emv = true ->
  dynamicTree (canonTree (dynamicTree emv amount reference)) amount reference
  = canonTree (dynamicTree emv amount reference).
Proof.
  intros Hwf.
  pose proof (dynamicTree_wellFormed emv amount reference Hwf) as Hwf'.
  set (tree := dynamicTree emv amount reference) in *.
  assert (Hnd : NoDup (keys tree)).
  { unfold wellFormed in Hwf'. apply andb_prop in Hwf'.
    now apply uniqueb_NoDup. }
  pose proof (dynamicTree_62 emv amount reference) as H62. cbv zeta in H62.
  fold tree in H62.
  match type of H62 with _ = Some (Composite ?a) => set (addl := a) in * end.
  assert (Hndaddl : NoDup (keys addl)).
  { unfold wellFormed in Hwf'. apply andb_prop in Hwf'. destruct Hwf' as [_ Hall].
    rewrite forallb_forall in Hall. specialize (Hall _ (get_In _ _ _ H62)).
    cbn [fst snd wellFormedNode] in Hall. repeat rewrite andb_true_iff in Hall.
    apply uniqueb_NoDup. tauto. }
  pose proof (get_canonTree tree "01" _ Hnd (dynamicTree_01 emv amount reference)
                ltac:(discriminate)) as C01.
  pose proof (get_canonTree tree "54" _ Hnd (dynamicTree_54 emv amount reference)
                ltac:(discriminate)) as C54.
  pose proof (get_canonTree tree "62" _ Hnd H62 ltac:(discriminate)) as C62.
  rewrite canon_Composite in C62. cbn [canon] in C01, C54.
  rewrite (dynamicTree_unfold (canonTree tree) amount reference). cbv zeta.
  rewrite (set_same _ _ _ C01), (set_same _ _ _ C54).
  unfold additionalData. rewrite C62. cbv iota beta.
  match goal with
  | |- set _ _ (Composite ?x) = _ =>
      assert (Haddl : x = canonEntries (entries addl))
  end.
  { destruct reference as [r|]; [|reflexivity].
    destruct (String.eqb r "") eqn:Er; [reflexivity|].
    apply set_same.
    change (Leaf r) with (canon (Leaf r)).
    apply get_canonEntries_entries; [exact Hndaddl|].
    unfold addl. apply get_set_same. }
  rewrite Haddl. now apply set_same.
Qed.

(** X5.  The transform reproduces its own output: when [parseEmv] returns
    on the base payload and the updated tree fits the length fields, running
    [generateDynamicQRISPayload] on the dynamic payload with the same amount
    and reference returns that same payload. *)
Theorem generateDynamicQRISPayload_idempotent (fuel : nat)
    (basePayload : string) (emv : EmvMap) (amount : float64)
    (reference : option string) (out : string) :
  parseEmv fuel basePayload = Some emv ->
  fits (dynamicTree emv amount reference) = true ->
  generateDynamicQRISPayload fuel basePayload amount reference = Some out ->
  exists fuel',
    generateDynamicQRISPayload fuel' out amount reference = Some out.
Proof.
  intros Hparse Hfit Hout.
  rewrite (generateDynamicQRISPayload_unfold _ _ _ _ _ Hparse) in Hout.
  inversion Hout as [Hout']. clear Hout.
  pose proof (parseEmv_wellFormed _ _ _ Hparse) as Hwf.
  pose proof (dynamicTree_wellFormed emv amount reference Hwf) as Hwf'.
  destruct (canonTree_read_back _ "" Hwf' Hfit) as (fuel' & Hcanon).
  rewrite append_nil_r in Hcanon.
  exists fuel'.
  rewrite (generateDynamicQRISPayload_unfold _ _ _ _ _ Hcanon).
  rewrite (dynamicTree_canonTree emv amount reference Hwf).
  f_equal. apply buildEmv_canonTree.
  unfold wellFormed in Hwf'. apply andb_prop in Hwf'. now apply uniqueb_NoDup.
Qed.

Lemma generateDynamicQRISPayload_idempotent_witness :
  exists fuel',
    generateDynamicQRISPayload fuel'
      ("00020101021226210010ID.CO.QRIS010393652045812530336054051500058"
       ++ "02ID62110107ORD-0016304EA61")
      (ofInt 15000) (Some "ORD-001")
    = Some ("00020101021226210010ID.CO.QRIS010393652045812530336054051500058"
            ++ "02ID62110107ORD-0016304EA61").
Proof.
  apply (generateDynamicQRISPayload_idempotent 9 samplePayload
           [("00", Leaf "01"); ("01", Leaf "11");
            ("26", Composite [("00", Leaf "ID.CO.QRIS"); ("01", Leaf "936")]);
            ("52", Leaf "5812"); ("53", Leaf "360"); ("58", Leaf "ID");
            ("63", Leaf "ABCD")]); reflexivity.
Defined.

(** X6.  The transform keeps the other fields: every entry of the parsed
    base payload under a tag other than 01, 54, 62 and 63 is in the updated
    tree unchanged and its field is written into the dynamic payload; when
    the updated tree fits the length fields, [parseEmv] returns on the
    dynamic payload a tree that holds the canonical form of that entry. *)
Theorem generateDynamicQRISPayload_keeps_other_fields (fuel : nat)
    (basePayload : string) (emv : EmvMap) (amount : float64)
    (reference : option string) (k : string) (v : EmvNode) :
  parseEmv fuel basePayload = Some emv ->
  get emv k = Some v ->
  k <> "01" -> k <> "54" -> k <> "62" -> k <> "63" ->
  let tree := dynamicTree emv amount reference in
  generateDynamicQRISPayload fuel basePayload amount reference
  = Some (buildEmv tree)
  /\ get tree k = Some v
  /\ contains (buildEmv tree) (field k (buildValue v))
  /\ (fits tree = true ->
      exists m', parsesTo (buildEmv tree) m' /\ get m' k = Some (canon v)).
Proof.
  intros Hparse Hget H01 H54 H62 H63 tree.
  assert (Hk : get tree k = Some v).
  { unfold tree. rewrite dynamicTree_unfold. cbv zeta.
    rewrite !get_set_other by congruence. exact Hget. }
  split; [now apply generateDynamicQRISPayload_unfold|].
  split; [exact Hk|]. split.
  - now apply buildEmv_contains_field.
  - intros Hfit. exists (canonTree tree).
    pose proof (parseEmv_wellFormed _ _ _ Hparse) as Hwf.
    pose proof (dynamicTree_wellFormed emv amount reference Hwf) as Hwf'.
    fold tree in Hwf'. split.
    + pose proof (canonTree_read_back tree "" Hwf' Hfit) as H.
      now rewrite append_nil_r in H.
    + apply get_canonTree; auto.
      unfold wellFormed in Hwf'. apply andb_prop in Hwf'.
      now apply uniqueb_NoDup.
Qed.

Lemma generateDynamicQRISPayload_keeps_other_fields_witness :
  exists m',
    parsesTo
      (buildEmv (dynamicTree
         [("00", Leaf "01"); ("01", Leaf "11");
          ("26", Composite [("00", Leaf "ID.CO.QRIS"); ("01", Leaf "936")]);
          ("52", Leaf "5812"); ("53", Leaf "360"); ("58", Leaf "ID");
          ("63", Leaf "ABCD")] tenAndAHalf None)) m'
    /\ get m' "26"
       = Some (Composite [("00", Leaf "ID.CO.QRIS"); ("01", Leaf "936")]).
Proof.
  apply (generateDynamicQRISPayload_keeps_other_fields 9 samplePayload
           [("00", Leaf "01"); ("01", Leaf "11");
            ("26", Composite [("00", Leaf "ID.CO.QRIS"); ("01", Leaf "936")]);
            ("52", Leaf "5812"); ("53", Leaf "360"); ("58", Leaf "ID");
            ("63", Leaf "ABCD")] tenAndAHalf None "26"
           (Composite [("00", Leaf "ID.CO.QRIS"); ("01", Leaf "936")]));
    try reflexivity; discriminate.
Defined.

End DynamicMore.

(** ** When the parser returns *)

Module Termination.
Import StringFacts ObjectFacts ParserFacts RoundTrip.

Lemma hasMinus_substring (s : string) :
  hasMinus s = false -> forall n m, hasMinus (substring n m s) = false.
Proof.
  unfold hasMinus. induction s as [|c s IH]; intros Hs n m.
  - destruct n, m; reflexivity.
  - cbn in Hs. apply orb_false_iff in Hs. destruct Hs as [Hc Hs].
    destruct n as [|n]; cbn [substring].
    + destruct m as [|m]; [reflexivity|]. cbn. now rewrite Hc, (IH Hs 0%nat m).
    + now apply IH.
Qed.

Lemma hasMinus_slice (s : string) (a b : index) :
  hasMinus s = false -> hasMinus (slice s a b) = false.
Proof.
  intros Hs. unfold slice.
  destruct (_ <=? _); [reflexivity | now apply hasMinus_substring].
Qed.

Lemma hasMinus_trimStart (s : string) :
  hasMinus s = false -> hasMinus (trimStart s) = false.
Proof.
  unfold hasMinus. induction s as [|c s IH]; intros Hs; [reflexivity|].
  cbn [trimStart]. destruct (isWhiteSpace c); [|exact Hs].
  cbn in Hs. apply orb_false_iff in Hs. now apply IH.
Qed.

Lemma digitsPrefix_String (acc : option Z) (c : ascii) (r : string) :
  digitsPrefix acc (String c r)
  = if isDigit c
    then digitsPrefix
           (Some (10 * match acc with Some a => a | None => 0 end
                  + (charCode c - 48))) r
    else acc.
Proof. reflexivity. Qed.

Lemma digitsPrefix_nonneg (s : string) :
  forall acc n,
    (forall a, acc = Some a -> 0 <= a) ->
    digitsPrefix acc s = Some n -> 0 <= n.
Proof.
  induction s as [|c s IH]; intros acc n Hacc.
  - cbn. intros ->. now apply Hacc.
  - rewrite digitsPrefix_String.
    destruct (isDigit c) eqn:Hd; [|intros ->; now apply Hacc].
    apply IH. intros a Ha.
    assert (Ha' : 10 * match acc with Some a1 => a1 | None => 0 end
                  + (charCode c - 48) = a) by congruence.
    clear Ha.
    unfold isDigit, inRange in Hd. apply andb_prop in Hd.
    destruct Hd as [Hlo _]. apply Z.leb_le in Hlo.
    destruct acc as [a0|]; [specialize (Hacc a0 eq_refl)|];
      cbv iota beta in Ha'; lia.
Qed.

(** Without a minus sign [parseInt] gives NaN or a number that is not
    negative. *)
Lemma parseInt_nonneg (s : string) :
  hasMinus s = false ->
  parseInt s = NaN \/ exists n, 0 <= n /\ parseInt s = Int n.
Proof.
  intros Hs. apply hasMinus_trimStart in Hs. unfold parseInt.
  destruct (trimStart s) as [|c r] eqn:Et.
  - left. reflexivity.
  - assert (Hc : Ascii.eqb "-" c = false).
    { unfold hasMinus in Hs. cbn in Hs. now apply orb_false_iff in Hs. }
    assert (Hcases :
      (let '(sign, body) :=
         match String c r with
         | String "-" r0 => (-1, r0)
         | String "+" r0 => (1, r0)
         | _ => (1, String c r)
         end in
       match digitsPrefix None body with
       | Some n => Int (sign * n)
       | None => NaN
       end)
      = match digitsPrefix None (if Ascii.eqb "+" c then r else String c r) with
        | Some n => Int n
        | None => NaN
        end).
    { destruct c as [[] [] [] [] [] [] [] []]; try discriminate Hc;
        cbn [Ascii.eqb Bool.eqb andb];
        try (destruct (digitsPrefix None r) as [n|]; [f_equal; lia|reflexivity]);
        destruct (digitsPrefix None (String _ r)) as [n|];
        try reflexivity; f_equal; lia. }
    rewrite Hcases.
    destruct (digitsPrefix None _) as [n|] eqn:Hn; [|now left].
    right. exists n. split; [|reflexivity].
    apply (digitsPrefix_nonneg (if Ascii.eqb "+" c then r else String c r)
             None n); [discriminate | exact Hn].
Qed.

Lemma length_slice_from (s : string) (a : Z) (e : index) :
  0 <= a -> strlen (slice s (Int a) e) <= Z.max 0 (strlen s - a).
Proof.
  intros Ha. pose proof (strlen_nonneg s) as Hs. unfold slice.
  set (from := relativeIndex (strlen s) (toIntegerOrInfinity (Int a))).
  set (to := relativeIndex (strlen s) (toIntegerOrInfinity e)).
  assert (Hfrom : from = Z.min a (strlen s)).
  { unfold from, relativeIndex. cbn [toIntegerOrInfinity].
    destruct (a <? 0) eqn:E; [lia | reflexivity]. }
  assert (Hto : 0 <= to <= strlen s).
  { unfold to, relativeIndex. destruct (_ <? 0) eqn:E; lia. }
  destruct (to <=? from) eqn:E.
  - change (strlen "") with 0. lia.
  - unfold strlen at 1. rewrite length_substring. unfold strlen in *. lia.
Qed.

(** With fuel above the number of characters left, the loop returns on a
    payload that has no minus sign. *)
Lemma parseEmvFrom_returns (fuel : nat) :
  forall payload i map,
    hasMinus payload = false -> 0 <= i ->
    Z.max 0 (strlen payload - i) < Z.of_nat fuel ->
    exists r, parseEmvFrom fuel payload (Int i) map = Some r.
Proof.
  induction fuel as [|fuel IH]; intros payload i map Hm Hi Hfuel; [lia|].
  rewrite parseEmvFrom_S. cbv zeta.
  destruct (lt (Int i) (Int (strlen payload))) eqn:Hlt; cbn [negb];
    [|now exists map].
  apply Z.ltb_lt in Hlt.
  destruct (testTag _); cbn [negb]; [|now exists map].
  assert (Hvalue : forall e,
             exists sub,
               parseEmvFrom fuel (slice payload (Int (i + 2 + 2)) e) (Int 0) []
               = Some sub).
  { intros e. apply IH; [now apply hasMinus_slice | lia |].
    pose proof (length_slice_from payload (i + 2 + 2) e ltac:(lia)) as Hl.
    pose proof (strlen_nonneg (slice payload (Int (i + 2 + 2)) e)). lia. }
  assert (Hnan : forall map',
             exists r, parseEmvFrom fuel payload NaN map' = Some r).
  { intros map'. exists map'.
    destruct fuel as [|fuel']; [lia|]. now apply parseEmvFrom_done. }
  assert (Hint : forall n map',
             0 <= n ->
             exists r, parseEmvFrom fuel payload (Int (i + 2 + 2 + n)) map'
                       = Some r).
  { intros n map' Hn. apply IH; [exact Hm | lia | lia]. }
  destruct (parseInt_nonneg
              (slice payload (add (Int i) (Int 2))
                     (add (add (Int i) (Int 2)) (Int 2)))
              (hasMinus_slice _ _ _ Hm)) as [-> | (n & Hn & ->)];
    cbn [add];
    (destruct (isTemplateTag _);
     [ match goal with
       | |- context [parseEmvFrom fuel (slice payload _ ?e) (Int 0) []] =>
           destruct (Hvalue e) as (sub & ->)
       end; cbn [option_map] | ];
     (destruct (String.eqb _ "63"); [eauto | auto])).
Qed.

(** X7.  On a payload without the character [-], [parseEmv] returns, after
    at most one loop iteration per character: the cursor only moves
    forward. *)
Theorem parseEmv_returns_without_minus (payload : string) :
  hasMinus payload = false ->
  exists r, parseEmv (S (String.length payload)) payload = Some r.
Proof.
  intros Hm. apply parseEmvFrom_returns; [exact Hm | lia |].
  unfold strlen. lia.
Qed.

Lemma parseEmv_returns_without_minus_witness :
  exists r, parseEmv (S (String.length "00 3abcdef62zz")) "00 3abcdef62zz"
            = Some r.
Proof.
  apply (parseEmv_returns_without_minus "00 3abcdef62zz"). reflexivity.
Defined.

(** X8.  Every tree that [parseEmv] returns is well formed at every nesting
    level: no key occurs twice in an object (a repeated tag overwrites the
    earlier entry), every key is two characters from [0-9A-Za-z], and
    Composites sit exactly under the template tags. *)
Theorem parseEmv_returns_wellFormed (fuel : nat) (payload : string)
    (m : EmvMap) :
  parseEmv fuel payload = Some m ->
  wellFormed m = true
  /\ NoDup (keys m)
  /\ forall k v, get m k = Some v -> testTag k = true.
Proof.
  intros Hparse. pose proof (parseEmv_wellFormed _ _ _ Hparse) as Hwf.
  split; [exact Hwf|]. unfold wellFormed in Hwf. apply andb_prop in Hwf.
  destruct Hwf as [Hu Hall]. split; [now apply uniqueb_NoDup|].
  intros k v Hget. apply get_In in Hget. rewrite forallb_forall in Hall.
  specialize (Hall _ Hget). cbn [fst snd] in Hall.
  destruct v; cbn [wellFormedNode] in Hall; apply andb_prop in Hall; tauto.
Qed.

Lemma parseEmv_returns_wellFormed_witness :
  let m := [("00", Leaf "zz"); ("26", Composite [("01", Leaf "B")])] in
  wellFormed m = true
  /\ NoDup (keys m)
  /\ forall k v, get m k = Some v -> testTag k = true.
Proof.
  apply (parseEmv_returns_wellFormed 5 "0002xy26100101A0101B0002zz").
  reflexivity.
Defined.

Lemma slice_tail (a b : string) (j : Z) :
  strlen a + strlen b <= j -> slice (a ++ b) (Int (strlen a)) (Int j) = b.
Proof.
  intros Hj. pose proof (strlen_nonneg a). pose proof (strlen_nonneg b).
  unfold slice, relativeIndex. cbn [toIntegerOrInfinity].
  rewrite strlen_append.
  destruct (strlen a <? 0) eqn:E1; [lia|]. destruct (j <? 0) eqn:E2; [lia|].
  rewrite (Z.min_l (strlen a)), (Z.min_r j) by lia.
  destruct (strlen a + strlen b <=? strlen a) eqn:E3.
  - symmetry. apply length_zero_inv. unfold strlen in *. lia.
  - replace (strlen a + strlen b - strlen a) with (strlen b) by lia.
    unfold strlen. rewrite !Nat2Z.id.
    replace (String.length a) with (String.length a + 0)%nat at 1 by lia.
    rewrite substring_skip. apply substring_all.
Qed.

(** X9.  A length field that announces more characters than are left is not
    an error: for a tag that is not a template tag, the loop stores the
    characters that are left as the value and ends. *)
Theorem parseEmv_stores_truncated_value (fuel : nat)
    (pre tag v : string) (n : Z) (map : EmvMap) :
  testTag tag = true -> isTemplateTag tag = false ->
  0 <= n <= 99 -> strlen v <= n ->
  parseEmvFrom (S (S fuel)) (pre ++ tag ++ padLen n ++ v)
               (Int (strlen pre)) map
  = Some (set map tag (Leaf v)).
Proof.
  intros Htag Htpl Hn Hv. pose proof (strlen_nonneg v) as Hv0.
  pose proof (strlen_nonneg pre) as Hp.
  pose proof (testTag_strlen _ Htag) as Ht.
  destruct (padLen_spec _ Hn) as [Hpl Hpi].
  set (payload := pre ++ tag ++ padLen n ++ v).
  assert (Hlen : strlen payload = strlen pre + 4 + strlen v).
  { unfold payload. rewrite !strlen_append. lia. }
  assert (E1 : slice payload (Int (strlen pre)) (Int (strlen pre + 2)) = tag).
  { unfold payload. apply slice_mid; [reflexivity | lia]. }
  assert (E2 : slice payload (Int (strlen pre + 2)) (Int (strlen pre + 2 + 2))
               = padLen n).
  { unfold payload. rewrite <- (append_assoc pre tag).
    apply slice_mid; [rewrite strlen_append; lia | lia]. }
  assert (E3 : slice payload (Int (strlen pre + 2 + 2))
                     (Int (strlen pre + 2 + 2 + n)) = v).
  { unfold payload.
    rewrite <- (append_assoc tag), <- (append_assoc pre).
    replace (strlen pre + 2 + 2) with (strlen (pre ++ tag ++ padLen n))
      by (rewrite !strlen_append; lia).
    apply slice_tail. rewrite !strlen_append. lia. }
  rewrite parseEmvFrom_S. cbv zeta. cbn [add].
  assert (Hlt : lt (Int (strlen pre)) (Int (strlen payload)) = true)
    by (apply Z.ltb_lt; lia).
  rewrite Hlt, E1, Htag. cbn [negb]. rewrite E2, Hpi. cbn [add].
  rewrite E3, Htpl.
  destruct (String.eqb tag "63"); [reflexivity|].
  apply parseEmvFrom_done. apply Z.ltb_ge. lia.
Qed.

Lemma parseEmv_stores_truncated_value_witness :
  parseEmvFrom 2 ("000201" ++ "59" ++ padLen 25 ++ "WARUNG") (Int 6)
               [("00", Leaf "01")]
  = Some [("00", Leaf "01"); ("59", Leaf "WARUNG")].
Proof.
  apply (parseEmv_stores_truncated_value 0 "000201" "59" "WARUNG" 25
           [("00", Leaf "01")]);
    try reflexivity; unfold strlen; cbn; lia.
Defined.

End Termination.

(** ** What the checksum detects *)

Module CrcDetection.
Import StringFacts CrcFacts BuilderFacts.

Lemma crcUnshift_all :
  holdsFrom (fun v => crcUnshift (crcShift v) =? v) (Z.to_nat 65536) 0 = true.
Proof. vm_compute. reflexivity. Qed.

Lemma crcShift_inj (a b : Z) :
  0 <= a < 65536 -> 0 <= b < 65536 -> crcShift a = crcShift b -> a = b.
Proof.
  intros Ha Hb H.
  pose proof (holdsFrom_spec _ _ _ crcUnshift_all a) as Ua.
  pose proof (holdsFrom_spec _ _ _ crcUnshift_all b) as Ub.
  rewrite Z2Nat.id in Ua, Ub by lia. cbv beta in Ua, Ub.
  specialize (Ua ltac:(lia)). specialize (Ub ltac:(lia)).
  apply Z.eqb_eq in Ua, Ub. congruence.
Qed.

Lemma hexValue_all :
  holdsFrom (fun v => hexValue (formatCrc v) =? v) (Z.to_nat 65536) 0 = true.
Proof. vm_compute. reflexivity. Qed.

Lemma formatCrc_inj (a b : Z) :
  0 <= a < 65536 -> 0 <= b < 65536 -> formatCrc a = formatCrc b -> a = b.
Proof.
  intros Ha Hb H.
  pose proof (holdsFrom_spec _ _ _ hexValue_all a) as Ua.
  pose proof (holdsFrom_spec _ _ _ hexValue_all b) as Ub.
  rewrite Z2Nat.id in Ua, Ub by lia. cbv beta in Ua, Ub.
  specialize (Ua ltac:(lia)). specialize (Ub ltac:(lia)).
  apply Z.eqb_eq in Ua, Ub. congruence.
Qed.

Lemma lxor_range (a k : Z) :
  0 <= a < 65536 -> 0 <= k < 65536 -> 0 <= Z.lxor a k < 65536.
Proof.
  intros Ha Hk.
  assert (H0 : 0 <= Z.lxor a k) by (apply Z.lxor_nonneg; lia).
  split; [exact H0|].
  destruct (Z.eq_dec (Z.lxor a k) 0) as [->|Hne]; [lia|].
  change 65536 with (2 ^ 16). apply Z.log2_lt_pow2; [lia|].
  pose proof (Z.log2_lxor a k ltac:(lia) ltac:(lia)) as Hl.
  assert (La : Z.log2 a < 16).
  { destruct (Z.eq_dec a 0) as [->|]; [cbn; lia|].
    apply Z.log2_lt_pow2; [lia|]. change (2 ^ 16) with 65536. lia. }
  assert (Lk : Z.log2 k < 16).
  { destruct (Z.eq_dec k 0) as [->|]; [cbn; lia|].
    apply Z.log2_lt_pow2; [lia|]. change (2 ^ 16) with 65536. lia. }
  lia.
Qed.

Lemma lxor_cancel_r (a b k : Z) : Z.lxor a k = Z.lxor b k -> a = b.
Proof.
  intros H.
  rewrite <- (Z.lxor_0_r a), <- (Z.lxor_0_r b), <- (Z.lxor_nilpotent k).
  rewrite <- !Z.lxor_assoc. now rewrite H.
Qed.

Lemma lxor_cancel_l (a k k' : Z) : Z.lxor a k = Z.lxor a k' -> k = k'.
Proof.
  intros H. rewrite (Z.lxor_comm a k), (Z.lxor_comm a k') in H.
  now apply lxor_cancel_r in H.
Qed.

Lemma iter8_crcShift_inj (x y : Z) :
  0 <= x < 65536 -> 0 <= y < 65536 ->
  Nat.iter 8 crcShift x = Nat.iter 8 crcShift y -> x = y.
Proof.
  intros Hx Hy. cbn [Nat.iter]. intros H.
  repeat (apply crcShift_inj in H; [| apply crcShift_range | apply crcShift_range]).
  apply crcShift_inj in H; assumption.
Qed.

Lemma shifted_code_range (code : Z) :
  0 <= code < 256 -> 0 <= Z.shiftl code 8 < 65536.
Proof. intros H. rewrite Z.shiftl_mul_pow2 by lia. change (2 ^ 8) with 256. lia. Qed.

(** For a given character the step is one-to-one on 16-bit registers. *)
Lemma crcStep_inj_register (a b code : Z) :
  0 <= a < 65536 -> 0 <= b < 65536 -> 0 <= code < 256 ->
  crcStep a code = crcStep b code -> a = b.
Proof.
  intros Ha Hb Hc H. unfold crcStep in H.
  apply iter8_crcShift_inj in H;
    try (apply lxor_range; [assumption | now apply shifted_code_range]).
  now apply lxor_cancel_r in H.
Qed.

(** For a given register two different characters give different
    registers. *)
Lemma crcStep_inj_code (a code code' : Z) :
  0 <= a < 65536 -> 0 <= code < 256 -> 0 <= code' < 256 ->
  crcStep a code = crcStep a code' -> code = code'.
Proof.
  intros Ha Hc Hc' H. unfold crcStep in H.
  apply iter8_crcShift_inj in H;
    try (apply lxor_range; [assumption | now apply shifted_code_range]).
  apply lxor_cancel_l in H.
  rewrite !Z.shiftl_mul_pow2 in H by lia. lia.
Qed.

Lemma fold_crcStep_range (l : list Z) (x : Z) :
  0 <= x < 65536 -> 0 <= fold_left crcStep l x < 65536.
Proof.
  revert x; induction l as [|c l IH]; intros x Hx; cbn; [exact Hx|].
  apply IH, crcStep_range.
Qed.

Lemma fold_crcStep_inj (l : list Z) :
  Forall (fun code => 0 <= code < 256) l ->
  forall x y,
    0 <= x < 65536 -> 0 <= y < 65536 ->
    fold_left crcStep l x = fold_left crcStep l y -> x = y.
Proof.
  induction 1 as [|c l Hc _ IH]; intros x y Hx Hy H; cbn in H; [exact H|].
  apply IH in H; try apply crcStep_range.
  now apply crcStep_inj_register in H.
Qed.

Lemma list_ascii_of_string_append (a b : string) :
  list_ascii_of_string (a ++ b)
  = (list_ascii_of_string a ++ list_ascii_of_string b)%list.
Proof. induction a as [|c a IH]; cbn; [reflexivity | now rewrite IH]. Qed.

Lemma codes_range (s : string) :
  Forall (fun code => 0 <= code < 256)
         (List.map charCode (list_ascii_of_string s)).
Proof.
  apply Forall_forall. intros code Hin. apply in_map_iff in Hin.
  destruct Hin as (c & <- & _). apply charCode_range.
Qed.

(** X10.  The checksum detects every change of a single character: two
    payloads that differ in exactly one position have different
    checksums.  The characters are code units below 256, as everywhere in
    this development; line 80 drops the bits that a larger code unit would
    set above bit 15. *)
Theorem crc16Ccitt_detects_single_character_change (a b : string)
    (c c' : ascii) :
  c <> c' ->
  crc16Ccitt (a ++ String c b) <> crc16Ccitt (a ++ String c' b).
Proof.
  intros Hne H. unfold crc16Ccitt in H.
  apply formatCrc_inj in H; try apply crcOfCodes_range.
  unfold crcValue, crcOfCodes in H.
  rewrite !list_ascii_of_string_append, !map_app, !fold_left_app in H.
  cbn [list_ascii_of_string List.map fold_left] in H.
  apply fold_crcStep_inj in H;
    try apply crcStep_range; try apply codes_range.
  apply crcStep_inj_code in H;
    try apply charCode_range; try (apply fold_crcStep_range; lia).
  apply Hne. now apply charCode_inj.
Qed.

Lemma crc16Ccitt_detects_single_character_change_witness :
  crc16Ccitt ("00020101021" ++ String "1" "5802ID6304")
  <> crc16Ccitt ("00020101021" ++ String "2" "5802ID6304").
Proof.
  apply crc16Ccitt_detects_single_character_change. discriminate.
Defined.

End CrcDetection.

(** ** Decimal numbers: lengths and amounts *)

Module DecimalFacts.
Import StringFacts ObjectFacts CrcFacts RoundTrip DynamicFacts Termination.

Lemma toDigits_S (fuel : nat) (radix n : Z) (acc : string) :
  toDigits (S fuel) radix n acc
  = if n / radix =? 0 then String (digitChar (n mod radix)) acc
    else toDigits fuel radix (n / radix) (String (digitChar (n mod radix)) acc).
Proof. reflexivity. Qed.

(** The digits do not depend on the fuel, once there is enough of it. *)
Lemma toDigits_fuel (f : nat) :
  forall g n acc,
    (1 <= f)%nat -> (1 <= g)%nat ->
    0 <= n < 2 ^ Z.of_nat f -> n < 2 ^ Z.of_nat g ->
    toDigits f 10 n acc = toDigits g 10 n acc.
Proof.
  induction f as [|f IH]; intros g n acc Hf Hg Hn Hn'; [lia|].
  destruct g as [|g]; [lia|].
  rewrite !toDigits_S. destruct (n / 10 =? 0) eqn:E; [reflexivity|].
  apply Z.eqb_neq in E.
  assert (Hge : 10 <= n).
  { destruct (Z_lt_le_dec n 10) as [Hlt|]; [|assumption].
    exfalso. apply E. apply Z.div_small. lia. }
  rewrite !Nat2Z.inj_succ, !Z.pow_succ_r in * by lia.
  assert (Hf1 : (1 <= f)%nat).
  { destruct f; [cbn in Hn; lia | lia]. }
  assert (Hg1 : (1 <= g)%nat).
  { destruct g; [cbn in Hn'; lia | lia]. }
  apply IH; try assumption.
  - split; [apply Z.div_pos; lia|]. apply Z.div_lt_upper_bound; lia.
  - apply Z.div_lt_upper_bound; lia.
Qed.

Lemma toDigits_acc (f : nat) :
  forall n acc, toDigits f 10 n acc = toDigits f 10 n "" ++ acc.
Proof.
  induction f as [|f IH]; intros n acc; [reflexivity|].
  rewrite !toDigits_S. destruct (n / 10 =? 0); [reflexivity|].
  rewrite (IH _ (String _ acc)), (IH _ (String _ "")).
  now rewrite append_assoc.
Qed.

Lemma log2_fuel (n : Z) :
  0 <= n -> n < 2 ^ Z.of_nat (S (Z.to_nat (Z.log2 n))).
Proof.
  intros Hn. rewrite Nat2Z.inj_succ, Z2Nat.id by apply Z.log2_nonneg.
  destruct (Z.eq_dec n 0) as [->|Hne]; [cbn; lia|].
  apply Z.log2_spec. lia.
Qed.

Lemma toStringRadix_small (n : Z) :
  0 <= n < 10 -> toStringRadix 10 n = String (digitChar n) "".
Proof.
  intros Hn. unfold toStringRadix. rewrite toDigits_S.
  rewrite Z.div_small, Z.mod_small by lia. reflexivity.
Qed.

(** The digits of [10 * m + d] are the digits of [m], then [d]. *)
Lemma toStringRadix_step (m d : Z) :
  1 <= m -> 0 <= d < 10 ->
  toStringRadix 10 (10 * m + d)
  = toStringRadix 10 m ++ String (digitChar d) "".
Proof.
  intros Hm Hd. unfold toStringRadix at 1. rewrite toDigits_S.
  assert (Hdiv : (10 * m + d) / 10 = m).
  { rewrite Z.mul_comm, Z.div_add_l by lia. rewrite Z.div_small; lia. }
  assert (Hmod : (10 * m + d) mod 10 = d).
  { rewrite Z.add_comm, Z.mul_comm, Z.mod_add by lia. apply Z.mod_small; lia. }
  rewrite Hdiv, Hmod.
  assert (E : (m =? 0) = false) by (apply Z.eqb_neq; lia). rewrite E.
  rewrite toDigits_acc. f_equal. unfold toStringRadix.
  pose proof (Z.log2_nonneg (10 * m + d)) as Hl0.
  pose proof (Z.log2_spec (10 * m + d) ltac:(lia)) as [Hlo Hhi].
  rewrite Z.pow_succ_r in Hhi by assumption.
  assert (Hl1 : 1 <= Z.log2 (10 * m + d)).
  { apply Z.log2_le_pow2; [lia|]. change (2 ^ 1) with 2. lia. }
  apply toDigits_fuel.
  - apply Nat2Z.inj_le. rewrite Z2Nat.id; lia.
  - lia.
  - rewrite Z2Nat.id by assumption. lia.
  - apply log2_fuel. lia.
Qed.

Lemma readDigits_append (s1 s2 : string) :
  forall a, readDigits a (s1 ++ s2) = readDigits (readDigits a s1) s2.
Proof. induction s1 as [|c s1 IH]; intros a; cbn; [reflexivity | apply IH]. Qed.

Lemma charCode_digitChar (d : Z) : 0 <= d < 10 -> charCode (digitChar d) - 48 = d.
Proof.
  intros Hd.
  assert (H : holdsFrom (fun d => charCode (digitChar d) - 48 =? d) 10 0 = true)
    by (vm_compute; reflexivity).
  pose proof (holdsFrom_spec _ _ _ H d ltac:(lia)) as E. cbv beta in E.
  now apply Z.eqb_eq in E.
Qed.

(** Reading the digits of [n] gives [n]. *)
Lemma readDigits_toStringRadix (n : Z) :
  0 <= n -> readDigits 0 (toStringRadix 10 n) = n.
Proof.
  intros Hn. generalize Hn. pattern n. apply Z_lt_induction; [|assumption].
  clear n Hn. intros n IH Hpos.
  destruct (Z_lt_le_dec n 10) as [Hlt|Hge].
  - rewrite toStringRadix_small by lia. cbn [readDigits].
    rewrite charCode_digitChar; lia.
  - replace n with (10 * (n / 10) + n mod 10) at 1
      by (symmetry; apply Z.div_mod; lia).
    pose proof (Z.mod_pos_bound n 10 ltac:(lia)) as Hmod.
    assert (Hdiv : 1 <= n / 10) by (apply Z.div_le_lower_bound; lia).
    rewrite toStringRadix_step by lia.
    rewrite readDigits_append, IH.
    + cbn [readDigits]. rewrite charCode_digitChar by lia.
      symmetry. apply Z.div_mod. lia.
    + split; [lia|]. apply Z.div_lt; lia.
    + lia.
Qed.

Lemma readDigits_zeros (k : nat) (s : string) :
  readDigits 0 (repeatChar "0" k ++ s) = readDigits 0 s.
Proof. induction k as [|k IH]; [reflexivity | exact IH]. Qed.

Lemma allDigits_String (c : ascii) (r : string) :
  allDigits (String c r) = isDigit c && allDigits r.
Proof. reflexivity. Qed.

Lemma digitsPrefix_allDigits (s : string) :
  allDigits s = true ->
  forall a, digitsPrefix (Some a) s = Some (readDigits a s).
Proof.
  induction s as [|c r IH]; intros Hs a; [reflexivity|].
  rewrite allDigits_String in Hs. apply andb_prop in Hs. destruct Hs as [Hc Hr].
  rewrite digitsPrefix_String, Hc. cbn [readDigits]. now apply IH.
Qed.

Lemma parseInt_digit_first (c : ascii) (r : string) :
  isDigit c = true ->
  parseInt (String c r)
  = match digitsPrefix None (String c r) with
    | Some n => Int n
    | None => NaN
    end.
Proof.
  intros Hc.
  destruct c as [[] [] [] [] [] [] [] []]; try (vm_compute in Hc; discriminate Hc);
    unfold parseInt;
    match goal with
    | |- context [trimStart ?s] => change (trimStart s) with s
    end;
    cbv beta iota zeta;
    destruct (digitsPrefix None _) as [n|]; try reflexivity; f_equal; lia.
Qed.

(** [parseInt] of a string of digits is the number the digits stand for. *)
Lemma parseInt_allDigits (s : string) :
  allDigits s = true -> s <> "" -> parseInt s = Int (readDigits 0 s).
Proof.
  destruct s as [|c r]; [congruence|]. intros Hs _.
  pose proof Hs as Hs'. rewrite allDigits_String in Hs'.
  apply andb_prop in Hs'. destruct Hs' as [Hc Hr].
  rewrite (parseInt_digit_first c r Hc), digitsPrefix_String, Hc.
  now rewrite (digitsPrefix_allDigits r Hr).
Qed.

Lemma toStringRadix_allDigits (n : Z) : allDigits (toStringRadix 10 n) = true.
Proof. unfold toStringRadix. now apply toDigits_allDigits. Qed.

Lemma toStringRadix_nonempty (n : Z) :
  (1 <= String.length (toStringRadix 10 n))%nat.
Proof.
  unfold toStringRadix. rewrite toDigits_S.
  destruct (n / 10 =? 0); [cbn; lia|].
  rewrite toDigits_acc, length_append. cbn [String.length]. lia.
Qed.

Lemma readDigits_two (s : string) :
  allDigits s = true -> String.length s = 2%nat -> readDigits 0 s <= 99.
Proof.
  destruct s as [|a [|b [|c r]]]; try discriminate. intros Hs _.
  rewrite !allDigits_String in Hs.
  apply andb_prop in Hs. destruct Hs as [Ha Hs].
  apply andb_prop in Hs. destruct Hs as [Hb _].
  assert (Hd : forall c, isDigit c = true -> charCode c - 48 <= 9).
  { intros c Hc. unfold isDigit, inRange in Hc.
    apply andb_prop in Hc. destruct Hc as [_ Hc]. apply Z.leb_le in Hc.
    lia. }
  pose proof (Hd a Ha). pose proof (Hd b Hb).
  cbn [readDigits]. lia.
Qed.

(** X11.  [padLen] on every string length (a whole number below [2^53]):
    the result is decimal digits only, at least two of them, [parseInt]
    reads the number back from it, and it has exactly two characters if and
    only if the number is at most 99, the largest length a field can
    declare. *)
Theorem padLen_reads_back_and_overflows_two_digits (n : Z) :
  0 <= n < 2 ^ 53 ->
  parseInt (padLen n) = Int n
  /\ allDigits (padLen n) = true
  /\ (2 <= String.length (padLen n))%nat
  /\ (String.length (padLen n) = 2%nat <-> n <= 99).
Proof.
  intros Hn.
  assert (Hall : allDigits (padLen n) = true).
  { unfold padLen, padStart0. rewrite allDigits_append.
    now rewrite allDigits_repeat0, toStringRadix_allDigits. }
  assert (Hlen : (2 <= String.length (padLen n))%nat).
  { unfold padLen, padStart0. rewrite length_append, length_repeatChar. lia. }
  assert (Hread : readDigits 0 (padLen n) = n).
  { unfold padLen, padStart0. rewrite readDigits_zeros.
    apply readDigits_toStringRadix. lia. }
  repeat split; try assumption.
  - rewrite parseInt_allDigits, Hread; [reflexivity | assumption |].
    intros E. rewrite E in Hlen. cbn in Hlen. lia.
  - intros H2. rewrite <- Hread. now apply readDigits_two.
  - intros Hle. destruct (padLen_spec n ltac:(lia)) as [H2 _].
    unfold strlen in H2. lia.
Qed.

Lemma padLen_reads_back_and_overflows_two_digits_witness :
  0 <= 120 < 2 ^ 53
  /\ parseInt (padLen 120) = Int 120
  /\ allDigits (padLen 120) = true
  /\ (2 <= String.length (padLen 120))%nat
  /\ (String.length (padLen 120) = 2%nat <-> 120 <= 99).
Proof.
  split; [lia|].
  apply (padLen_reads_back_and_overflows_two_digits 120). lia.
Defined.

Lemma toFixed_2_integer (n : Z) :
  0 <= n < 10 ^ 21 ->
  toFixed (ofInt n) 2 = toStringRadix 10 n ++ ".00".
Proof.
  intros Hn. unfold ofInt.
  assert (Hneg : (n <? 0) = false) by (apply Z.ltb_ge; lia). rewrite Hneg.
  unfold toFixed. change (0 <? 0) with false. cbv beta iota zeta.
  rewrite N2Z.inj_abs_N, Z.abs_eq by lia.
  change (2 ^ 0) with 1. change (Z.of_nat 2) with 2. change (10 ^ 2) with 100.
  assert (Hbig : (10 ^ 21 * 1 <=? n * 1) = false) by (apply Z.leb_gt; lia).
  rewrite Hbig. cbn [andb append].
  assert (Hdiv : (2 * (n * 1) * 100 + 1) / (2 * 1) = 100 * n).
  { symmetry. apply (Z.div_unique _ _ _ 1); lia. }
  rewrite Hdiv.
  destruct (Z.eq_dec n 0) as [->|Hne]; [reflexivity|].
  replace (100 * n) with (10 * (10 * n) + 0) by lia.
  rewrite toStringRadix_step by lia.
  replace (10 * n) with (10 * n + 0) by lia.
  rewrite toStringRadix_step by lia.
  change (digitChar 0) with "0"%char.
  set (d := toStringRadix 10 n).
  pose proof (toStringRadix_nonempty n) as Hd. fold d in Hd.
  rewrite !append_assoc. cbn [append].
  assert (Hpad : padStart0 3 (d ++ "00") = d ++ "00").
  { unfold padStart0. rewrite length_append. cbn [String.length].
    replace (3 - (String.length d + 2))%nat with 0%nat by lia. reflexivity. }
  rewrite Hpad, length_append. cbn [String.length Nat.eqb].
  replace (String.length d + 2 - 2)%nat with (String.length d) by lia.
  rewrite substring_prefix.
  replace (String.length d) with (String.length d + 0)%nat at 1 by lia.
  rewrite substring_skip. reflexivity.
Qed.

(** X12.  A whole amount is written without a decimal point: when the
    amount is a whole number [n] with [0 <= n < 2^53], field 54 of the tree
    that [generateDynamicQRISPayload] builds is exactly the decimal digits of
    [n], from which [parseInt] reads [n] back; no [.00] is left and no
    digit is lost, whatever the rest of the tree and the reference are. *)
Theorem dynamic_whole_amount_is_its_digits
    (emv : EmvMap) (n : Z) (reference : option string) :
  0 <= n < 2 ^ 53 ->
  get (dynamicTree emv (ofInt n) reference) "54"
  = Some (Leaf (toStringRadix 10 n))
  /\ allDigits (toStringRadix 10 n) = true
  /\ parseInt (toStringRadix 10 n) = Int n.
Proof.
  intros Hn. split; [|split].
  - rewrite dynamicTree_54, toFixed_2_integer.
    + change (toStringRadix 10 n ++ ".00")
        with (toStringRadix 10 n ++ "." ++ "00").
      rewrite stripDot00_spec by reflexivity. reflexivity.
    + change (2 ^ 53) with 9007199254740992 in Hn.
      change (10 ^ 21) with 1000000000000000000000. lia.
  - apply toStringRadix_allDigits.
  - rewrite parseInt_allDigits.
    + now rewrite readDigits_toStringRadix by lia.
    + apply toStringRadix_allDigits.
    + intros E. pose proof (toStringRadix_nonempty n) as H.
      rewrite E in H. cbn in H. lia.
Qed.

Lemma dynamic_whole_amount_is_its_digits_witness :
  0 <= 25000 < 2 ^ 53
  /\ get (dynamicTree [("00", Leaf "01")] (ofInt 25000) None) "54"
     = Some (Leaf "25000").
Proof.
  split; [lia|].
  apply (dynamic_whole_amount_is_its_digits
           [("00", Leaf "01")] 25000 None).
  lia.
Defined.


End DecimalFacts.

(** ** The order of the fields on any host *)

Module HostCollation.
Import StringFacts ObjectFacts SortFacts BuilderFacts RoundTrip Canonical.

(** *** The sort is stable *)

Section Stable.
Context {A : Type} (cmp : A -> A -> Z).

Lemma insertBy_before_new (x b : A) (l : list A) :
  In b l -> cmp x b <= 0 -> before x b (insertBy cmp x l).
Proof.
  induction l as [|y l IH]; intros Hin Hle; [contradiction|].
  cbn [insertBy]. destruct (cmp x y <=? 0) eqn:E.
  - now apply before_cons_head.
  - apply Z.leb_gt in E. destruct Hin as [->|Hin]; [lia|].
    apply before_cons. now apply IH.
Qed.

Lemma insertBy_before_old (a b x : A) (l : list A) :
  before a b l -> before a b (insertBy cmp x l).
Proof.
  induction l as [|y l IH]; intros Hb.
  - destruct Hb as (l1 & l2 & l3 & H). destruct l1; discriminate.
  - cbn [insertBy]. destruct (cmp x y <=? 0); [now apply before_cons|].
    apply before_cons_inv in Hb. destruct Hb as [[-> Hin]|Hb].
    + apply before_cons_head.
      apply (Permutation_in _ (Permutation_sym (insertBy_perm cmp x l))).
      now right.
    + apply before_cons. now apply IH.
Qed.

(** An element that comes first and does not rank higher stays first. *)
Lemma sortBy_stable (a b : A) (l : list A) :
  before a b l -> cmp a b <= 0 -> before a b (sortBy cmp l).
Proof.
  induction l as [|x l IH]; intros Hb Hle.
  - destruct Hb as (l1 & l2 & l3 & H). destruct l1; discriminate.
  - cbn [sortBy]. apply before_cons_inv in Hb. destruct Hb as [[-> Hin]|Hb].
    + apply insertBy_before_new; [|exact Hle].
      now apply (Permutation_in _ (Permutation_sym (sortBy_perm cmp l))).
    + apply insertBy_before_old. now apply IH.
Qed.
End Stable.

Lemma before_map {A B : Type} (f : A -> B) (a b : A) (l : list A) :
  before a b l -> before (f a) (f b) (List.map f l).
Proof.
  intros (l1 & l2 & l3 & ->).
  exists (List.map f l1), (List.map f l2), (List.map f l3).
  now rewrite map_app, (map_cons f a), map_app, (map_cons f b).
Qed.

Lemma before_map_inv {A B : Type} (f : A -> B) (a' b' : B) (l : list A) :
  before a' b' (List.map f l) ->
  exists a b, f a = a' /\ f b = b' /\ before a b l.
Proof.
  intros (l1 & l2 & l3 & H).
  apply map_eq_app in H. destruct H as (m1 & r1 & -> & _ & H).
  apply map_eq_cons in H. destruct H as (a & r2 & -> & Ha & H).
  apply map_eq_app in H. destruct H as (m2 & r3 & -> & _ & H).
  apply map_eq_cons in H. destruct H as (b & m3 & -> & Hb & _).
  exists a, b. split; [exact Ha|]. split; [exact Hb|].
  now exists m1, m2, m3.
Qed.

Lemma before_filter {A : Type} (p : A -> bool) (a b : A) (l : list A) :
  before a b l -> p a = true -> p b = true -> before a b (filter p l).
Proof.
  intros (l1 & l2 & l3 & ->) Ha Hb.
  exists (filter p l1), (filter p l2), (filter p l3).
  rewrite filter_app. cbn [filter]. rewrite Ha, filter_app. cbn [filter].
  now rewrite Hb.
Qed.

Lemma before_NoDup {A : Type} (a b : A) (l : list A) :
  NoDup l -> before a b l -> before b a l -> False.
Proof.
  induction 1 as [|z l Hz Hnd IH]; intros Hab Hba.
  - destruct Hab as (l1 & l2 & l3 & H). destruct l1; discriminate.
  - apply before_cons_inv in Hab. apply before_cons_inv in Hba.
    destruct Hab as [[-> Hb]|Hab], Hba as [[-> Ha]|Hba]; auto.
    + apply before_In in Hba. tauto.
    + apply before_In in Hab. tauto.
Qed.

(** *** What a consistent comparison gives *)

Section Consistent.
Variable collate : string -> string -> Z.
Hypothesis collate_consistent : consistent collate.

Lemma consistent_total (a b : string) : collate a b <= 0 \/ collate b a <= 0.
Proof.
  destruct collate_consistent as [Hsym _].
  destruct (Z_le_gt_dec (collate a b) 0) as [H|H]; [now left|].
  right. assert (collate b a < 0) by (apply Hsym; lia). lia.
Qed.

Lemma consistent_tie (a b : string) : collate a b = 0 -> collate b a = 0.
Proof.
  destruct collate_consistent as [Hsym _]. intros H.
  pose proof (Hsym a b). pose proof (Hsym b a). lia.
Qed.

Lemma consistent_both (a b : string) :
  collate a b <= 0 -> collate b a <= 0 -> collate a b = 0.
Proof.
  destruct collate_consistent as [Hsym _]. intros H1 H2.
  pose proof (Hsym a b). pose proof (Hsym b a). lia.
Qed.

Lemma sortedEntriesWith_perm (map : EmvMap) :
  Permutation (sortedEntriesWith collate map) (filter not63 map).
Proof.
  unfold sortedEntriesWith. rewrite sortBy_perm.
  apply (filter_perm not63), entries_perm.
Qed.

Lemma sortedEntriesWith_sorted (map : EmvMap) :
  StronglySorted (fun a b => collate (fst a) (fst b) <= 0)
                 (sortedEntriesWith collate map).
Proof.
  unfold sortedEntriesWith.
  apply (sortBy_sorted (fun a b : string * EmvNode => collate (fst a) (fst b))).
  - intros x y. apply consistent_total.
  - intros x y z. apply (proj2 collate_consistent).
Qed.

Lemma emittedTagsWith_sorted (map : EmvMap) :
  StronglySorted (fun a b => collate a b <= 0) (emittedTagsWith collate map).
Proof.
  unfold emittedTagsWith. apply StronglySorted_map, sortedEntriesWith_sorted.
Qed.

Lemma In_emittedTagsWith (map : EmvMap) (a : string) :
  In a (emittedTagsWith collate map) <-> In a (keys map) /\ a <> "63".
Proof.
  unfold emittedTagsWith, keys. rewrite !in_map_iff. split.
  - intros ([k v] & <- & Hin).
    apply (Permutation_in _ (sortedEntriesWith_perm map)) in Hin.
    apply filter_In in Hin. destruct Hin as [Hin Hne]. cbn [fst] in *. split.
    + now exists (k, v).
    + apply negb_true_iff, String.eqb_neq in Hne. exact Hne.
  - intros (([k v] & <- & Hin) & Hne). exists (k, v). split; [reflexivity|].
    apply (Permutation_in _ (Permutation_sym (sortedEntriesWith_perm map))).
    apply filter_In. split; [exact Hin|]. unfold not63. cbn [fst] in *.
    now apply negb_true_iff, String.eqb_neq.
Qed.

Lemma NoDup_emittedTagsWith (map : EmvMap) :
  NoDup (keys map) -> NoDup (emittedTagsWith collate map).
Proof.
  intros Hnd.
  apply (Permutation_NoDup (l := keys (filter not63 map))).
  - unfold emittedTagsWith, keys. apply Permutation_map. symmetry.
    apply sortedEntriesWith_perm.
  - now apply NoDup_keys_filter.
Qed.

(** Of two tags, the one that [Object.entries] enumerates first and that
    does not rank higher is written first. *)
Lemma emittedTagsWith_stable (map : EmvMap) (a b : string) :
  a <> "63" -> b <> "63" ->
  before a b (keys (entries map)) -> collate a b <= 0 ->
  before a b (emittedTagsWith collate map).
Proof.
  intros Ha Hb Hbefore Hle.
  apply before_map_inv in Hbefore. destruct Hbefore as (ea & eb & <- & <- & H).
  unfold emittedTagsWith, sortedEntriesWith. apply before_map.
  apply sortBy_stable; [|exact Hle].
  apply before_filter; [exact H| |]; now apply negb_true_iff, String.eqb_neq.
Qed.

Lemma payloadNoCRCWith_concat (map : EmvMap) :
  payloadNoCRCWith collate map
  = String.concat ""
      (List.map (fun e => field (fst e) (buildValue (snd e)))
                (sortedEntriesWith collate map)).
Proof. unfold payloadNoCRCWith. rewrite fields_concat, map_map. reflexivity. Qed.

Lemma buildEmvWith_unfold (map : EmvMap) :
  buildEmvWith collate map
  = payloadNoCRCWith collate map ++ "6304"
    ++ toUpperCase (crc16Ccitt (payloadNoCRCWith collate map ++ "6304")).
Proof. reflexivity. Qed.
End Consistent.

Lemma ltb_irrefl (a : string) : String.ltb a a = false.
Proof.
  unfold String.ltb. destruct (String.compare a a) eqn:E; try reflexivity.
  pose proof (String.compare_antisym a a) as H. rewrite E in H. discriminate.
Qed.

Lemma ltb_neither (a b : string) :
  String.ltb a b = false -> String.ltb b a = false -> a = b.
Proof.
  unfold String.ltb. rewrite (String.compare_antisym b a).
  destruct (String.compare a b) eqn:E; cbn; try discriminate.
  intros _ _. now apply String.compare_eq_iff.
Qed.

(** The root collation is a consistent comparison, and it ranks tags of
    digits and upper-case letters as the byte-wise comparison does. *)
Lemma localeCompare_consistent : consistent localeCompare.
Proof.
  split.
  - intros a b. rewrite (localeCompare_antisym a b). lia.
  - apply localeCompare_trans.
Qed.

Lemma localeCompare_agreesWithBytes (tags : list string) :
  Forall (fun k => digitsAndCapitals k = true) tags ->
  agreesWithBytes localeCompare tags.
Proof.
  intros Hall a b Ha Hb. rewrite Forall_forall in Hall.
  apply localeCompare_bytewise; now apply Hall.
Qed.

Lemma compareBy_consistent (w : ascii -> Z) : consistent (compareBy w).
Proof.
  split.
  - intros a b. rewrite (compareBy_antisym w a b). lia.
  - apply compareBy_le_trans.
Qed.

(** The order is the host's: the same tree is written as a0, B0 under the
    root collation and as B0, a0 under a comparison by code unit. *)
Lemma buildEmv_order_depends_on_the_host :
  let map := [("B0", Leaf "y"); ("a0", Leaf "x")] in
  consistent localeCompare
  /\ consistent (compareBy charCode)
  /\ buildEmvWith localeCompare map = "a001xB001y6304096D"
  /\ buildEmvWith (compareBy charCode) map = "B001ya001x630456AD".
Proof.
  repeat split; try reflexivity;
    try apply localeCompare_consistent; apply compareBy_consistent.
Qed.

(** Where the host gives two tags the same rank (here under a comparison
    that ignores case), the insertion order shows in the payload. *)
Lemma buildEmv_keeps_insertion_order_on_ties :
  let collate := compareBy primaryWeight in
  consistent collate
  /\ collate "a0" "A0" = 0
  /\ buildEmvWith collate [("a0", Leaf "x"); ("A0", Leaf "y")]
     = "a001xA001y63042429"
  /\ buildEmvWith collate [("A0", Leaf "y"); ("a0", Leaf "x")]
     = "A001ya001x6304DB0E".
Proof.
  repeat split; try reflexivity; apply compareBy_consistent.
Qed.

(** C4, as the code has it.  [buildEmv] sorts the entries other than 63
    with the comparison of the host, for which ECMAScript promises no more
    than consistency.  On every such host, and for every tree (an object: no
    key twice), the payload is the fields of those entries, each once, then
    the CRC field; of two distinct tags [a] and [b] other than 63, [a] is
    written before [b] exactly when the host ranks [a] below [b], or ranks
    them equal and [Object.entries] enumerates [a] first.  Where the host's
    comparison agrees with the byte-wise comparison on the tags of the tree,
    [a] is written before [b] exactly when [a] precedes [b] byte-wise. *)
Theorem buildEmv_orders_tags_by_host_collation
    (collate : string -> string -> Z) (map : EmvMap) :
  consistent collate -> NoDup (keys map) ->
  buildEmvWith collate map
  = String.concat ""
      (List.map (fun e => field (fst e) (buildValue (snd e)))
                (sortedEntriesWith collate map))
    ++ "6304"
    ++ toUpperCase (crc16Ccitt (payloadNoCRCWith collate map ++ "6304"))
  /\ Permutation (sortedEntriesWith collate map) (filter not63 map)
  /\ (forall a b,
        In a (keys map) -> In b (keys map) ->
        a <> "63" -> b <> "63" -> a <> b ->
        (before a b (emittedTagsWith collate map)
         <-> collate a b < 0
             \/ (collate a b = 0 /\ before a b (keys (entries map)))))
  /\ (agreesWithBytes collate (keys map) ->
      forall a b,
        In a (keys map) -> In b (keys map) -> a <> "63" -> b <> "63" ->
        (before a b (emittedTagsWith collate map)
         <-> String.ltb a b = true)).
Proof.
  intros Hc Hnd.
  pose proof (NoDup_emittedTagsWith collate map Hnd) as Hnd'.
  pose proof (emittedTagsWith_sorted collate Hc map) as Hsorted.
  assert (Hord : forall a b,
             In a (keys map) -> In b (keys map) ->
             a <> "63" -> b <> "63" -> a <> b ->
             (before a b (emittedTagsWith collate map)
              <-> collate a b < 0
                  \/ (collate a b = 0 /\ before a b (keys (entries map))))).
  { intros a b Ha Hb Ha63 Hb63 Hab.
    assert (Hin : forall k, In k (keys map) -> In k (keys (entries map))).
    { intros k Hk. unfold keys in *.
      apply (Permutation_in
               _ (Permutation_map fst (Permutation_sym (entries_perm map)))).
      exact Hk. }
    split.
    - intros Hbefore.
      pose proof (before_sorted _ _ _ _ Hsorted Hbefore) as Hle. cbv beta in Hle.
      destruct (Z.eq_dec (collate a b) 0) as [E|E]; [right | left; lia].
      split; [exact E|].
      destruct (before_total a b (keys (entries map))) as [H|H]; auto.
      exfalso. apply (before_NoDup a b _ Hnd' Hbefore).
      apply (emittedTagsWith_stable collate); auto.
      rewrite (consistent_tie collate Hc a b E). lia.
    - intros [Hlt|[E Hbefore]].
      + destruct (before_total a b (emittedTagsWith collate map)) as [H|H];
          auto; try (apply In_emittedTagsWith; now split).
        pose proof (before_sorted _ _ _ _ Hsorted H) as Hle. cbv beta in Hle.
        pose proof (proj1 Hc b a). lia.
      + apply (emittedTagsWith_stable collate); auto. lia. }
  split; [|split; [|split]].
  - now rewrite buildEmvWith_unfold, payloadNoCRCWith_concat.
  - apply sortedEntriesWith_perm.
  - exact Hord.
  - intros Hag a b Ha Hb Ha63 Hb63.
    destruct (string_dec a b) as [->|Hab].
    + rewrite ltb_irrefl. split; [|discriminate].
      intros H. exfalso. exact (before_NoDup b b _ Hnd' H H).
    + rewrite (Hord a b Ha Hb Ha63 Hb63 Hab). split.
      * intros [Hlt|[E _]]; [now apply Hag|].
        exfalso. apply Hab. apply ltb_neither.
        -- destruct (String.ltb a b) eqn:L; [|reflexivity].
           apply (Hag a b Ha Hb) in L. lia.
        -- destruct (String.ltb b a) eqn:L; [|reflexivity].
           apply (Hag b a Hb Ha) in L.
           rewrite (consistent_tie collate Hc a b E) in L. lia.
      * intros L. left. now apply Hag.
Qed.

Lemma buildEmv_orders_tags_by_host_collation_witness :
  let map := [("52", Leaf "1234"); ("A0", Leaf "x"); ("00", Leaf "01")] in
  consistent localeCompare
  /\ NoDup (keys map)
  /\ agreesWithBytes localeCompare (keys map)
  /\ buildEmvWith localeCompare map
     = "000201" ++ "52041234" ++ "A001x" ++ "6304" ++ "0E74"
  /\ (forall a b,
        In a (keys map) -> In b (keys map) -> a <> "63" -> b <> "63" ->
        (before a b (emittedTagsWith localeCompare map)
         <-> String.ltb a b = true)).
Proof.
  intros map.
  assert (Hnd : NoDup (keys map))
    by (repeat constructor; cbn; intuition discriminate).
  assert (Hag : agreesWithBytes localeCompare (keys map))
    by (apply localeCompare_agreesWithBytes; repeat constructor).
  destruct (buildEmv_orders_tags_by_host_collation
              localeCompare map localeCompare_consistent Hnd)
    as (_ & _ & _ & Hbytes).
  split; [exact localeCompare_consistent|]. split; [exact Hnd|].
  split; [exact Hag|]. split; [reflexivity|]. exact (Hbytes Hag).
Defined.

(** X3.  The payload depends only on the entries of the tree other than
    63, on every host whose comparison is consistent and gives no two
    distinct tags of the tree the same rank: two trees (objects) whose
    entries other than 63 are the same, in any insertion order and with or
    without a stale CRC under 63, are serialized to the same payload.  Where
    two tags have the same rank, the stable sort keeps them in insertion
    order and the payloads may differ. *)
Theorem buildEmv_ignores_order_and_stale_crc
    (collate : string -> string -> Z) (t t' : EmvMap) :
  consistent collate -> separates collate (keys t) ->
  NoDup (keys t) ->
  Permutation (filter not63 t) (filter not63 t') ->
  buildEmvWith collate t = buildEmvWith collate t'.
Proof.
  intros Hc Hsep Hnd Hperm.
  assert (Hsame : sortedEntriesWith collate t = sortedEntriesWith collate t').
  { apply (sorted_perm_unique
             (fun a b : string * EmvNode => collate (fst a) (fst b) <= 0)).
    - rewrite (sortedEntriesWith_perm collate t), Hperm. symmetry.
      apply sortedEntriesWith_perm.
    - now apply sortedEntriesWith_sorted.
    - now apply sortedEntriesWith_sorted.
    - intros a b Ha Hb Hab Hba.
      assert (Hin : forall e, In e (sortedEntriesWith collate t) -> In e t).
      { intros e He.
        apply (Permutation_in _ (sortedEntriesWith_perm collate t)) in He.
        now apply filter_In in He. }
      apply (NoDup_keys_In_eq t); auto.
      apply Hsep; try (unfold keys; apply in_map; auto).
      now apply (consistent_both collate Hc). }
  rewrite !buildEmvWith_unfold. unfold payloadNoCRCWith. now rewrite Hsame.
Qed.

Lemma buildEmv_ignores_order_and_stale_crc_witness :
  let t := [("00", Leaf "01"); ("52", Leaf "5812"); ("63", Leaf "ABCD")] in
  let t' := [("52", Leaf "5812"); ("00", Leaf "01")] in
  consistent localeCompare
  /\ separates localeCompare (keys t)
  /\ buildEmvWith localeCompare t = buildEmvWith localeCompare t'.
Proof.
  intros t t'.
  assert (Hsep : separates localeCompare (keys t))
    by (intros a b _ _; apply localeCompare_eq_inv).
  split; [exact localeCompare_consistent|]. split; [exact Hsep|].
  apply (buildEmv_ignores_order_and_stale_crc
           localeCompare t t' localeCompare_consistent Hsep).
  - repeat constructor; cbn; intuition discriminate.
  - cbn. apply perm_swap.
Defined.

End HostCollation.
